(** * IPTV channel ingestion and validation: a shallow embedding

    This development embeds the channel core of the IPTV backend
    ([Backend/main/app.py], with the older parser of [Backend/app.py])
    and settles the properties stated about it.

    Conventions of the embedding.
    - A Python [str] is a Rocq [string]; its characters are the code
      points 0..255.  The character classes below ([isspace], the
      line boundaries of [splitlines], [\d], [\w], [lower]) are Python's
      classes restricted to that range.
    - A Python [bytes] is a Rocq [string] as well (one character per byte).
    - A [dict] with string keys is a [gmap string _]; [d.get(k)] is [d !! k].
    - [x or y] on optional strings is [por]: the left operand when it is a
      non-empty string, the right operand otherwise.
    - A naive UTC [datetime] is an integer number of microseconds ([Z]); the
      ISO text written by [isoformat] and read back by [fromisoformat] is
      represented by the instant it denotes.
    - A coroutine is run to completion as one step; what it awaits from the
      outside world (HTTP exchanges, the clock) is read from an explicit
      environment. *)

From Stdlib Require Import ZArith QArith Qround Ascii String List Bool Lia.
From stdpp Require Import base option list strings gmap fin_maps pretty.

Local Open Scope nat_scope.

(* ===================================================================== *)
(** * Python string primitives *)
(* ===================================================================== *)

Module Py.

Definition code (c : ascii) : nat := nat_of_ascii c.

Definition between (lo hi : nat) (c : ascii) : bool :=
  (lo <=? code c) && (code c <=? hi).

(** [str.isspace] on one character (also the class [\s]). *)
Definition isspace (c : ascii) : bool :=
  between 9 13 c || between 28 32 c || (code c =? 133) || (code c =? 160).

(** The line boundaries of [str.splitlines], [\r\n] apart. *)
Definition islinebreak (c : ascii) : bool :=
  between 10 13 c || between 28 30 c || (code c =? 133).

(** The class [\d]. *)
Definition isdecimal (c : ascii) : bool := between 48 57 c.

Definition isalpha (c : ascii) : bool :=
  between 65 90 c || between 97 122 c
  || (code c =? 170) || (code c =? 181) || (code c =? 186)
  || between 192 214 c || between 216 246 c || between 248 255 c.

(** [str.isalnum] on one character. *)
Definition isalnum (c : ascii) : bool :=
  isalpha c || isdecimal c
  || (code c =? 178) || (code c =? 179) || (code c =? 185)
  || between 188 190 c.

(** The class [\w]. *)
Definition isword (c : ascii) : bool := isalnum c || (code c =? 95).

Definition lower_char (c : ascii) : ascii :=
  if between 65 90 c || between 192 214 c || between 216 222 c
  then ascii_of_nat (code c + 32) else c.

(** [s.lower()] *)
Fixpoint lower (s : string) : string :=
  match s with
  | EmptyString => EmptyString
  | String c s' => String (lower_char c) (lower s')
  end.

Fixpoint lstrip (s : string) : string :=
  match s with
  | EmptyString => EmptyString
  | String c s' => if isspace c then lstrip s' else s
  end.

Fixpoint rev_onto (s acc : string) : string :=
  match s with
  | EmptyString => acc
  | String c s' => rev_onto s' (String c acc)
  end.

Definition str_rev (s : string) : string := rev_onto s EmptyString.

(** [s.strip()] *)
Definition strip (s : string) : string :=
  str_rev (lstrip (str_rev (lstrip s))).

(** [s.startswith(p)] *)
Fixpoint startswith (s p : string) : bool :=
  match p, s with
  | EmptyString, _ => true
  | String _ _, EmptyString => false
  | String a p', String b s' => Ascii.eqb a b && startswith s' p'
  end.

(** [s.endswith(p)] *)
Definition endswith (s p : string) : bool := startswith (str_rev s) (str_rev p).

(** [sub in s] *)
Fixpoint contains (sub s : string) : bool :=
  startswith s sub ||
  match s with
  | EmptyString => false
  | String _ s' => contains sub s'
  end.

(** [s[:n]] *)
Fixpoint str_take (n : nat) (s : string) : string :=
  match n, s with
  | S n', String c s' => String c (str_take n' s')
  | _, _ => EmptyString
  end.

(** [s.splitlines()]: [cur] is the line being read, reversed. *)
Fixpoint splitlines_from (cur s : string) : list string :=
  match s with
  | EmptyString =>
      match cur with EmptyString => [] | _ => [str_rev cur] end
  | String c rest =>
      if code c =? 13 then
        match rest with
        | String d rest' =>
            if code d =? 10 then str_rev cur :: splitlines_from EmptyString rest'
            else str_rev cur :: splitlines_from EmptyString rest
        | EmptyString => str_rev cur :: splitlines_from EmptyString rest
        end
      else if islinebreak c then str_rev cur :: splitlines_from EmptyString rest
      else splitlines_from (String c cur) rest
  end.

Definition splitlines (s : string) : list string :=
  splitlines_from EmptyString s.

(** [s.split(sep)] for a one-character separator. *)
Fixpoint split_from (sep : ascii) (cur s : string) : list string :=
  match s with
  | EmptyString => [str_rev cur]
  | String c rest =>
      if Ascii.eqb c sep then str_rev cur :: split_from sep EmptyString rest
      else split_from sep (String c cur) rest
  end.

Definition split (sep : ascii) (s : string) : list string :=
  split_from sep EmptyString s.

(** [s.split(sep, 1)[1]], when [sep] occurs in [s]. *)
Fixpoint after_first (sep : ascii) (s : string) : option string :=
  match s with
  | EmptyString => None
  | String c rest => if Ascii.eqb c sep then Some rest else after_first sep rest
  end.

(** [sep.join(l)] *)
Fixpoint join (sep : string) (l : list string) : string :=
  match l with
  | [] => EmptyString
  | [x] => x
  | x :: l' => x +:+ sep +:+ join sep l'
  end.

(** Truthiness of an optional string: [None] and [""] are falsy. *)
Definition truthy (o : option string) : bool :=
  match o with
  | Some (String _ _) => true
  | _ => false
  end.

(** [a or b] *)
Definition por (a b : option string) : option string :=
  if truthy a then a else b.

(** Truthiness of a string. *)
Definition nonempty (s : string) : bool :=
  match s with EmptyString => false | _ => true end.

(** [str(n)] and [f"{n}"] for an integer. *)
Definition str_of_int (n : Z) : string := pretty n.

End Py.

(* ===================================================================== *)
(** * A backtracking matcher for the patterns of the [re] module *)
(* ===================================================================== *)

Module Re.

(** The fragment of pattern syntax the source uses. *)
Inductive re : Type :=
| Chr (p : ascii -> bool)            (* one character of a class *)
| Cat (r1 r2 : re)                   (* r1 r2 *)
| Opt (r : re)                       (* r?   (greedy) *)
| Star (greedy : bool) (r : re)      (* r*  and  r*? *)
| Grp (n : nat) (r : re)             (* capturing group number n *)
| Eos.                               (* $ *)

Definition Lit (c : ascii) : re := Chr (Ascii.eqb c).

Fixpoint Str (s : string) : re :=
  match s with
  | EmptyString => Star true (Chr (fun _ => false))
  | String c EmptyString => Lit c
  | String c s' => Cat (Lit c) (Str s')
  end.

(** r+  and  r+? *)
Definition Plus (greedy : bool) (r : re) : re := Cat r (Star greedy r).

(** The class [.] (anything but a newline). *)
Definition dot (c : ascii) : bool := negb (Py.code c =? 10).

(** The double quote character. *)
Definition dquote : ascii := ascii_of_nat 34.

(** [\w-] inside a bracket class. *)
Definition word_or_dash (c : ascii) : bool :=
  Py.isword c || (Py.code c =? 45).

(** Anything but a double quote. *)
Definition not_quote (c : ascii) : bool := negb (Py.code c =? 34).

(** Captured groups, most recent first. *)
Definition groups : Type := list (nat * string).

Fixpoint group (g : groups) (n : nat) : option string :=
  match g with
  | [] => None
  | (m, s) :: g' => if m =? n then Some s else group g' n
  end.

(** [m.group(n) or ""] *)
Definition group_or_empty (g : groups) (n : nat) : string :=
  default EmptyString (Py.por (group g n) (Some EmptyString)).

Definition result : Type := option (string * groups).

(** [run r s g k] matches [r] at the start of [s] and hands the rest of
    the input to the continuation [k]; alternatives are tried in the
    order of a backtracking matcher, and the first success is returned.
    A turn of a starred pattern must consume a character, so the
    [S (length s)] turns allowed at a star are never used up. *)
Fixpoint run (r : re) (s : string) (g : groups)
         (k : string -> groups -> result) {struct r} : result :=
  match r with
  | Chr p =>
      match s with
      | String c s' => if p c then k s' g else None
      | EmptyString => None
      end
  | Cat r1 r2 => run r1 s g (fun s1 g1 => run r2 s1 g1 k)
  | Opt r1 =>
      match run r1 s g k with
      | Some x => Some x
      | None => k s g
      end
  | Star greedy r1 =>
      (fix iter (n : nat) (s : string) (g : groups) {struct n} : result :=
         match n with
         | O => k s g
         | S n' =>
             let again (_ : unit) :=
               run r1 s g (fun s1 g1 =>
                 if String.length s1 <? String.length s
                 then iter n' s1 g1 else None) in
             if greedy then
               match again tt with
               | Some x => Some x
               | None => k s g
               end
             else
               match k s g with
               | Some x => Some x
               | None => again tt
               end
         end) (S (String.length s)) s g
  | Grp n r1 =>
      run r1 s g (fun s1 g1 =>
        k s1 ((n, Py.str_take (String.length s - String.length s1) s) :: g1))
  | Eos =>
      match s with
      | EmptyString => k s g
      | String c EmptyString => if Py.code c =? 10 then k s g else None
      | _ => None
      end
  end.

(** [pattern.match(s)]: the groups and the unmatched rest. *)
Definition match_ (r : re) (s : string) : result :=
  run r s [] (fun s1 g1 => Some (s1, g1)).

(** [pattern.search(s)] *)
Fixpoint search (r : re) (s : string) : option groups :=
  match match_ r s with
  | Some (_, g) => Some g
  | None =>
      match s with
      | EmptyString => None
      | String _ s' => search r s'
      end
  end.

(** [pattern.finditer(s)]: the groups of the successive non-overlapping
    matches; [skip] counts the characters of the last match still to be
    passed over. *)
Fixpoint finditer_from (r : re) (skip : nat) (s : string) : list groups :=
  match skip with
  | S skip' =>
      match s with
      | EmptyString => []
      | String _ s' => finditer_from r skip' s'
      end
  | O =>
      match match_ r s with
      | Some (rest, g) =>
          g :: match s with
               | EmptyString => []
               | String _ s' =>
                   finditer_from r
                     (Nat.pred (String.length s - String.length rest)) s'
               end
      | None =>
          match s with
          | EmptyString => []
          | String _ s' => finditer_from r 0 s'
          end
      end
  end.

Definition finditer (r : re) (s : string) : list groups :=
  finditer_from r 0 s.

End Re.

(* ===================================================================== *)
(** * The channel core of [Backend/main/app.py] *)
(* ===================================================================== *)

Module Main.

Import Py Re.

(** ** The manifest parser *)

(** One parsed channel: the dict built by [parse_m3u_index]. *)
Record Item : Type := mkItem {
  item_id : option string;
  item_name : option string;
  item_tvg_name : option string;
  item_tvg_id : option string;
  item_tvg_logo : option string;
  item_group : option string;
  item_language : option string;
  item_country : option string;
  item_url : string
}.

(** [EXTINF_RE], piece by piece (the last group is a starred dot). *)
Definition EXTINF_RE : re :=
  Cat (Str "#EXTINF:")                             (* #EXTINF:      *)
 (Cat (Opt (Lit "-"%char))                         (* -?            *)
 (Cat (Plus true (Chr isdecimal))                  (* \d+           *)
 (Cat (Opt (Cat (Plus true (Chr isspace))          (* (?:\s+        *)
                (Grp 1 (Plus true (Chr dot)))))    (*    (.+))?     *)
 (Cat (Lit ","%char)                               (* ,             *)
 (Cat (Grp 2 (Star true (Chr dot)))                (* ( . * )       *)
      Eos))))).                                    (* $             *)

(** [ATTR_RE] of the main module: a lazy run of [\w-] characters, an
    equals sign, and a quoted value without quotes inside. *)
Definition ATTR_RE : re :=
  Cat (Grp 1 (Plus false (Chr word_or_dash)))      (* ([\w-]+?)     *)
 (Cat (Lit "="%char)                               (* =             *)
 (Cat (Lit dquote)                                 (* quote         *)
 (Cat (Grp 2 (Star true (Chr not_quote)))          (* ([^quote]* )  *)
      (Lit dquote)))).                             (* quote         *)

(** The loop over [ATTR_RE.finditer(raw_attrs)]: later keys overwrite. *)
Fixpoint collect_attrs (ms : list groups) (attrs : gmap string string)
  : gmap string string :=
  match ms with
  | [] => attrs
  | g :: ms' =>
      collect_attrs ms'
        (<[group_or_empty g 1 := group_or_empty g 2]> attrs)
  end.

(** What one [#EXTINF] line yields: [attrs] and [display_name]. *)
Definition extinf_fields (ln : string)
  : gmap string string * option string :=
  match match_ EXTINF_RE ln with
  | Some (_, g) =>
      let raw_attrs := group_or_empty g 1 in
      let display_name := strip (group_or_empty g 2) in
      (collect_attrs (finditer ATTR_RE raw_attrs) ∅, Some display_name)
  | None => (∅, None)
  end.

(** The dict literal appended to [items]. *)
Definition make_item (attrs : gmap string string)
           (last_name : option string) (url : string) : Item :=
  {| item_id := por (por (attrs !! "tvg-id") (attrs !! "id")) None;
     item_name := por (por (attrs !! "tvg-name") last_name) None;
     item_tvg_name := por (por (attrs !! "tvg-name") last_name) None;
     item_tvg_id := por (attrs !! "tvg-id") None;
     item_tvg_logo := por (attrs !! "tvg-logo") None;
     item_group := por (por (attrs !! "group-title") (attrs !! "group")) None;
     item_language :=
       por (por (attrs !! "tvg-language") (attrs !! "language")) None;
     item_country :=
       por (por (attrs !! "tvg-country") (attrs !! "country")) None;
     item_url := url |}.

(** A line the inner [while] passes over: empty, or starting with [#]. *)
Definition skipped (l : string) : bool :=
  String.eqb l EmptyString || startswith l "#".

Fixpoint skipped_run (ls : list string) : nat :=
  match ls with
  | l :: ls' => if skipped l then S (skipped_run ls') else 0
  | [] => 0
  end.

(** The inner [while j < len(lines) and ...: j += 1], started at [j]. *)
Definition next_candidate (lines : list string) (j : nat) : nat :=
  j + skipped_run (drop j lines).

(** The outer [while i < len(lines)] loop; every turn advances [i], so
    [length lines] turns are enough (see [parse_loop_fuel]). *)
Fixpoint parse_loop (fuel : nat) (lines : list string) (i : nat)
         (items : list Item) : list Item :=
  match fuel with
  | O => items
  | S fuel' =>
      match lines !! i with
      | None => items
      | Some ln =>
          if startswith ln "#EXTINF" then
            let '(attrs, display_name) := extinf_fields ln in
            let j := next_candidate lines (i + 1) in
            match lines !! j with
            | Some l =>
                let url := strip l in
                parse_loop fuel' lines (j + 1)
                  (items ++ [make_item attrs display_name url])
            | None => parse_loop fuel' lines (i + 1) items
            end
          else parse_loop fuel' lines (i + 1) items
      end
  end.

Definition stripped_lines (text : string) : list string :=
  map strip (splitlines text).

Definition parse_m3u_index (text : string) : list Item :=
  let lines := stripped_lines text in
  parse_loop (length lines) lines 0 [].

(* ------------------------------------------------------------------- *)
(** ** Exceptions and results *)

Inductive Exc : Type :=
| Error (msg : string)
| HTTPException (status_code : Z) (detail : string).

(** [str(e)] *)
Definition exc_str (e : Exc) : string :=
  match e with
  | Error msg => msg
  | HTTPException st detail => str_of_int st +:+ ": " +:+ detail
  end.

(** The outcome of a call that may raise. *)
Inductive Res (A : Type) : Type :=
| Ok (a : A)
| Raise (e : Exc).
Arguments Ok {A} a.
Arguments Raise {A} e.

(* ------------------------------------------------------------------- *)
(** ** The probe classifier *)

(** [CODECS=quote([^quote]+)quote] *)
Definition CODECS_RE : re :=
  Cat (Str "CODECS=")
 (Cat (Lit dquote)
 (Cat (Grp 1 (Plus true (Chr not_quote)))
      (Lit dquote))).

(** The codec entries one line contributes to [codecs_found]. *)
Definition line_codecs (line : string) : list string :=
  if startswith line "#EXT-X-STREAM-INF" then
    match search CODECS_RE line with
    | Some g => map (fun c => lower (strip c))
                    (split ","%char (group_or_empty g 1))
    | None => []
    end
  else [].

Definition codecs_found (s : string) : list string :=
  concat (map line_codecs (splitlines s)).

Definition ok_codec (c : string) : bool :=
  contains "avc" c || contains "h264" c || contains "mp4a" c
  || contains "aac" c.

Definition has_playlist_marker (s : string) : bool :=
  contains "#EXTM3U" s || contains "#EXTINF" s
  || contains "#EXT-X-STREAM-INF" s.

Definition mpegurl_content_type (ct : string) : bool :=
  contains "mpegurl" ct || contains "vnd.apple.mpegurl" ct
  || contains "application/vnd.apple.mpegurl" ct || endswith ct "m3u8".

Definition three_zero_bytes : string :=
  String zero (String zero (String zero EmptyString)).

Section Classifier.

(** [sample.decode(errors="ignore")]: UTF-8 decoding that drops what
    does not decode. *)
Variable decode_ignore : string -> string.

(** The branch taken when the decoded sample shows a playlist marker. *)
Definition playlist_verdict (s : string) : bool * option string :=
  let found := codecs_found s in
  match found with
  | _ :: _ =>
      match List.filter ok_codec found with
      | _ :: _ => (true, Some ("playlist with CODECS " +:+ join "," found))
      | [] =>
          (false,
           Some ("playlist with unrecognized CODECS " +:+ join "," found))
      end
  | [] => (true, Some "playlist markers present")
  end.

Definition content_type_fallback (ct : string) : bool * option string :=
  if contains "video" ct
  then (false, Some ("content-type video but not m3u8 (" +:+ ct +:+ ")"))
  else (false, None).

(** [headers !! "content-type"] is [headers.get("content-type")]. *)
Definition _detect_hls_from_headers_and_sample
           (headers : gmap string string) (sample : option string)
  : bool * option string :=
  let ct :=
    lower (default EmptyString
             (por (headers !! "content-type") (Some EmptyString))) in
  if mpegurl_content_type ct
  then (true, Some ("content-type indicates mpegurl (" +:+ ct +:+ ")"))
  else
    match sample with
    | Some b =>
        if nonempty b then
          let s := decode_ignore b in
          if has_playlist_marker s then playlist_verdict s
          else if startswith (str_take 12 b) three_zero_bytes
                  && contains "ftyp" (str_take 64 b)
          then (false,
                Some "sample indicates fMP4/MP4 fragment (no playlist)")
          else content_type_fallback ct
        else content_type_fallback ct
    | None => content_type_fallback ct
    end.

End Classifier.

(* ------------------------------------------------------------------- *)
(** ** The channel prober *)

(** What the HTTP client hands back: [r.status_code], [r.headers] and
    [r.content]. *)
Record Response : Type := mkResponse {
  status_code : Z;
  resp_headers : gmap string string;
  content : string
}.

(** The [httpx.AsyncClient] as seen from one probe: [client.head] and
    [client.get] with redirects followed; a transport failure raises. *)
Record Client : Type := mkClient {
  head : string -> Res Response;
  get : string -> Res Response
}.

(** The validation dict. *)
Record ValidationResult : Type := mkResult {
  working : bool;
  hls_compatible : bool;
  last_checked : option Z;
  check_error : option string
}.

Definition set_check_error (e : option string) (r : ValidationResult)
  : ValidationResult :=
  {| working := working r; hls_compatible := hls_compatible r;
     last_checked := last_checked r; check_error := e |}.

Definition set_last_checked (t : option Z) (r : ValidationResult)
  : ValidationResult :=
  {| working := working r; hls_compatible := hls_compatible r;
     last_checked := t; check_error := check_error r |}.

Definition set_working (b : bool) (r : ValidationResult)
  : ValidationResult :=
  {| working := b; hls_compatible := hls_compatible r;
     last_checked := last_checked r; check_error := check_error r |}.

Definition set_hls_compatible (b : bool) (r : ValidationResult)
  : ValidationResult :=
  {| working := working r; hls_compatible := b;
     last_checked := last_checked r; check_error := check_error r |}.

(** The second half of [_head_or_get]: GET and keep a small chunk. *)
Definition get_small_chunk (url : string) (client : Client)
  : Res (Z * gmap string string * option string) :=
  match get client url with
  | Ok r =>
      Ok (status_code r, resp_headers r,
          if nonempty (content r) then Some (str_take 4096 (content r))
          else None)
  | Raise _ => Ok (0%Z, ∅, None)
  end.

Definition _head_or_get (url : string) (client : Client)
  : Res (Z * gmap string string * option string) :=
  match head client url with
  | Ok r =>
      if (status_code r =? 200)%Z
      then Ok (status_code r, resp_headers r, None)
      else get_small_chunk url client
  | Raise _ => get_small_chunk url client
  end.

Section Prober.

Variable decode_ignore : string -> string.

(** [validate_channel_entry(entry, client, sem)]; [now] is what
    [datetime.utcnow()] reads once the exchange is over. *)
Definition validate_channel_entry (entry : Item) (client : Client)
           (now : Z) : ValidationResult :=
  let url := item_url entry in
  let result :=
    {| working := false; hls_compatible := false;
       last_checked := None; check_error := None |} in
  if negb (nonempty url) then set_check_error (Some "no url") result
  else
    match _head_or_get url client with
    | Raise e =>
        set_check_error (Some ("fetch error: " +:+ exc_str e)) result
    | Ok (status, headers, sample) =>
        let result := set_last_checked (Some now) result in
        if (status =? 0)%Z || (400 <=? status)%Z then
          set_working false
            (set_check_error
               (Some ("HTTP status " +:+ str_of_int status)) result)
        else
          let result :=
            set_working ((200 <=? status)%Z && (status <? 400)%Z)
                        result in
          let '(is_hls, reason) :=
            _detect_hls_from_headers_and_sample decode_ignore
              headers sample in
          let result := set_hls_compatible is_hls result in
          if truthy reason then
            if negb (truthy (check_error result))
            then set_check_error reason result
            else
              set_check_error
                (Some (default EmptyString (check_error result)
                       +:+ "; " +:+ default EmptyString reason))
                result
          else result
    end.

End Prober.

(* ------------------------------------------------------------------- *)
(** ** The caches and the validation job *)

(** [timedelta(minutes=30)], in microseconds. *)
Definition CHANNEL_CACHE_TTL : Z := 30 * 60 * 1000000.

Definition CHANNEL_VALIDATE_CONCURRENCY : nat := 10.

(** [_channels_cache] (its lock apart). *)
Record ChannelsCache : Type := mkCache {
  items : option (list Item);
  last_loaded : option Z;
  validated_map : gmap string ValidationResult
}.

(** [_validation_job] (its lock apart); [progress] is the exact quotient
    the float approximates. *)
Record ValidationJob : Type := mkJob {
  running : bool;
  started_at : option Z;
  finished_at : option Z;
  total : nat;
  validated : nat;
  errors : nat;
  progress : Q
}.

(** The module state, and how much of the outside world has been
    consumed: clock readings, downloads of the channel index, probes run;
    [background] lists the coroutines handed to [asyncio.create_task]. *)
Record World : Type := mkWorld {
  _channels_cache : ChannelsCache;
  _validation_job : ValidationJob;
  clock_reads : nat;
  fetches : nat;
  probes : nat;
  background : list bool
}.

(** The outside world: the successive clock readings, the outcome of each
    download of the channel index, and the outcome of each probe coroutine
    ([validate_channel_entry] run by [asyncio.gather] with
    [return_exceptions=True]). *)
Record Env : Type := mkEnv {
  utcnow_at : nat -> Z;
  fetch_index_at : nat -> Res string;
  probe_at : nat -> Item -> Res ValidationResult
}.

Definition M (A : Type) : Type := World -> A * World.

Definition ret {A : Type} (a : A) : M A := fun w => (a, w).

Definition bind {A B : Type} (c : M A) (k : A -> M B) : M B :=
  fun w => let '(a, w') := c w in k a w'.

Notation "x <- c ;; k" := (bind c (fun x => k))
  (at level 100, c at next level, right associativity).
Notation "c ;;; k" := (bind c (fun _ => k))
  (at level 100, right associativity).

Definition get_cache : M ChannelsCache := fun w => (_channels_cache w, w).

Definition get_job : M ValidationJob := fun w => (_validation_job w, w).

Definition put_cache (c : ChannelsCache) : M unit :=
  fun w => (tt, mkWorld c (_validation_job w) (clock_reads w) (fetches w)
                        (probes w) (background w)).

Definition put_job (j : ValidationJob) : M unit :=
  fun w => (tt, mkWorld (_channels_cache w) j (clock_reads w) (fetches w)
                        (probes w) (background w)).

(** [_channels_cache["validated_map"][url] = res] *)
Definition store_result (url : string) (res : ValidationResult) : M unit :=
  c <- get_cache ;;
  put_cache (mkCache (items c) (last_loaded c)
                     (<[url := res]> (validated_map c))).

(** [asyncio.create_task(validate_all_channels(force_refresh))] *)
Definition create_task (force_refresh : bool) : M unit :=
  fun w => (tt, mkWorld (_channels_cache w) (_validation_job w)
                        (clock_reads w) (fetches w) (probes w)
                        (background w ++ [force_refresh])).

(** The dict stored for a probe that raised. *)
Definition failed_result (t : Z) (e : Exc) : ValidationResult :=
  {| working := false; hls_compatible := false;
     last_checked := Some t; check_error := Some (exc_str e) |}.

(** [prev and "last_checked" in prev] followed by the age test; a
    [last_checked] that is [None] makes [fromisoformat] raise, which the
    source passes over. *)
Definition recently_validated (now : Z) (prev : option ValidationResult)
  : bool :=
  match prev with
  | Some r =>
      match last_checked r with
      | Some last => (now - last <? CHANNEL_CACHE_TTL)%Z
      | None => false
      end
  | None => false
  end.

(** The entries the first loop of [validate_channels_for_list] turns into
    tasks. *)
Definition to_probe (now : Z) (m : gmap string ValidationResult)
           (e : Item) : bool :=
  nonempty (item_url e) && negb (recently_validated now (m !! item_url e)).

(** [max(10, CHANNEL_VALIDATE_CONCURRENCY * 2)] *)
Definition chunk_size : nat := Nat.max 10 (CHANNEL_VALIDATE_CONCURRENCY * 2).

(** [(len(validated_map) / total) * 100.0] *)
Definition progress_of (map_size total : nat) : Q :=
  ((inject_Z (Z.of_nat map_size) / inject_Z (Z.of_nat total)) * 100)%Q.

(** [round(x, 2)], ties to even. *)
Definition round2 (x : Q) : Q :=
  let scaled := (x * 100)%Q in
  let fl := Qfloor scaled in
  let twice := Qfloor (scaled * 2)%Q in
  let n :=
    if (twice =? 2 * fl)%Z then
      (* fraction below one half, or none *)
      fl
    else if Qeq_bool (scaled * 2)%Q (inject_Z twice) then
      (* exactly one half *)
      if Z.even fl then fl else (fl + 1)%Z
    else (fl + 1)%Z in
  (inject_Z n / 100)%Q.

(** The body of [validate_status]. *)
Record Status : Type := mkStatus {
  st_running : bool;
  st_started_at : option Z;
  st_finished_at : option Z;
  st_total : nat;
  st_validated : nat;
  st_errors : nat;
  st_progress_percent : Q;
  st_validated_map_size : nat
}.

(** The body returned by [trigger_validate_all]. *)
Record Started : Type := mkStarted {
  started : bool;
  ack_started_at : Z
}.

Section Controller.

Variable E : Env.

(** [datetime.utcnow()] *)
Definition utcnow : M Z :=
  fun w => (utcnow_at E (clock_reads w),
            mkWorld (_channels_cache w) (_validation_job w)
                    (S (clock_reads w)) (fetches w) (probes w)
                    (background w)).

(** [_fetch_channel_index_text()]: one download; a transport failure or
    an error status raises. *)
Definition _fetch_channel_index_text : M (Res string) :=
  fun w => (fetch_index_at E (fetches w),
            mkWorld (_channels_cache w) (_validation_job w)
                    (clock_reads w) (S (fetches w)) (probes w)
                    (background w)).

(** [asyncio.gather( *tasks, return_exceptions=True)] over the probe
    coroutines of [entries]: one outcome per task, in task order. *)
Definition gather (entries : list Item)
  : M (list (Res ValidationResult)) :=
  fun w => (imap (fun i e => probe_at E (probes w + i) e) entries,
            mkWorld (_channels_cache w) (_validation_job w)
                    (clock_reads w) (fetches w)
                    (probes w + length entries) (background w)).

(** The cached list, when the guard of [_load_channels] lets it through:
    a non-empty list, a load time, no [force], and an age below the
    freshness window.  The clock is read only when [force] is off. *)
Definition cached_items (force : bool) : M (option (list Item)) :=
  c <- get_cache ;;
  match items c, last_loaded c with
  | Some ((_ :: _) as l), Some loaded =>
      if negb force then
        now <- utcnow ;;
        ret (if (now - loaded <? CHANNEL_CACHE_TTL)%Z then Some l
             else None)
      else ret None
  | _, _ => ret None
  end.

Definition _load_channels (force : bool) : M (Res (list Item)) :=
  hit <- cached_items force ;;
  match hit with
  | Some l => ret (Ok l)
  | None =>
      fetched <- _fetch_channel_index_text ;;
      match fetched with
      | Raise e => ret (Raise e)
      | Ok text =>
          let parsed := parse_m3u_index text in
          c <- get_cache ;;
          put_cache (mkCache (Some parsed) (last_loaded c)
                             (validated_map c)) ;;;
          now <- utcnow ;;
          c <- get_cache ;;
          put_cache (mkCache (items c) (Some now) (validated_map c)) ;;;
          ret (Ok parsed)
      end
  end.

(** What is stored for one gathered outcome. *)
Definition as_result (candidate : Res ValidationResult)
  : M ValidationResult :=
  match candidate with
  | Raise e => now <- utcnow ;; ret (failed_result now e)
  | Ok r => ret r
  end.

(** The second loop of [validate_channels_for_list]: walk [entries]
    again and hand out [results[idx]] to every entry with a URL. *)
Fixpoint attach_results (entries : list Item)
         (results : list (Res ValidationResult)) (idx : nat) : M unit :=
  match entries with
  | [] => ret tt
  | e :: rest =>
      if negb (nonempty (item_url e)) then attach_results rest results idx
      else
        match results !! idx with
        | Some candidate =>
            res <- as_result candidate ;;
            store_result (item_url e) res ;;;
            attach_results rest results (idx + 1)
        | None => attach_results rest results idx
        end
  end.

Definition validate_channels_for_list (entries : list Item) : M unit :=
  now <- utcnow ;;
  c <- get_cache ;;
  let tasks := List.filter (to_probe now (validated_map c)) entries in
  match tasks with
  | [] => ret tt
  | _ :: _ =>
      results <- gather tasks ;;
      attach_results entries results 0
  end.

Definition bump_errors : M unit :=
  j <- get_job ;;
  put_job (mkJob (running j) (started_at j) (finished_at j) (total j)
                 (validated j) (errors j + 1) (progress j)).

Definition bump_validated : M unit :=
  j <- get_job ;;
  put_job (mkJob (running j) (started_at j) (finished_at j) (total j)
                 (validated j + 1) (errors j) (progress j)).

Definition update_progress : M unit :=
  j <- get_job ;;
  c <- get_cache ;;
  put_job (mkJob (running j) (started_at j) (finished_at j) (total j)
                 (validated j) (errors j)
                 (progress_of (size (validated_map c)) (total j))).

(** The body of [for i, res in enumerate(results)], for the entry [ent]
    of [slice_items] at [i]. *)
Definition record_one (ent : Item) (res : Res ValidationResult) : M unit :=
  let url := item_url ent in
  match res with
  | Raise e =>
      now <- utcnow ;;
      store_result url (failed_result now e) ;;;
      bump_errors
  | Ok r =>
      store_result url r ;;;
      if working r then bump_validated else ret tt
  end ;;;
  update_progress.

(** [for i, res in enumerate(results)] over one chunk.  [slice_items]
    always has an entry at [i] (a chunk is never longer than its slice of
    [items], see [chunk_within_slice]), so the [None] case stands for a
    branch that is never taken. *)
Fixpoint record_results (slice_items : list Item)
         (results : list (Res ValidationResult)) (i : nat) : M unit :=
  match results with
  | [] => ret tt
  | res :: more =>
      match slice_items !! i with
      | Some ent =>
          record_one ent res ;;;
          record_results slice_items more (i + 1)
      | None => record_results slice_items more (i + 1)
      end
  end.

(** [while idx < total] over the chunks; every turn advances [idx] by
    [chunk_size], so [length tasks] turns are enough. *)
Fixpoint chunk_loop (fuel : nat) (its tasks : list Item) (idx : nat)
  : M unit :=
  match fuel with
  | O => ret tt
  | S fuel' =>
      if idx <? length tasks then
        let chunk := take chunk_size (drop idx tasks) in
        results <- gather chunk ;;
        let slice_items := take chunk_size (drop idx its) in
        record_results slice_items results 0 ;;;
        chunk_loop fuel' its tasks (idx + chunk_size)
      else ret tt
  end.

(** The [try] block of [validate_all_channels]. *)
Definition validate_all_body (force_refresh : bool) : M (Res unit) :=
  loaded <- _load_channels force_refresh ;;
  match loaded with
  | Raise e => ret (Raise e)
  | Ok its =>
      let urls :=
        map item_url (List.filter (fun it => nonempty (item_url it)) its) in
      j <- get_job ;;
      put_job (mkJob (running j) (started_at j) (finished_at j)
                     (length urls) (validated j) (errors j)
                     (progress j)) ;;;
      if length urls =? 0 then ret (Ok tt)
      else
        let tasks := List.filter (fun it => nonempty (item_url it)) its in
        chunk_loop (length tasks) its tasks 0 ;;;
        ret (Ok tt)
  end.

(** The assignments made under the job lock once no job is running. *)
Definition start_job : M unit :=
  now <- utcnow ;;
  put_job (mkJob true (Some now) None 0 0 0 0%Q).

(** The [finally] block of [validate_all_channels]. *)
Definition finish_job : M unit :=
  j <- get_job ;;
  now <- utcnow ;;
  put_job (mkJob false (started_at j) (Some now) (total j)
                 (validated j) (errors j) (progress j)).

Definition validate_all_channels (force_refresh : bool) : M (Res unit) :=
  j <- get_job ;;
  if running j then ret (Ok tt)
  else
    start_job ;;;
    outcome <- validate_all_body force_refresh ;;
    finish_job ;;;
    ret outcome.

Definition trigger_validate_all (force_refresh : bool)
  : M (Res Started) :=
  j <- get_job ;;
  if running j
  then ret (Raise (HTTPException 409 "validation already running"))
  else
    create_task force_refresh ;;;
    now <- utcnow ;;
    ret (Ok (mkStarted true now)).

Definition validate_status : M Status :=
  j <- get_job ;;
  c <- get_cache ;;
  ret (mkStatus (running j) (started_at j) (finished_at j) (total j)
                (validated j) (errors j) (round2 (progress j))
                (size (validated_map c))).

End Controller.

(** The URLs that have an entry in the validation cache. *)
Definition known_urls (w : World) : gset string :=
  dom (validated_map (_channels_cache w)).

(** [c] removes no entry of the validation cache. *)
Definition keeps_urls {A : Type} (c : M A) : Prop :=
  forall w : World, known_urls w ⊆ known_urls (c w).2.

(** [c] leaves the channel cache, validation results included, as it is. *)
Definition cache_untouched {A : Type} (c : M A) : Prop :=
  forall w : World, _channels_cache (c w).2 = _channels_cache w.

(** The progress figure is the one computed from the present size of the
    validation cache and the present total. *)
Definition progress_synced (w : World) : Prop :=
  progress (_validation_job w)
  = progress_of (size (validated_map (_channels_cache w)))
                (total (_validation_job w)).

End Main.

(* ===================================================================== *)
(** * The older manifest parser of [Backend/app.py] *)
(* ===================================================================== *)

Module Legacy.

Import Py Re.

(** One yielded channel. *)
Record Channel : Type := mkChannel {
  name : string;
  logo : option string;
  url : string;
  tvg_language : option string;
  tvg_country : option string;
  group_title : option string
}.

(** [ATTR_RE] of the older module: a word character, then [\w-]
    characters, an equals sign, and a lazily matched quoted value. *)
Definition ATTR_RE : re :=
  Cat (Grp 1 (Cat (Chr isword) (Star true (Chr word_or_dash))))
 (Cat (Lit "="%char)
 (Cat (Lit dquote)
 (Cat (Grp 2 (Star false (Chr dot)))
      (Lit dquote)))).

(** [{k.lower(): v for k, v in ATTR_RE.findall(ln)}] *)
Fixpoint lowered_attrs (ms : list groups) (attrs : gmap string string)
  : gmap string string :=
  match ms with
  | [] => attrs
  | g :: ms' =>
      lowered_attrs ms'
        (<[lower (group_or_empty g 1) := group_or_empty g 2]> attrs)
  end.

Definition line_attrs (ln : string) : gmap string string :=
  lowered_attrs (finditer ATTR_RE ln) ∅.

(** The name an [#EXTINF:] line sets; [after_first] finds a rest exactly
    when the line has a comma, and the rest is [ln.split(",", 1)[1]]. *)
Definition line_name (ln : string) : option string :=
  let attrs := line_attrs ln in
  match after_first ","%char ln with
  | Some rest => Some (strip rest)
  | None =>
      por (por (attrs !! "tvg-name") (attrs !! "tvg-id")) (Some "Unknown")
  end.

(** The loop variables [attrs], [name] and [logo]. *)
Record State : Type := mkState {
  st_attrs : gmap string string;
  st_name : option string;
  st_logo : option string
}.

Definition initial : State := mkState ∅ None None.

Definition on_extinf (ln : string) : State :=
  mkState (line_attrs ln) (line_name ln) (line_attrs ln !! "tvg-logo").

Definition emit (st : State) (ln : string) : Channel :=
  {| name := default EmptyString (por (st_name st) (Some "Unknown"));
     logo := st_logo st;
     url := ln;
     tvg_language := st_attrs st !! "tvg-language";
     tvg_country := st_attrs st !! "tvg-country";
     group_title := st_attrs st !! "group-title" |}.

(** The [for ln in lines] loop; the yielded dicts in order. *)
Fixpoint scan (lines : list string) (st : State) : list Channel :=
  match lines with
  | [] => []
  | ln :: rest =>
      if startswith ln "#EXTINF:" then scan rest (on_extinf ln)
      else if startswith ln "http" then emit st ln :: scan rest initial
      else scan rest st
  end.

Definition kept_lines (text : string) : list string :=
  List.filter nonempty (map strip (splitlines text)).

Definition parse_m3u (text : string) : list Channel :=
  scan (kept_lines text) initial.

End Legacy.

(* ===================================================================== *)
(** * The documented behaviour, in the words of the specification *)
(* ===================================================================== *)

Module Spec.

Import Py.

(** The first candidate that is a non-empty string, if any. *)
Fixpoint first_nonempty (candidates : list (option string))
  : option string :=
  match candidates with
  | [] => None
  | Some (String c s) :: _ => Some (String c s)
  | _ :: rest => first_nonempty rest
  end.

(** The documented precedence chain for the display name: the friendly
    name attribute, then the trailing free text, then the identifier, then
    the literal fallback. *)
Definition display_name_chain (tvg_name free_text tvg_id : option string)
  : string :=
  default "Unknown" (first_nonempty [tvg_name; free_text; tvg_id]).

(** The documented final status of a probe: the status of the header-only
    retrieval when it succeeds with 200, the status of the content
    retrieval otherwise, and none when that retrieval fails in
    transport. *)
Definition final_status (client : Main.Client) (url : string) : option Z :=
  let by_get :=
    match Main.get client url with
    | Main.Ok r => Some (Main.status_code r)
    | Main.Raise _ => None
    end in
  match Main.head client url with
  | Main.Ok r =>
      if (Main.status_code r =? 200)%Z then Some 200%Z else by_get
  | Main.Raise _ => by_get
  end.

End Spec.

(* ===================================================================== *)
(** * Concrete manifests, exchanges and worlds used below *)
(* ===================================================================== *)

Module Samples.

Import Py Re Main.

Definition nl : string := String (ascii_of_nat 10) EmptyString.

Definition quote : string := String dquote EmptyString.

(** key="value" *)
Definition attr (k v : string) : string :=
  k +:+ "=" +:+ quote +:+ v +:+ quote.

(** Two metadata lines in a row, then one URL line:
<<
#EXTINF:-1 tvg-id="a",Alpha
#EXTINF:-1 tvg-id="b",Beta
http://b/stream.m3u8
>> *)
Definition orphan_manifest : string :=
  "#EXTINF:-1 " +:+ attr "tvg-id" "a" +:+ ",Alpha" +:+ nl +:+
  "#EXTINF:-1 " +:+ attr "tvg-id" "b" +:+ ",Beta" +:+ nl +:+
  "http://b/stream.m3u8".

(** A metadata line at the very end:
<<
#EXTINF:-1 tvg-id="b",Beta
http://b/stream.m3u8
#EXTINF:-1 tvg-id="z",Omega
>> *)
Definition trailing_manifest : string :=
  "#EXTINF:-1 " +:+ attr "tvg-id" "b" +:+ ",Beta" +:+ nl +:+
  "http://b/stream.m3u8" +:+ nl +:+
  "#EXTINF:-1 " +:+ attr "tvg-id" "z" +:+ ",Omega".

(** One channel block whose attribute keys are written as [k1], [k2]. *)
Definition keyed_manifest (k1 k2 : string) : string :=
  "#EXTINF:-1 " +:+ attr k1 "x" +:+ " " +:+ attr k2 "y" +:+ ",News" +:+ nl
  +:+ "http://u/live".

(** An identifier, an empty free-text name, no friendly name:
<<
#EXTINF:-1 tvg-id="x",
http://u/live
>> *)
Definition nameless_manifest : string :=
  "#EXTINF:-1 " +:+ attr "tvg-id" "x" +:+ "," +:+ nl +:+ "http://u/live".

(** A friendly name and a free-text name:
<<
#EXTINF:-1 tvg-name="Friendly",Free
http://u/live
>> *)
Definition friendly_manifest : string :=
  "#EXTINF:-1 " +:+ attr "tvg-name" "Friendly" +:+ ",Free" +:+ nl
  +:+ "http://u/live".

Definition plain_item (name url : string) : Item :=
  mkItem None (Some name) (Some name) None None None None None url.

Definition nameless_line : string :=
  "#EXTINF:-1 " +:+ attr "tvg-id" "x" +:+ ",".

(** [sample.decode(errors="ignore")] on a sample of ASCII bytes, which
    decoding leaves as they are; bytes from 128 up are left out. *)
Fixpoint decode_ascii (b : string) : string :=
  match b with
  | EmptyString => EmptyString
  | String c b' =>
      if code c <? 128 then String c (decode_ascii b') else decode_ascii b'
  end.

(** A master playlist whose only variant names unknown codecs:
<<
#EXTM3U
#EXT-X-STREAM-INF:BANDWIDTH=1280000,CODECS="HEVC, Opus"
video.m3u8
>> *)
Definition hevc_playlist : string :=
  "#EXTM3U" +:+ nl +:+
  "#EXT-X-STREAM-INF:BANDWIDTH=1280000," +:+ attr "CODECS" "HEVC, Opus"
  +:+ nl +:+ "video.m3u8" +:+ nl.

(** A master playlist with one variant of unknown codecs and one of known
    codecs:
<<
#EXTM3U
#EXT-X-STREAM-INF:BANDWIDTH=1280000,CODECS="HEVC, Opus"
video.m3u8
#EXT-X-STREAM-INF:BANDWIDTH=640000,CODECS="avc1.42E01E,mp4a.40.2"
low.m3u8
>> *)
Definition mixed_playlist : string :=
  hevc_playlist +:+
  "#EXT-X-STREAM-INF:BANDWIDTH=640000," +:+
  attr "CODECS" "avc1.42E01E,mp4a.40.2" +:+ nl +:+ "low.m3u8" +:+ nl.

Definition mpegurl_headers : gmap string string :=
  {[ "content-type" := "application/vnd.apple.mpegurl" ]}.

Definition octet_headers : gmap string string :=
  {[ "content-type" := "application/octet-stream" ]}.

(** A server nobody answers for: both requests fail in transport. *)
Definition unreachable : Client :=
  mkClient (fun _ => Raise (Error "connection refused"))
           (fun _ => Raise (Error "connection refused")).

(** A server that refuses HEAD and answers GET with [status] and the
    playlist above. *)
Definition answering (status : Z) : Client :=
  mkClient (fun _ => Ok (mkResponse 405 ∅ EmptyString))
           (fun _ => Ok (mkResponse status octet_headers hevc_playlist)).

(** An outside world where the clock reads 1000 and then moves on by one
    at each reading, every download of the index gives [manifest n] for
    the [n]-th download, and every probe succeeds with a result that names
    the probed URL. *)
Definition probed (e : Item) : ValidationResult :=
  mkResult true true (Some 1000%Z) (Some ("probed " +:+ item_url e)).

Definition world_of (manifest : nat -> string) : Env :=
  mkEnv (fun n => (1000 + Z.of_nat n)%Z)
        (fun n => Ok (manifest n))
        (fun _ e => Ok (probed e)).

(** The same clock and probes, with an index server that answers every
    download with an error status. *)
Definition index_down : Env :=
  mkEnv (fun n => (1000 + Z.of_nat n)%Z)
        (fun _ => Raise (Error "503 Service Unavailable"))
        (fun _ e => Ok (probed e)).

Definition idle_job : ValidationJob := mkJob false None None 0 0 0 0%Q.

Definition running_job : ValidationJob :=
  mkJob true (Some 500%Z) None 40 12 1 (progress_of 20 40).

Definition alpha : Item := plain_item "Alpha" "http://a/live".

Definition beta : Item := plain_item "Beta" "http://b/live".

(** A result for Alpha that was checked 100 microseconds before 1000. *)
Definition alpha_checked : ValidationResult :=
  mkResult true false (Some 900%Z) None.

(** Alpha was validated a moment ago; Beta never was. *)
Definition alpha_fresh : World :=
  mkWorld (mkCache None None {[ "http://a/live" := alpha_checked ]})
          idle_job 0 0 0 [].

Definition nothing_validated : World :=
  mkWorld (mkCache None None ∅) idle_job 0 0 0 [].

(** The last load, a moment ago, found no channel at all. *)
Definition empty_snapshot : World :=
  mkWorld (mkCache (Some []) (Some 900%Z) ∅) idle_job 0 0 0 [].

(** The last load, a moment ago, found Alpha and Beta. *)
Definition loaded_snapshot : World :=
  mkWorld (mkCache (Some [alpha; beta]) (Some 900%Z) ∅) idle_job 0 0 0 [].

(** A bulk job is under way. *)
Definition job_under_way : World :=
  mkWorld (mkCache (Some [alpha; beta]) (Some 900%Z)
                   {[ "http://a/live" := alpha_checked ]})
          running_job 3 1 20 [].

(** One block per manifest:
<<
#EXTINF:-1,Alpha            #EXTINF:-1,Gamma
http://a/live               http://c/live
#EXTINF:-1,Beta
http://b/live
>> *)
Definition two_channels : string :=
  "#EXTINF:-1,Alpha" +:+ nl +:+ "http://a/live" +:+ nl +:+
  "#EXTINF:-1,Beta" +:+ nl +:+ "http://b/live" +:+ nl.

Definition one_channel : string :=
  "#EXTINF:-1,Gamma" +:+ nl +:+ "http://c/live" +:+ nl.

(** The index lists Alpha and Beta at first, and only Gamma from the
    second download on. *)
Definition changing_index (n : nat) : string :=
  match n with
  | O => two_channels
  | S _ => one_channel
  end.

End Samples.

(* ===================================================================== *)
(** * The behaviour as built, where it differs from the documented one *)
(* ===================================================================== *)

Module AsBuilt.

Import Py.

(** The name [parse_m3u_index] gives a channel whose metadata line is
    [ln]: the friendly-name attribute, else the free text the line pattern
    captures after its separating comma, else nothing. *)
Definition main_display_name (ln : string) : option string :=
  Spec.first_nonempty
    [(Main.extinf_fields ln).1 !! "tvg-name"; (Main.extinf_fields ln).2].

(** The name [parse_m3u] gives a channel whose metadata line is [ln]: the
    text after the first comma whenever the line has a comma; only a line
    without a comma falls back to the friendly name and the identifier. *)
Definition legacy_display_name (ln : string) : string :=
  match after_first ","%char ln with
  | Some rest => default "Unknown" (Spec.first_nonempty [Some (strip rest)])
  | None =>
      default "Unknown"
        (Spec.first_nonempty
           [Legacy.line_attrs ln !! "tvg-name";
            Legacy.line_attrs ln !! "tvg-id"])
  end.

(** Some line of the decoded sample contributes codec entries: a line
    starting with [#EXT-X-STREAM-INF] that carries a quoted [CODECS]
    list. *)
Definition carries_codecs (s : string) : bool :=
  existsb (fun line =>
             match Main.line_codecs line with [] => false | _ => true end)
          (splitlines s).

(** No codec entry of any line of the decoded sample names a known
    family. *)
Definition no_known_codec (s : string) : bool :=
  forallb (fun line =>
             forallb (fun c => negb (Main.ok_codec c))
                     (Main.line_codecs line))
          (splitlines s).

(** The lower-cased content type the classifier looks at. *)
Definition content_type (headers : gmap string string) : string :=
  lower (default EmptyString
           (por (headers !! "content-type") (Some EmptyString))).

End AsBuilt.

(* ===================================================================== *)
(** * More Python string primitives *)
(* ===================================================================== *)

Module PyMore.

Import Py.

(** [re.sub(pattern, "", s)] for a pattern that is one negated character
    class (repeated or not): the characters of the class [keep] stay. *)
Fixpoint keep_chars (keep : ascii -> bool) (s : string) : string :=
  match s with
  | EmptyString => EmptyString
  | String c s' =>
      if keep c then String c (keep_chars keep s') else keep_chars keep s'
  end.

(** The class [a-z]. *)
Definition is_az (c : ascii) : bool := between 97 122 c.

(** The class [A-Za-z ] (with the space). *)
Definition is_letter_or_blank (c : ascii) : bool :=
  between 65 90 c || between 97 122 c || (code c =? 32).

Fixpoint all_chars (p : ascii -> bool) (s : string) : bool :=
  match s with
  | EmptyString => true
  | String c s' => p c && all_chars p s'
  end.

(** [s.isalpha()] *)
Definition str_isalpha (s : string) : bool := nonempty s && all_chars isalpha s.

(** [s.split(sep, 1)[0]] *)
Fixpoint before_first (sep : ascii) (s : string) : string :=
  match s with
  | EmptyString => EmptyString
  | String c rest =>
      if Ascii.eqb c sep then EmptyString
      else String c (before_first sep rest)
  end.

(** The first word of [s.split()], if there is one. *)
Fixpoint first_word_from (s : string) : string :=
  match s with
  | EmptyString => EmptyString
  | String c rest =>
      if isspace c then EmptyString else String c (first_word_from rest)
  end.

Definition first_word (s : string) : option string :=
  match lstrip s with
  | EmptyString => None
  | w => Some (first_word_from w)
  end.

(** [x in l] for a list of strings. *)
Definition in_list (x : string) (l : list string) : bool :=
  existsb (String.eqb x) l.

(** [(o or "")] *)
Definition or_empty (o : option string) : string :=
  default EmptyString (por o (Some EmptyString)).

End PyMore.

(* ===================================================================== *)
(** * The listing endpoints of [Backend/main/app.py] *)
(* ===================================================================== *)

Module Endpoints.

Import Py PyMore Re Main.

(** The entries of the taxonomy files: every key may be missing. *)
Record Language : Type := mkLanguage {
  lang_name : option string;
  lang_channels : option Z;
  lang_playlist_url : option string;
  lang_code : option string
}.

Record City : Type := mkCity {
  city_name : option string;
  city_playlist_url : option string;
  city_code : option string
}.

Record Subdivision : Type := mkSubdivision {
  sub_name : option string;
  sub_playlist_url : option string;
  sub_code : option string;
  sub_cities : list City
}.

Record Country : Type := mkCountry {
  country_name : option string;
  country_playlist_url : option string;
  country_code : option string;
  subdivisions : list Subdivision;
  cities : list City
}.

(** What a listing request reads besides the module state: the lists
    [_read_or_fetch_languages()] and [_read_or_fetch_countries()] return,
    and what [_fetch_text(url)] answers. *)
Record Catalog : Type := mkCatalog {
  cat_languages : list Language;
  cat_countries : list Country;
  fetch_text_of : string -> Res string
}.

Inductive Kind : Type := language | country | subdivision | city.

(** The dict returned by [_resolve_playlist_for_query]. *)
Record Playlist : Type := mkPlaylist {
  pl_type : Kind;
  pl_code : string;
  pl_url : option string
}.

(** [ql == code or ql == name], both lower-cased. *)
Definition names (ql : string) (code name : option string) : bool :=
  String.eqb ql (lower (or_empty code))
  || String.eqb ql (lower (or_empty name)).

Fixpoint find_language (ql : string) (langs : list Language)
  : option Playlist :=
  match langs with
  | [] => None
  | it :: rest =>
      if names ql (lang_code it) (lang_name it)
      then Some (mkPlaylist language (lower (or_empty (lang_code it)))
                            (lang_playlist_url it))
      else find_language ql rest
  end.

Fixpoint find_subdivision (ql : string) (subs : list Subdivision)
  : option Playlist :=
  match subs with
  | [] => None
  | s :: rest =>
      if names ql (sub_code s) (sub_name s)
      then Some (mkPlaylist subdivision (lower (or_empty (sub_code s)))
                            (sub_playlist_url s))
      else find_subdivision ql rest
  end.

Fixpoint find_city (ql : string) (cs : list City) : option Playlist :=
  match cs with
  | [] => None
  | c :: rest =>
      if names ql (city_code c) (city_name c)
      then Some (mkPlaylist city (lower (or_empty (city_code c)))
                            (city_playlist_url c))
      else find_city ql rest
  end.

(** The loop over [countries]: the country itself, then its subdivisions,
    then its own cities. *)
Fixpoint find_country (ql : string) (countries : list Country)
  : option Playlist :=
  match countries with
  | [] => None
  | c :: rest =>
      if names ql (country_code c) (country_name c)
      then Some (mkPlaylist country (lower (or_empty (country_code c)))
                            (country_playlist_url c))
      else
        match find_subdivision ql (subdivisions c) with
        | Some p => Some p
        | None =>
            match find_city ql (cities c) with
            | Some p => Some p
            | None => find_country ql rest
            end
        end
  end.

Definition _resolve_playlist_for_query (cat : Catalog) (q : option string)
  : option Playlist :=
  if negb (truthy q) then None
  else
    let ql := lower (strip (or_empty q)) in
    match find_language ql (cat_languages cat) with
    | Some p => Some p
    | None => find_country ql (cat_countries cat)
    end.

(** The pydantic model [Channel]. *)
Record Channel : Type := mkChannel {
  ch_id : option string;
  ch_name : option string;
  ch_tvg_id : option string;
  ch_tvg_name : option string;
  ch_tvg_logo : option string;
  ch_group : option string;
  ch_language : option string;
  ch_country : option string;
  ch_url : option string;
  ch_working : option bool;
  ch_hls_compatible : option bool;
  ch_last_checked : option Z;
  ch_check_error : option string
}.

(** [Channel(...)] for one item, with the validation info of the cache. *)
Definition to_channel (m : gmap string ValidationResult) (it : Item)
  : Channel :=
  let url := item_url it in
  let vald := if nonempty url then m !! url else None in
  {| ch_id := item_id it;
     ch_name := item_name it;
     ch_tvg_id := item_tvg_id it;
     ch_tvg_name := item_tvg_name it;
     ch_tvg_logo := item_tvg_logo it;
     ch_group := item_group it;
     ch_language := item_language it;
     ch_country := item_country it;
     ch_url := Some url;
     ch_working := working <$> vald;
     ch_hls_compatible := hls_compatible <$> vald;
     ch_last_checked := vald ≫= last_checked;
     ch_check_error := vald ≫= check_error |}.

Definition set_language (v : option string) (it : Item) : Item :=
  mkItem (item_id it) (item_name it) (item_tvg_name it) (item_tvg_id it)
         (item_tvg_logo it) (item_group it) v (item_country it) (item_url it).

Definition set_country (v : option string) (it : Item) : Item :=
  mkItem (item_id it) (item_name it) (item_tvg_name it) (item_tvg_id it)
         (item_tvg_logo it) (item_group it) (item_language it) v
         (item_url it).

(** The country prefix derived from a playlist code such as [in-ka]. *)
Definition country_prefix (code : string) : string :=
  let cc := if contains "-" code then before_first "-"%char code
            else str_take 2 code in
  keep_chars is_az (lower cc).

(** The annotation of the items of a resolved playlist. *)
Definition annotate (special : Playlist) (its : list Item) : list Item :=
  let code := lower (pl_code special) in
  match pl_type special with
  | language =>
      map (fun it => set_language (por (item_language it) (Some code)) it) its
  | _ =>
      let cc := country_prefix code in
      map (fun it => set_country (por (item_country it) (Some cc)) it) its
  end.

(** One disjunct of the text search. *)
Definition field_has (ql : string) (field : option string) : bool :=
  truthy field && contains ql (lower (or_empty field)).

Definition matches_query (ql : string) (it : Item) : bool :=
  field_has ql (item_name it) || field_has ql (item_group it)
  || field_has ql (item_country it) || field_has ql (item_language it).

(** [items[start:end]] for [page >= 1] (the bound [Query(1, ge=1)]
    enforces). *)
Definition page_of (its : list Item) (page limit : nat) : list Item :=
  take limit (drop ((page - 1) * limit) its).

(** [c.working] as a condition. *)
Definition is_working (c : Channel) : bool :=
  match ch_working c with
  | Some true => true
  | _ => false
  end.

(** The URLs of [out] that have no entry in the validation cache. *)
Definition lacks_validation (m : gmap string ValidationResult)
           (c : Channel) : option string :=
  match ch_url c with
  | Some u =>
      if nonempty u then
        match m !! u with
        | None => Some u
        | Some _ => None
        end
      else None
  | None => None
  end.

Definition missing_validation_urls
           (m : gmap string ValidationResult) (out : list Channel)
  : list string :=
  omap (lacks_validation m) out.

(** The body of [channels_summary]. *)
Record Summary : Type := mkSummary {
  parsed_count : nat;
  validated_count : nat;
  working_count : nat;
  summary_last_loaded : option Z
}.

(** One entry of the sample of [debug_sample]. *)
Record SampleEntry : Type := mkSampleEntry {
  se_name : option string;
  se_tvg_logo : option string;
  se_url : string;
  se_language : option string;
  se_country : option string;
  se_group : option string
}.

(** The body of [debug_sample]. *)
Record DebugSample : Type := mkDebugSample {
  ds_total : nat;
  ds_sample_count : nat;
  ds_nonnull_language : nat;
  ds_nonnull_country : nat;
  ds_sample : list SampleEntry
}.

Definition sample_entry (it : Item) : SampleEntry :=
  mkSampleEntry (item_name it) (item_tvg_logo it) (item_url it)
                (item_language it) (item_country it) (item_group it).

(** [(it.get(field) or "").strip()] as a condition. *)
Definition has_text (field : option string) : bool :=
  nonempty (strip (or_empty field)).

(** [validated_map.values()] *)
Definition cached_results (m : gmap string ValidationResult)
  : list ValidationResult :=
  map snd (map_to_list m).

Section Listing.

Variable E : Env.
Variable cat : Catalog.

(** The first half of [list_channels] and of [channels_count]: the items of
    the playlist [q] resolves to, or the channel index narrowed by the text
    search. *)
Definition select_items (q : option string) (refresh : bool)
  : M (Res (list Item)) :=
  let special :=
    if truthy q then _resolve_playlist_for_query cat q else None in
  let from_index : M (Res (list Item)) :=
    loaded <- _load_channels E refresh ;;
    match loaded with
    | Raise e => ret (Raise e)
    | Ok its =>
        ret (Ok (if truthy q
                 then List.filter (matches_query (lower (or_empty q))) its
                 else its))
    end in
  match special with
  | Some sp =>
      if truthy (pl_url sp) then
        match fetch_text_of cat (or_empty (pl_url sp)) with
        | Raise e => ret (Raise e)
        | Ok text => ret (Ok (annotate sp (parse_m3u_index text)))
        end
      else from_index
  | None => from_index
  end.

(** The part of [list_channels] run when [working_only] is set. *)
Definition only_working (page_items : list Item) (out : list Channel)
  : M (list Channel) :=
  c <- get_cache ;;
  let missing := missing_validation_urls (validated_map c) out in
  out' <-
    match missing with
    | [] => ret out
    | _ :: _ =>
        let to_validate :=
          List.filter (fun it => in_list (item_url it) missing) page_items in
        validate_channels_for_list E to_validate ;;;
        c <- get_cache ;;
        ret (map (to_channel (validated_map c)) page_items)
    end ;;
  ret (List.filter is_working out').

Definition list_channels (page limit : nat) (q : option string)
           (refresh validate working_only : bool)
  : M (Res (list Channel)) :=
  selected <- select_items q refresh ;;
  match selected with
  | Raise e => ret (Raise e)
  | Ok its =>
      let page_items := page_of its page limit in
      (if validate then validate_channels_for_list E page_items
       else ret tt) ;;;
      c <- get_cache ;;
      let out := map (to_channel (validated_map c)) page_items in
      if working_only then
        out' <- only_working page_items out ;;
        ret (Ok out')
      else ret (Ok out)
  end.

(** [channels_count]: the [total] of the response. *)
Definition channels_count (q : option string) : M (Res nat) :=
  let special :=
    if truthy q then _resolve_playlist_for_query cat q else None in
  let from_index : M (Res nat) :=
    loaded <- _load_channels E false ;;
    match loaded with
    | Raise e => ret (Raise e)
    | Ok its =>
        ret (Ok (length
                   (if truthy q
                    then List.filter (matches_query (lower (or_empty q))) its
                    else its)))
    end in
  match special with
  | Some sp =>
      if truthy (pl_url sp) then
        match fetch_text_of cat (or_empty (pl_url sp)) with
        | Raise e => ret (Raise e)
        | Ok text => ret (Ok (length (parse_m3u_index text)))
        end
      else from_index
  | None => from_index
  end.

Definition channels_summary : M (Res Summary) :=
  loaded <- _load_channels E false ;;
  match loaded with
  | Raise e => ret (Raise e)
  | Ok its =>
      c <- get_cache ;;
      let results := cached_results (validated_map c) in
      ret (Ok (mkSummary (length its) (size (validated_map c))
                         (length (List.filter working results))
                         (last_loaded c)))
  end.

Definition debug_sample (n : nat) : M (Res DebugSample) :=
  loaded <- _load_channels E false ;;
  match loaded with
  | Raise e => ret (Raise e)
  | Ok its =>
      let n := Nat.min (Nat.max n 1) 100 in
      let sample := map sample_entry (take n its) in
      ret (Ok (mkDebugSample
                 (length its) (length sample)
                 (length (List.filter (fun it => has_text (item_language it))
                                      its))
                 (length (List.filter (fun it => has_text (item_country it))
                                      its))
                 sample))
  end.

End Listing.

End Endpoints.

(* ===================================================================== *)
(** * The resolvers and endpoints of [Backend/app.py] *)
(* ===================================================================== *)

Module LegacyApi.

Import Py PyMore Main.

Definition M3U_BASE : string := "https://iptv-org.github.io/iptv".

(** [sanitize(s)] *)
Definition sanitize (s : string) : string :=
  lower (keep_chars is_letter_or_blank (strip s)).

(** The body of a listing endpoint. *)
Record Listing : Type := mkListing {
  count : nat;
  channels : list Legacy.Channel;
  message : option string
}.

Section Resolvers.

(** [pycountry.countries.lookup(key).alpha_2], or nothing when the lookup
    raises. *)
Variable countries_lookup : string -> option string.

(** [langcodes.find(key).to_alpha3()], or nothing when either call
    raises. *)
Variable langcodes_alpha3 : string -> option string.

(** The [alpha_3] of [pycountry.languages.get(name=key.title())], or nothing
    when there is no such language or it has no [alpha_3]. *)
Variable language_by_title : string -> option string.

(** [requests.get(url, timeout=20)], [raise_for_status()] and [.text]. *)
Variable http_get : string -> Res string.

(** [key_norm.split()[0] if key_norm else ""]: indexing the empty list of
    words raises [IndexError]. *)
Definition first_word_or_empty (key_norm : string) : Res string :=
  if nonempty key_norm then
    match first_word key_norm with
    | Some w => Ok w
    | None => Raise (Error "list index out of range")
    end
  else Ok EmptyString.

Definition resolve_country_to_iso2 (user : string) : Res (option string) :=
  if negb (nonempty user) then Ok None
  else
    let key := strip user in
    if (String.length key =? 2) && str_isalpha key then Ok (Some (lower key))
    else
      let key_norm := sanitize key in
      match countries_lookup key_norm with
      | Some alpha_2 => Ok (Some (lower alpha_2))
      | None =>
          match first_word_or_empty key_norm with
          | Raise e => Raise e
          | Ok first =>
              if nonempty first then
                match countries_lookup first with
                | Some alpha_2 => Ok (Some (lower alpha_2))
                | None => Ok None
                end
              else Ok None
          end
      end.

Definition resolve_language_to_code (user : string) : option string :=
  if negb (nonempty user) then None
  else
    let key := strip user in
    if (String.length key =? 3) && str_isalpha key then Some (lower key)
    else
      let by_langcodes :=
        match langcodes_alpha3 key with
        | Some alpha3 => if nonempty alpha3 then Some (lower alpha3) else None
        | None => None
        end in
      match by_langcodes with
      | Some code => Some code
      | None =>
          let by_name :=
            match language_by_title key with
            | Some alpha_3 =>
                if nonempty alpha_3 then Some (lower alpha_3) else None
            | None => None
            end in
          match by_name with
          | Some code => Some code
          | None =>
              if (String.length key =? 2) && str_isalpha key then
                match langcodes_alpha3 key with
                | Some alpha3 => Some (lower alpha3)
                | None => None
                end
              else None
          end
      end.

(** [fetch_m3u(url)]: any failure becomes a 502. *)
Definition fetch_m3u (url : string) : Res string :=
  match http_get url with
  | Ok text => Ok text
  | Raise e =>
      Raise (HTTPException 502 ("Failed to fetch playlist: " +:+ exc_str e))
  end.

(** The answer of [channels_by_language] and [channels_by_country] once
    the playlist [text] is there; [what] is the path segment. *)
Definition listing_of (text what : string) : Listing :=
  let found := Legacy.parse_m3u text in
  match found with
  | [] =>
      mkListing 0 []
        (Some ("No channels available for '" +:+ what +:+ "'."))
  | _ :: _ => mkListing (length found) found None
  end.

(** The playlist [channels_by_language] asks for. *)
Definition language_playlist_url (lang : string) : string :=
  let code :=
    or_empty (por (resolve_language_to_code lang)
                  (Some (lower (strip lang)))) in
  let code := str_take 5 (keep_chars is_az code) in
  M3U_BASE +:+ "/languages/" +:+ code +:+ ".m3u".

Definition channels_by_language (lang : string) : Res Listing :=
  match fetch_m3u (language_playlist_url lang) with
  | Raise e => Raise e
  | Ok text => Ok (listing_of text lang)
  end.

(** The playlist [channels_by_country] asks for; the resolver may raise. *)
Definition country_playlist_url (country : string) : Res string :=
  match resolve_country_to_iso2 country with
  | Raise e => Raise e
  | Ok resolved =>
      let iso :=
        or_empty (por resolved (Some (lower (str_take 2 (strip country))))) in
      let iso := str_take 2 (keep_chars is_az iso) in
      Ok (M3U_BASE +:+ "/countries/" +:+ iso +:+ ".m3u")
  end.

Definition channels_by_country (country : string) : Res Listing :=
  match country_playlist_url country with
  | Raise e => Raise e
  | Ok url =>
      match fetch_m3u url with
      | Raise e => Raise e
      | Ok text => Ok (listing_of text country)
      end
  end.

End Resolvers.

End LegacyApi.

(* ===================================================================== *)
(** * Notions used to state further properties *)
(* ===================================================================== *)

Module Notions.

Import Py Re Main.

(** A string that is empty or starts with a character that is no space. *)
Definition tight (s : string) : bool :=
  match s with
  | EmptyString => true
  | String c _ => negb (isspace c)
  end.

(** The lines of a manifest in which every channel is one metadata line
    followed at once by its URL line. *)
Definition paired_lines (pairs : list (string * string)) : list string :=
  flat_map (fun p => [p.1; p.2]) pairs.

(** A metadata line of [parse_m3u_index], and a line it takes as a URL. *)
Definition metadata_line (ln : string) : bool := startswith ln "#EXTINF".

Definition url_line (ln : string) : bool := negb (skipped ln).

(** The record [parse_m3u_index] builds from a metadata line and its URL
    line. *)
Definition item_of (p : string * string) : Item :=
  make_item (extinf_fields p.1).1 (extinf_fields p.1).2 (strip p.2).

(** What the controller stores for one gathered outcome: the returned
    result, or the failure record stamped with some clock reading. *)
Definition stored_as (outcome : Res ValidationResult)
           (v : ValidationResult) : Prop :=
  match outcome with
  | Ok r => v = r
  | Raise e => exists t : Z, v = failed_result t e
  end.

(** No two positions of [l] hold the same URL. *)
Definition distinct_urls (l : list Item) : Prop :=
  forall (a b : nat) (ea eb : Item),
    l !! a = Some ea -> l !! b = Some eb ->
    item_url ea = item_url eb -> a = b.

(** The validation cache of a world. *)
Definition results_of (w : World) : gmap string ValidationResult :=
  validated_map (_channels_cache w).

(** The cached channel list of a world. *)
Definition cached_list (w : World) : option (list Item) :=
  items (_channels_cache w).

(** [c] leaves the observation [f] of the world as it is. *)
Definition preserves {A X : Type} (f : World -> X) (c : M A) : Prop :=
  forall w : World, f (c w).2 = f w.

(** [c] changes the validation cache at most at the URLs of [urls]. *)
Definition touches_only {A : Type} (urls : list string) (c : M A) : Prop :=
  forall (w : World) (url : string),
    ~ In url urls -> results_of (c w).2 !! url = results_of w !! url.

(** [it'] is [it] with the code of the resolved playlist [sp] filled in
    where [it] had nothing: the language for a language playlist, else the
    country, as a prefix made of the letters a to z only. *)
Definition filled_in (sp : Endpoints.Playlist) (it it' : Item) : Prop :=
  match Endpoints.pl_type sp with
  | Endpoints.language =>
      it' = Endpoints.set_language
              (por (item_language it) (Some (Endpoints.pl_code sp))) it
  | _ =>
      exists cc : string,
        PyMore.all_chars PyMore.is_az cc = true
        /\ it' = Endpoints.set_country
                   (por (item_country it) (Some cc)) it
  end.

End Notions.

(* ===================================================================== *)
(** * More concrete exchanges and worlds *)
(* ===================================================================== *)

Module MoreSamples.

Import Py Re Main.

(** A server that answers HEAD with 200 and a generic content type. *)
Definition head_ok : Client :=
  mkClient (fun _ => Ok (mkResponse 200 Samples.octet_headers EmptyString))
           (fun _ => Raise (Error "not asked")).

(** A server that refuses HEAD and answers GET with a playlist of known
    codecs. *)
Definition playlist_server : Client :=
  mkClient (fun _ => Ok (mkResponse 405 ∅ EmptyString))
           (fun _ => Ok (mkResponse 200 Samples.octet_headers
                                    Samples.mixed_playlist)).

(** No taxonomy file on disk: nothing resolves to a playlist. *)
Definition no_catalog : Endpoints.Catalog :=
  Endpoints.mkCatalog [] [] (fun _ => Raise (Error "not asked")).

(** Alpha as [list_channels] shows it once the probe of
    [Samples.world_of] has been stored. *)
Definition alpha_listed : Endpoints.Channel :=
  Endpoints.to_channel {[ "http://a/live" := Samples.probed Samples.alpha ]}
                       Samples.alpha.

(** A taxonomy of one language and one country; the country has one
    subdivision, which has a city of its own, and one city directly under
    it. *)
Definition hindi : Endpoints.Language :=
  Endpoints.mkLanguage (Some "Hindi") (Some 300%Z)
                       (Some "https://lists/languages/hin.m3u") (Some "hin").

Definition bengaluru : Endpoints.City :=
  Endpoints.mkCity (Some "Bengaluru") (Some "https://lists/cities/inblr.m3u")
                   (Some "inblr").

Definition delhi : Endpoints.City :=
  Endpoints.mkCity (Some "Delhi") (Some "https://lists/cities/indel.m3u")
                   (Some "indel").

Definition karnataka : Endpoints.Subdivision :=
  Endpoints.mkSubdivision (Some "Karnataka")
                          (Some "https://lists/subdivisions/in-ka.m3u")
                          (Some "IN-KA") [bengaluru].

Definition india : Endpoints.Country :=
  Endpoints.mkCountry (Some "India") (Some "https://lists/countries/in.m3u")
                      (Some "IN") [karnataka] [delhi].

(** Every playlist of the taxonomy holds Alpha and Beta. *)
Definition small_catalog : Endpoints.Catalog :=
  Endpoints.mkCatalog [hindi] [india] (fun _ => Ok Samples.two_channels).

End MoreSamples.

(* ===================================================================== *)
(** * Properties of the manifest parsers *)
(* ===================================================================== *)

Import Py Re Main.

(** The outer loop of [parse_m3u_index] stops by its own test: any fuel of
    at least [length lines - i] gives the same list. *)
Lemma parse_loop_fuel (lines : list string) :
  forall (f1 f2 i : nat) (acc : list Item),
    length lines - i <= f1 -> length lines - i <= f2 ->
    parse_loop f1 lines i acc = parse_loop f2 lines i acc.
Proof.
  induction f1 as [|f1 IH]; intros f2 i acc H1 H2.
  - assert (Hnone : lines !! i = None) by (apply lookup_ge_None; lia).
    destruct f2; simpl; [reflexivity | now rewrite Hnone].
  - destruct f2 as [|f2].
    + assert (Hnone : lines !! i = None) by (apply lookup_ge_None; lia).
      simpl. now rewrite Hnone.
    + simpl. destruct (lines !! i) as [ln|] eqn:Hln; [|reflexivity].
      apply lookup_lt_Some in Hln.
      destruct (startswith ln "#EXTINF").
      * destruct (extinf_fields ln) as [attrs display_name].
        unfold next_candidate.
        destruct (lines !! (i + 1 + skipped_run (drop (i + 1) lines)));
          apply IH; lia.
      * apply IH; lia.
Qed.

(** Every item comes from one [#EXTINF] line and one later line. *)
Lemma parse_loop_origin (lines : list string) :
  forall (fuel i : nat) (acc : list Item) (it : Item),
    In it (parse_loop fuel lines i acc) ->
    In it acc \/
    exists ln l : string,
      In ln lines /\ startswith ln "#EXTINF" = true /\ In l lines /\
      it = make_item (extinf_fields ln).1 (extinf_fields ln).2 (strip l).
Proof.
  induction fuel as [|fuel IH]; intros i acc it Hin; simpl in Hin.
  - now left.
  - destruct (lines !! i) as [ln|] eqn:Hln; [|now left].
    assert (Hmem : In ln lines).
    { apply list_elem_of_In, list_elem_of_lookup. eauto. }
    destruct (startswith ln "#EXTINF") eqn:Hstart.
    + destruct (extinf_fields ln) as [attrs display_name] eqn:Hfields.
      destruct (lines !! next_candidate lines (i + 1)) as [l|] eqn:Hl.
      * apply IH in Hin. destruct Hin as [Hacc | Hnew]; [|now right].
        apply in_app_or in Hacc. destruct Hacc as [Hacc | Hlast]; [now left|].
        right. exists ln, l. rewrite Hfields. simpl in Hlast.
        destruct Hlast as [<- | []].
        repeat split; try assumption.
        apply list_elem_of_In, list_elem_of_lookup. eauto.
      * now apply IH in Hin.
    + now apply IH in Hin.
Qed.

Lemma skipped_run_all (ls : list string) :
  forallb skipped ls = true -> skipped_run ls = length ls.
Proof.
  induction ls as [|l ls IH]; simpl; [reflexivity|].
  intros H. apply andb_true_iff in H as [Hl Hls].
  rewrite Hl. now rewrite IH.
Qed.

(** Once only empty lines and lines starting with [#] are left, metadata
    lines included, the loop adds nothing. *)
Lemma parse_loop_trailing (lines : list string) :
  forall (fuel i : nat) (acc : list Item),
    forallb skipped (drop i lines) = true ->
    parse_loop fuel lines i acc = acc.
Proof.
  induction fuel as [|fuel IH]; intros i acc Hall; simpl; [reflexivity|].
  destruct (lines !! i) as [ln|] eqn:Hln; [|reflexivity].
  assert (Hnext : forallb skipped (drop (i + 1) lines) = true).
  { rewrite (drop_S _ _ _ Hln) in Hall. simpl in Hall.
    apply andb_true_iff in Hall as [_ Hrest].
    now replace (i + 1) with (S i) by lia. }
  destruct (startswith ln "#EXTINF").
  - destruct (extinf_fields ln) as [attrs display_name].
    unfold next_candidate. rewrite (skipped_run_all _ Hnext).
    rewrite length_drop.
    assert (Hnone : lines !! (i + 1 + (length lines - (i + 1))) = None).
    { apply lookup_ge_None. lia. }
    rewrite Hnone. now apply IH.
  - now apply IH.
Qed.

(** Every yielded channel is built from the loop state at its URL line: the
    state the scan started with, the reset state, or the state set by an
    [#EXTINF:] line. *)
Lemma scan_origin :
  forall (lines : list string) (st : Legacy.State) (ch : Legacy.Channel),
    In ch (Legacy.scan lines st) ->
    (exists u, ch = Legacy.emit st u) \/
    (exists u, ch = Legacy.emit Legacy.initial u) \/
    exists ln u : string,
      In ln lines /\ startswith ln "#EXTINF:" = true /\
      ch = Legacy.emit (Legacy.on_extinf ln) u.
Proof.
  induction lines as [|ln rest IH]; intros st ch Hin; simpl in Hin; [easy|].
  destruct (startswith ln "#EXTINF:") eqn:Hmeta.
  - apply IH in Hin. right.
    destruct Hin as [[u ->] | [[u ->] | (ln' & u & Hmem & Hst & ->)]].
    + right. exists ln, u. simpl. auto.
    + left. now exists u.
    + right. exists ln', u. simpl. auto.
  - destruct (startswith ln "http").
    + destruct Hin as [<- | Hin]; [left; now exists ln|].
      apply IH in Hin. right.
      destruct Hin as [[u ->] | [[u ->] | (ln' & u & Hmem & Hst & ->)]].
      * left. now exists u.
      * left. now exists u.
      * right. exists ln', u. simpl. auto.
    + apply IH in Hin.
      destruct Hin as [Hst | [Hinit | (ln' & u & Hmem & Hst & ->)]];
        [now left | now right; left |].
      right. right. exists ln', u. simpl. auto.
Qed.

Lemma make_item_name (attrs : gmap string string) (display : option string)
      (url : string) :
  item_name (make_item attrs display url)
  = Spec.first_nonempty [attrs !! "tvg-name"; display].
Proof.
  unfold make_item; simpl.
  destruct (attrs !! "tvg-name") as [[|c s]|];
    destruct display as [[|d t]|]; reflexivity.
Qed.

Lemma emit_extinf_name (ln u : string) :
  Legacy.name (Legacy.emit (Legacy.on_extinf ln) u)
  = AsBuilt.legacy_display_name ln.
Proof.
  unfold AsBuilt.legacy_display_name, Legacy.emit, Legacy.on_extinf,
    Legacy.line_name; simpl.
  destruct (after_first ","%char ln) as [rest|].
  - simpl. destruct (strip rest); reflexivity.
  - destruct (Legacy.line_attrs ln !! "tvg-name") as [[|c s]|];
      destruct (Legacy.line_attrs ln !! "tvg-id") as [[|d t]|]; reflexivity.
Qed.

(** C1 (defect of [parse_m3u_index]).  A metadata line that is followed by
    another metadata line before any URL line is not dropped by
    [parse_m3u_index]: the scan for the URL passes over every line that
    starts with [#], the next [#EXTINF] line included, so the first block is
    given the URL of the second block and the second block yields nothing.
    The older [parse_m3u] drops the first block, and both parsers drop a
    metadata line that ends the input. *)
Theorem orphan_extinf_takes_the_next_block_url :
  parse_m3u_index Samples.orphan_manifest
  = [mkItem (Some "a") (Some "Alpha") (Some "Alpha") (Some "a")
            None None None None "http://b/stream.m3u8"]
  /\ Legacy.parse_m3u Samples.orphan_manifest
     = [Legacy.mkChannel "Beta" None "http://b/stream.m3u8" None None None]
  /\ parse_m3u_index Samples.trailing_manifest
     = [mkItem (Some "b") (Some "Beta") (Some "Beta") (Some "b")
               None None None None "http://b/stream.m3u8"]
  /\ Legacy.parse_m3u Samples.trailing_manifest
     = [Legacy.mkChannel "Beta" None "http://b/stream.m3u8" None None None].
Proof. repeat split; vm_compute; reflexivity. Qed.

(** C7 (defect of [parse_m3u_index]).  [parse_m3u_index] stores attribute
    keys as written and looks them up in lower case: the keys [TVG-ID] and
    [Tvg-Logo] fill no field, while [tvg-id] and [tvg-logo] fill [id],
    [tvg_id] and [tvg_logo].  The older [parse_m3u] lower-cases the keys and
    yields the same channel for both spellings. *)
Theorem uppercase_attribute_keys_fill_no_field :
  parse_m3u_index (Samples.keyed_manifest "TVG-ID" "Tvg-Logo")
  = [mkItem None (Some "News") (Some "News") None None None None None
            "http://u/live"]
  /\ parse_m3u_index (Samples.keyed_manifest "tvg-id" "tvg-logo")
     = [mkItem (Some "x") (Some "News") (Some "News") (Some "x") (Some "y")
               None None None "http://u/live"]
  /\ Legacy.parse_m3u (Samples.keyed_manifest "TVG-ID" "Tvg-Logo")
     = [Legacy.mkChannel "News" (Some "y") "http://u/live" None None None]
  /\ Legacy.parse_m3u (Samples.keyed_manifest "tvg-id" "tvg-logo")
     = [Legacy.mkChannel "News" (Some "y") "http://u/live" None None None].
Proof. repeat split; vm_compute; reflexivity. Qed.




(* ===================================================================== *)
(** * Properties of the classifier and of the prober *)
(* ===================================================================== *)

Lemma startswith_refl (s : string) : startswith s s = true.
Proof.
  induction s as [|c s IH]; simpl; [reflexivity|].
  now rewrite Ascii.eqb_refl, IH.
Qed.

Lemma contains_self (s : string) : contains s s = true.
Proof. destruct s; simpl; [reflexivity|]. now rewrite Ascii.eqb_refl, startswith_refl. Qed.

(** A string contains each of its suffixes. *)
Lemma contains_suffix (pre sub : string) : contains sub (pre +:+ sub) = true.
Proof.
  induction pre as [|c pre IH].
  - apply contains_self.
  - change (String c pre +:+ sub) with (String c (pre +:+ sub)).
    cbn [contains]. rewrite IH. apply orb_true_r.
Qed.

Lemma concat_map_nonempty {A B : Type} (f : A -> list B) (l : list A) :
  existsb (fun a => match f a with [] => false | _ => true end) l = true ->
  concat (map f l) <> [].
Proof.
  induction l as [|a l IH]; simpl; [discriminate|].
  destruct (f a) eqn:Hfa; simpl; [exact IH | discriminate].
Qed.

Lemma filter_concat_map_none {A B : Type} (f : A -> list B) (ok : B -> bool)
      (l : list A) :
  forallb (fun a => forallb (fun b => negb (ok b)) (f a)) l = true ->
  List.filter ok (concat (map f l)) = [].
Proof.
  induction l as [|a l IH]; simpl; [reflexivity|].
  intros H. apply andb_true_iff in H as [Ha Hl].
  rewrite List.filter_app, (IH Hl), app_nil_r.
  induction (f a) as [|b bs IHb]; simpl in *; [reflexivity|].
  apply andb_true_iff in Ha as [Hb Hbs].
  apply negb_true_iff in Hb. rewrite Hb. now apply IHb.
Qed.

(** [_head_or_get] never raises, and the status it reports is the final
    status of the exchange, or 0 after a transport failure. *)
Lemma head_or_get_status (url : string) (client : Client) :
  exists headers sample,
    _head_or_get url client
    = Ok (default 0%Z (Spec.final_status client url), headers, sample).
Proof.
  unfold _head_or_get, Spec.final_status, get_small_chunk.
  destruct (head client url) as [r|e].
  - destruct (status_code r =? 200)%Z eqn:H200.
    + apply Z.eqb_eq in H200. rewrite H200. simpl. eauto.
    + destruct (get client url); simpl; eauto.
  - destruct (get client url); simpl; eauto.
Qed.

(** C8, as stated, fails: with a content type that names a playlist the
    classifier answers "compatible" before it looks at the sample, also for
    a sample whose only codec list names unknown codecs; and a variant line
    of unknown codecs does not make the answer "not compatible" when
    another variant line names a known codec, the entries of all lines being
    pooled. *)
Lemma unknown_codecs_counterexample :
  _detect_hls_from_headers_and_sample Samples.decode_ascii
    Samples.mpegurl_headers (Some Samples.hevc_playlist)
  = (true,
     Some "content-type indicates mpegurl (application/vnd.apple.mpegurl)")
  /\ has_playlist_marker (Samples.decode_ascii Samples.hevc_playlist) = true
  /\ codecs_found (Samples.decode_ascii Samples.hevc_playlist)
     = ["hevc"; "opus"]
  /\ List.filter ok_codec ["hevc"; "opus"] = []
  /\ _detect_hls_from_headers_and_sample Samples.decode_ascii
       Samples.octet_headers (Some Samples.mixed_playlist)
     = (true,
        Some "playlist with CODECS hevc,opus,avc1.42e01e,mp4a.40.2").
Proof.
  split; [|split; [|split; [|split]]]; vm_compute; reflexivity.
Qed.

(** C8, amended.  When the content type does not name a playlist, the
    sample is non-empty and shows a playlist marker, some
    [#EXT-X-STREAM-INF] line carries a quoted codec list and no entry of
    any such line names a known family, the classifier answers "not
    compatible", and the reason ends with the extracted entries, trimmed,
    lower-cased and joined by commas. *)
Theorem unknown_codecs_not_compatible
        (decode_ignore : string -> string)
        (headers : gmap string string) (b : string) :
  mpegurl_content_type (AsBuilt.content_type headers) = false ->
  nonempty b = true ->
  has_playlist_marker (decode_ignore b) = true ->
  AsBuilt.carries_codecs (decode_ignore b) = true ->
  AsBuilt.no_known_codec (decode_ignore b) = true ->
  let listing := join "," (codecs_found (decode_ignore b)) in
  _detect_hls_from_headers_and_sample decode_ignore headers (Some b)
  = (false, Some ("playlist with unrecognized CODECS " +:+ listing))
  /\ contains listing ("playlist with unrecognized CODECS " +:+ listing)
     = true.
Proof.
  intros Hct Hb Hmark Hsome Hnone listing. split.
  - unfold _detect_hls_from_headers_and_sample.
    fold (AsBuilt.content_type headers). rewrite Hct, Hb, Hmark.
    unfold playlist_verdict. fold listing.
    pose proof (concat_map_nonempty line_codecs _ Hsome) as Hne.
    pose proof (filter_concat_map_none line_codecs ok_codec _ Hnone) as Hno.
    fold (codecs_found (decode_ignore b)) in Hne, Hno.
    destruct (codecs_found (decode_ignore b)) as [|c cs] eqn:Hfound;
      [contradiction|].
    now rewrite Hno.
  - apply contains_suffix.
Qed.

Lemma unknown_codecs_not_compatible_witness :
  _detect_hls_from_headers_and_sample Samples.decode_ascii
    Samples.octet_headers (Some Samples.hevc_playlist)
  = (false, Some "playlist with unrecognized CODECS hevc,opus")
  /\ contains "hevc,opus" "playlist with unrecognized CODECS hevc,opus"
     = true.
Proof.
  apply (unknown_codecs_not_compatible Samples.decode_ascii
           Samples.octet_headers Samples.hevc_playlist);
    vm_compute; reflexivity.
Defined.

(** What [validate_channel_entry] returns for an entry with a URL, by the
    status [_head_or_get] reports. *)
Lemma validate_channel_entry_cases
      (decode_ignore : string -> string) (entry : Item) (client : Client)
      (now : Z) :
  nonempty (item_url entry) = true ->
  let r := validate_channel_entry decode_ignore entry client now in
  let status := default 0%Z (Spec.final_status client (item_url entry)) in
  last_checked r = Some now
  /\ ((status = 0 \/ 400 <= status)%Z ->
      working r = false
      /\ check_error r = Some ("HTTP status " +:+ str_of_int status))
  /\ ((200 <= status < 300)%Z -> working r = true).
Proof.
  intros Hurl r status. subst r. unfold validate_channel_entry.
  rewrite Hurl. cbn [negb].
  destruct (head_or_get_status (item_url entry) client)
    as (headers & sample & ->).
  fold status.
  destruct ((status =? 0)%Z || (400 <=? status)%Z) eqn:Hbad.
  - cbn. repeat split; try reflexivity. intros; lia.
  - apply orb_false_iff in Hbad as [H0 H400].
    apply Z.eqb_neq in H0. apply Z.leb_gt in H400.
    destruct (_detect_hls_from_headers_and_sample decode_ignore headers sample)
      as [is_hls reason].
    assert (Hw : (200 <= status < 300)%Z ->
                 ((200 <=? status)%Z && (status <? 400)%Z) = true).
    { intros [Hlo Hhi]. apply andb_true_iff. split.
      - now apply Z.leb_le.
      - apply Z.ltb_lt. lia. }
    destruct (truthy reason); cbn; (split; [reflexivity|]);
      (split; [intros; lia | exact Hw]).
Qed.

(** C2, as stated, fails: when both requests fail in transport the detail
    is the text "HTTP status 0"; the error text of the failure is not in
    it. *)
Lemma transport_error_text_counterexample :
  validate_channel_entry Samples.decode_ascii
    (Samples.plain_item "Alpha" "http://a/live") Samples.unreachable 7%Z
  = mkResult false false (Some 7%Z) (Some "HTTP status 0")
  /\ contains "connection refused" "HTTP status 0" = false.
Proof. split; vm_compute; reflexivity. Qed.

(** A final status between 300 and 399 is marked as working, against the
    comment at the assignment ("if we got 2xx"). *)
Example not_modified_counts_as_working :
  validate_channel_entry Samples.decode_ascii
    (Samples.plain_item "Alpha" "http://a/live") (Samples.answering 304) 7%Z
  = mkResult true false (Some 7%Z)
             (Some "playlist with unrecognized CODECS hevc,opus").
Proof. vm_compute. reflexivity. Qed.

(** C2, amended.  For a probe of an entry with a URL: a final status from
    200 to 299 gives [working = true]; a transport failure of the last
    attempt gives [working = false] with the detail "HTTP status 0" (the
    error text is not kept); a final status of 400 or more gives
    [working = false] with the detail "HTTP status" followed by the
    status. *)
Theorem probe_verdict_by_final_status
        (decode_ignore : string -> string) (entry : Item) (client : Client)
        (now : Z) :
  nonempty (item_url entry) = true ->
  let r := validate_channel_entry decode_ignore entry client now in
  match Spec.final_status client (item_url entry) with
  | None => working r = false /\ check_error r = Some "HTTP status 0"
  | Some status =>
      ((200 <= status < 300)%Z -> working r = true)
      /\ ((400 <= status)%Z ->
          working r = false
          /\ check_error r = Some ("HTTP status " +:+ str_of_int status))
  end.
Proof.
  intros Hurl r.
  destruct (validate_channel_entry_cases decode_ignore entry client now Hurl)
    as (_ & Hbad & Hgood).
  fold r in Hbad, Hgood.
  destruct (Spec.final_status client (item_url entry)) as [status|];
    simpl in Hbad, Hgood.
  - split; [exact Hgood|]. intros H400. apply Hbad. now right.
  - apply Hbad. now left.
Qed.

Lemma probe_verdict_by_final_status_witness :
  working (validate_channel_entry Samples.decode_ascii
             (Samples.plain_item "Alpha" "http://a/live")
             (Samples.answering 200) 7%Z) = true
  /\ check_error (validate_channel_entry Samples.decode_ascii
                    (Samples.plain_item "Alpha" "http://a/live")
                    (Samples.answering 404) 7%Z)
     = Some "HTTP status 404"
  /\ check_error (validate_channel_entry Samples.decode_ascii
                    (Samples.plain_item "Alpha" "http://a/live")
                    Samples.unreachable 7%Z)
     = Some "HTTP status 0".
Proof.
  split; [|split].
  - apply (probe_verdict_by_final_status Samples.decode_ascii
             (Samples.plain_item "Alpha" "http://a/live")
             (Samples.answering 200) 7%Z eq_refl).
    cbn [status_code]. lia.
  - apply (probe_verdict_by_final_status Samples.decode_ascii
             (Samples.plain_item "Alpha" "http://a/live")
             (Samples.answering 404) 7%Z eq_refl).
    cbn [status_code]. lia.
  - apply (probe_verdict_by_final_status Samples.decode_ascii
             (Samples.plain_item "Alpha" "http://a/live")
             Samples.unreachable 7%Z eq_refl).
Defined.

(** C9.  A probe of an entry with a URL always returns a result whose
    [last_checked] is set to the time read after the exchange: after a
    transport failure, after an error status and after a success alike. *)
Theorem probe_always_stamps_last_checked
        (decode_ignore : string -> string) (entry : Item) (client : Client)
        (now : Z) :
  nonempty (item_url entry) = true ->
  last_checked (validate_channel_entry decode_ignore entry client now)
  = Some now.
Proof.
  intros Hurl.
  exact (proj1 (validate_channel_entry_cases decode_ignore entry client now
                  Hurl)).
Qed.

Lemma probe_always_stamps_last_checked_witness :
  last_checked (validate_channel_entry Samples.decode_ascii
                  (Samples.plain_item "Alpha" "http://a/live")
                  Samples.unreachable 7%Z) = Some 7%Z
  /\ last_checked (validate_channel_entry Samples.decode_ascii
                     (Samples.plain_item "Alpha" "http://a/live")
                     (Samples.answering 404) 7%Z) = Some 7%Z
  /\ last_checked (validate_channel_entry Samples.decode_ascii
                     (Samples.plain_item "Alpha" "http://a/live")
                     (Samples.answering 200) 7%Z) = Some 7%Z.
Proof.
  split; [|split];
    apply (probe_always_stamps_last_checked Samples.decode_ascii);
    reflexivity.
Defined.

(* ===================================================================== *)
(** * Properties of the caches and of the validation job *)
(* ===================================================================== *)

(** C3 (defect of [validate_channels_for_list]).  The second loop hands out
    the gathered results to every entry with a URL, the skipped ones
    included.  With Alpha validated a moment ago and Beta never, only Beta
    is probed, and the result of Beta is stored under the URL of Alpha;
    nothing is stored under the URL of Beta.  When no entry is skipped, each
    URL gets its own result. *)
Theorem page_validation_misfiles_results_after_a_skip :
  let E := Samples.world_of (fun _ => EmptyString) in
  let w' :=
    (validate_channels_for_list E [Samples.alpha; Samples.beta]
       Samples.alpha_fresh).2 in
  let w'' :=
    (validate_channels_for_list E [Samples.alpha; Samples.beta]
       Samples.nothing_validated).2 in
  to_probe 1000 (validated_map (_channels_cache Samples.alpha_fresh))
           Samples.alpha = false
  /\ probes w' = 1
  /\ validated_map (_channels_cache w') !! "http://a/live"
     = Some (Samples.probed Samples.beta)
  /\ validated_map (_channels_cache w') !! "http://b/live" = None
  /\ validated_map (_channels_cache w'') !! "http://a/live"
     = Some (Samples.probed Samples.alpha)
  /\ validated_map (_channels_cache w'') !! "http://b/live"
     = Some (Samples.probed Samples.beta).
Proof. repeat split; vm_compute; reflexivity. Qed.

(** C4, as stated, fails: when the previous load found no channel, a call
    without [force] inside the freshness window downloads the index again;
    and a call with [force] whose download fails raises and replaces
    nothing. *)
Lemma empty_snapshot_counterexample :
  let E := Samples.world_of (fun _ => Samples.two_channels) in
  items (_channels_cache Samples.empty_snapshot) = Some []
  /\ last_loaded (_channels_cache Samples.empty_snapshot) = Some 900%Z
  /\ (utcnow_at E (clock_reads Samples.empty_snapshot) - 900
      <? CHANNEL_CACHE_TTL)%Z = true
  /\ fetches Samples.empty_snapshot = 0
  /\ fetches (_load_channels E false Samples.empty_snapshot).2 = 1
  /\ (_load_channels E false Samples.empty_snapshot).1
     = Ok [Samples.alpha; Samples.beta]
  /\ (_load_channels Samples.index_down true Samples.loaded_snapshot).1
     = Raise (Error "503 Service Unavailable")
  /\ _channels_cache
       (_load_channels Samples.index_down true Samples.loaded_snapshot).2
     = _channels_cache Samples.loaded_snapshot.
Proof.
  cbv zeta.
  split; [|split; [|split; [|split; [|split; [|split; [|split]]]]]];
    vm_compute; reflexivity.
Qed.

(** C4, amended.  A call without [force], made while the cached list is
    non-empty and younger than the freshness window, returns the cached list
    and leaves the cache and the download count as they were.  A call with
    [force] always downloads the index once; when the download succeeds the
    parsed list is returned and replaces the cached list, the load time is
    set to the time read after it, and the validation results are kept;
    when the download fails the error is raised and the cache is left as it
    was. *)
Theorem load_channels_cache_policy (E : Env) (w : World) :
  (forall (l : list Item) (loaded : Z),
      items (_channels_cache w) = Some l ->
      l <> [] ->
      last_loaded (_channels_cache w) = Some loaded ->
      (utcnow_at E (clock_reads w) - loaded < CHANNEL_CACHE_TTL)%Z ->
      (_load_channels E false w).1 = Ok l
      /\ _channels_cache (_load_channels E false w).2 = _channels_cache w
      /\ fetches (_load_channels E false w).2 = fetches w)
  /\
  (fetches (_load_channels E true w).2 = S (fetches w)
   /\ match fetch_index_at E (fetches w) with
      | Ok text =>
          (_load_channels E true w).1 = Ok (parse_m3u_index text)
          /\ _channels_cache (_load_channels E true w).2
             = mkCache (Some (parse_m3u_index text))
                       (Some (utcnow_at E (clock_reads w)))
                       (validated_map (_channels_cache w))
      | Raise e =>
          (_load_channels E true w).1 = Raise e
          /\ _channels_cache (_load_channels E true w).2 = _channels_cache w
      end).
Proof.
  split.
  - intros l loaded Hitems Hne Hloaded Hfresh.
    unfold _load_channels, cached_items, bind, get_cache, utcnow, ret.
    rewrite Hitems, Hloaded. destruct l as [|it l]; [contradiction|].
    cbn. apply Z.ltb_lt in Hfresh. rewrite Hfresh. cbn. auto.
  - assert (Hmiss : cached_items E true w = (None, w)).
    { unfold cached_items, bind, get_cache, ret.
      destruct w as [[its loaded m] j c f p b]; cbn.
      destruct its as [[|it l]|]; destruct loaded; reflexivity. }
    unfold _load_channels, bind. rewrite Hmiss.
    unfold _fetch_channel_index_text.
    destruct (fetch_index_at E (fetches w)) as [text|e]; cbn; auto.
Qed.

Lemma load_channels_cache_policy_witness :
  let E := Samples.world_of (fun _ => Samples.one_channel) in
  ((_load_channels E false Samples.loaded_snapshot).1
   = Ok [Samples.alpha; Samples.beta]
   /\ _channels_cache (_load_channels E false Samples.loaded_snapshot).2
      = _channels_cache Samples.loaded_snapshot
   /\ fetches (_load_channels E false Samples.loaded_snapshot).2
      = fetches Samples.loaded_snapshot)
  /\ fetches (_load_channels E true Samples.loaded_snapshot).2
     = S (fetches Samples.loaded_snapshot).
Proof.
  intros E. split.
  - apply (proj1 (load_channels_cache_policy E Samples.loaded_snapshot)
             [Samples.alpha; Samples.beta] 900%Z).
    + reflexivity.
    + discriminate.
    + reflexivity.
    + vm_compute. reflexivity.
  - apply (proj2 (load_channels_cache_policy E Samples.loaded_snapshot)).
Defined.

(** C5.  A request to start the bulk job while a job is running is answered
    with the conflict error (409, "validation already running"); no
    coroutine is scheduled and nothing of the module state changes.  A
    [validate_all_channels] that finds a job running returns at once and
    changes nothing either. *)
Theorem start_while_running_is_rejected
        (E : Env) (force_refresh : bool) (w : World) :
  running (_validation_job w) = true ->
  trigger_validate_all E force_refresh w
  = (Raise (HTTPException 409 "validation already running"), w)
  /\ validate_all_channels E force_refresh w = (Ok tt, w).
Proof.
  intros Hrun.
  unfold trigger_validate_all, validate_all_channels, bind, get_job.
  now rewrite Hrun.
Qed.

Lemma start_while_running_is_rejected_witness :
  let E := Samples.world_of (fun _ => Samples.one_channel) in
  trigger_validate_all E true Samples.job_under_way
  = (Raise (HTTPException 409 "validation already running"),
     Samples.job_under_way)
  /\ validate_all_channels E true Samples.job_under_way
     = (Ok tt, Samples.job_under_way).
Proof.
  intros E.
  apply (start_while_running_is_rejected E true Samples.job_under_way).
  reflexivity.
Defined.

(** An idle controller, by contrast, schedules the job and acknowledges
    the start. *)
Lemma start_when_idle_is_acknowledged
      (E : Env) (force_refresh : bool) (w : World) :
  running (_validation_job w) = false ->
  (trigger_validate_all E force_refresh w).1
  = Ok (mkStarted true (utcnow_at E (clock_reads w)))
  /\ background (trigger_validate_all E force_refresh w).2
     = background w ++ [force_refresh].
Proof.
  intros Hidle.
  unfold trigger_validate_all, bind, get_job, create_task, utcnow, ret.
  now rewrite Hidle.
Qed.

(** ** The validation cache only grows *)

Lemma keeps_urls_bind {A B : Type} (c : M A) (k : A -> M B) :
  keeps_urls c -> (forall a, keeps_urls (k a)) -> keeps_urls (bind c k).
Proof.
  intros Hc Hk w. unfold bind.
  specialize (Hc w). destruct (c w) as [a w1]. simpl in Hc.
  specialize (Hk a w1). set_solver.
Qed.

Lemma cache_untouched_keeps {A : Type} (c : M A) :
  cache_untouched c -> keeps_urls c.
Proof. intros H w. unfold known_urls. now rewrite H. Qed.

Lemma keeps_urls_ret {A : Type} (a : A) : keeps_urls (ret a).
Proof. now apply cache_untouched_keeps. Qed.

Lemma keeps_urls_utcnow (E : Env) : keeps_urls (utcnow E).
Proof. now apply cache_untouched_keeps. Qed.

Lemma keeps_urls_gather (E : Env) (entries : list Item) :
  keeps_urls (gather E entries).
Proof. now apply cache_untouched_keeps. Qed.

Lemma keeps_urls_get_job : keeps_urls get_job.
Proof. now apply cache_untouched_keeps. Qed.

Lemma keeps_urls_get_cache : keeps_urls get_cache.
Proof. now apply cache_untouched_keeps. Qed.

Lemma keeps_urls_put_job (j : ValidationJob) : keeps_urls (put_job j).
Proof. now apply cache_untouched_keeps. Qed.

Lemma keeps_urls_create_task (b : bool) : keeps_urls (create_task b).
Proof. now apply cache_untouched_keeps. Qed.

Lemma keeps_urls_store (url : string) (res : ValidationResult) :
  keeps_urls (store_result url res).
Proof.
  intros w. unfold store_result, bind, get_cache, put_cache, known_urls.
  simpl. rewrite dom_insert_L. set_solver.
Qed.

Lemma keeps_urls_bump_errors : keeps_urls bump_errors.
Proof. now apply cache_untouched_keeps. Qed.

Lemma keeps_urls_bump_validated : keeps_urls bump_validated.
Proof. now apply cache_untouched_keeps. Qed.

Lemma keeps_urls_update_progress : keeps_urls update_progress.
Proof. now apply cache_untouched_keeps. Qed.

Lemma load_channels_keeps_results (E : Env) (force : bool) (w : World) :
  validated_map (_channels_cache (_load_channels E force w).2)
  = validated_map (_channels_cache w)
  /\ _validation_job (_load_channels E force w).2 = _validation_job w.
Proof.
  unfold _load_channels, cached_items, bind, get_cache, put_cache, utcnow,
    _fetch_channel_index_text, ret.
  destruct w as [[its loaded m] j c f p b]; cbn.
  destruct its as [[|it l]|]; destruct loaded as [t|]; cbn;
    repeat match goal with
           | |- context [if ?b then _ else _] => destruct b; cbn
           | |- context [match fetch_index_at E ?n with _ => _ end] =>
               destruct (fetch_index_at E n); cbn
           end; auto.
Qed.

Lemma keeps_urls_load (E : Env) (force : bool) :
  keeps_urls (_load_channels E force).
Proof.
  intros w. unfold known_urls.
  now rewrite (proj1 (load_channels_keeps_results E force w)).
Qed.

Create HintDb keeps discriminated.
#[local] Hint Resolve keeps_urls_ret keeps_urls_utcnow keeps_urls_gather
  keeps_urls_get_job keeps_urls_get_cache keeps_urls_put_job
  keeps_urls_create_task keeps_urls_store keeps_urls_bump_errors
  keeps_urls_bump_validated keeps_urls_update_progress keeps_urls_load
  : keeps.

(** Peel the binds of a coroutine and close the leaves with the facts
    about the primitive steps. *)
Ltac keeps_step :=
  repeat first
    [ solve [eauto with keeps]
    | apply keeps_urls_bind; [| intros ?]
    | match goal with
      | |- keeps_urls (match ?x with _ => _ end) => destruct x
      | |- keeps_urls (if ?b then _ else _) => destruct b
      end ].

Lemma keeps_urls_attach (E : Env) (results : list (Res ValidationResult)) :
  forall (entries : list Item) (idx : nat),
    keeps_urls (attach_results E entries results idx).
Proof.
  induction entries as [|e rest IH]; intros idx; simpl.
  - apply keeps_urls_ret.
  - destruct (negb (nonempty (item_url e))); [apply IH|].
    destruct (results !! idx) as [candidate|]; [|apply IH].
    unfold as_result. keeps_step; apply IH.
Qed.

Lemma keeps_urls_page (E : Env) (entries : list Item) :
  keeps_urls (validate_channels_for_list E entries).
Proof.
  unfold validate_channels_for_list. keeps_step.
  apply keeps_urls_attach.
Qed.

Lemma keeps_urls_record (E : Env) (slice_items : list Item) :
  forall (results : list (Res ValidationResult)) (i : nat),
    keeps_urls (record_results E slice_items results i).
Proof.
  induction results as [|res more IH]; intros i; simpl.
  - apply keeps_urls_ret.
  - destruct (slice_items !! i) as [ent|]; [|apply IH].
    unfold record_one. keeps_step; apply IH.
Qed.

Lemma keeps_urls_chunks (E : Env) (its tasks : list Item) :
  forall fuel idx : nat, keeps_urls (chunk_loop E fuel its tasks idx).
Proof.
  induction fuel as [|fuel IH]; intros idx; simpl.
  - apply keeps_urls_ret.
  - destruct (idx <? length tasks); [|apply keeps_urls_ret].
    keeps_step; first [apply keeps_urls_record | apply IH].
Qed.

Lemma keeps_urls_job (E : Env) (force_refresh : bool) :
  keeps_urls (validate_all_channels E force_refresh).
Proof.
  unfold validate_all_channels, validate_all_body, start_job, finish_job.
  keeps_step. apply keeps_urls_chunks.
Qed.

Lemma keeps_urls_trigger (E : Env) (force_refresh : bool) :
  keeps_urls (trigger_validate_all E force_refresh).
Proof. unfold trigger_validate_all. keeps_step. Qed.

Lemma keeps_urls_status : keeps_urls validate_status.
Proof. unfold validate_status. keeps_step. Qed.

(** ** The progress figure *)

Lemma chunk_size_pos : 0 < chunk_size.
Proof. vm_compute. lia. Qed.

(** A chunk of tasks is never longer than the slice of [items] it is mapped
    back to. *)
Lemma chunk_within_slice (its tasks : list Item) (idx : nat) :
  length tasks <= length its ->
  length (take chunk_size (drop idx tasks))
  <= length (take chunk_size (drop idx its)).
Proof. intros H. rewrite !length_take, !length_drop. lia. Qed.

Lemma record_one_synced (E : Env) (ent : Item) (res : Res ValidationResult)
      (w : World) :
  progress_synced (record_one E ent res w).2
  /\ total (_validation_job (record_one E ent res w).2)
     = total (_validation_job w).
Proof.
  unfold progress_synced, record_one, bind, store_result, bump_errors,
    bump_validated, update_progress, get_job, get_cache, put_job, put_cache,
    utcnow, ret.
  destruct res as [r|e]; [destruct (working r)|]; cbn; split; reflexivity.
Qed.

Lemma record_results_synced (E : Env) (slice_items : list Item) :
  forall (results : list (Res ValidationResult)) (i : nat) (w : World),
    i + length results <= length slice_items ->
    results <> [] \/ progress_synced w ->
    progress_synced (record_results E slice_items results i w).2
    /\ total (_validation_job (record_results E slice_items results i w).2)
       = total (_validation_job w).
Proof.
  induction results as [|res more IH]; intros i w Hlen Hstart.
  - destruct Hstart as [Hne | Hsync]; [contradiction | now split].
  - simpl in Hlen |- *.
    destruct (lookup_lt_is_Some_2 slice_items i) as [ent Hent]; [lia|].
    rewrite Hent. unfold bind.
    destruct (record_one_synced E ent res w) as [Hsync Htotal].
    destruct (record_one E ent res w) as [u w1]. simpl in Hsync, Htotal.
    destruct (IH (i + 1) w1) as [Hsync' Htotal']; [lia | now right |].
    split; [exact Hsync' | congruence].
Qed.

Lemma gather_length (E : Env) (entries : list Item) (w : World) :
  length (gather E entries w).1 = length entries
  /\ _channels_cache (gather E entries w).2 = _channels_cache w
  /\ _validation_job (gather E entries w).2 = _validation_job w.
Proof. unfold gather; simpl. now rewrite length_imap. Qed.

Lemma chunk_loop_synced (E : Env) (its tasks : list Item) :
  length tasks <= length its ->
  forall (fuel idx : nat) (w : World),
    progress_synced w \/ (0 < fuel /\ idx < length tasks) ->
    progress_synced (chunk_loop E fuel its tasks idx w).2
    /\ total (_validation_job (chunk_loop E fuel its tasks idx w).2)
       = total (_validation_job w).
Proof.
  intros Hsub. induction fuel as [|fuel IH]; intros idx w Hstart.
  - destruct Hstart as [Hsync | [Hfuel _]]; [now split | lia].
  - simpl. destruct (idx <? length tasks) eqn:Hidx.
    + apply Nat.ltb_lt in Hidx. unfold bind.
      destruct (gather_length E (take chunk_size (drop idx tasks)) w)
        as (Hlen & Hcache & Hjob).
      destruct (gather E (take chunk_size (drop idx tasks)) w)
        as [results w1].
      simpl in Hlen, Hcache, Hjob.
      assert (Hsome : results <> []).
      { intros ->. simpl in Hlen. symmetry in Hlen.
        rewrite length_take, length_drop in Hlen.
        pose proof chunk_size_pos. lia. }
      destruct (record_results_synced E (take chunk_size (drop idx its))
                  results 0 w1) as [Hsync Htotal].
      { rewrite Hlen. simpl. now apply chunk_within_slice. }
      { now left. }
      destruct (record_results E (take chunk_size (drop idx its)) results 0
                  w1) as [u w2].
      simpl in Hsync, Htotal.
      destruct (IH (idx + chunk_size) w2) as [Hsync' Htotal'];
        [now left|].
      split; [exact Hsync' | congruence].
    + apply Nat.ltb_ge in Hidx.
      destruct Hstart as [Hsync | [_ Hlt]]; [now split | lia].
Qed.

(** The chunk loop stops by its own test: any fuel of at least
    [length tasks - idx] gives the same run. *)
Lemma chunk_loop_fuel (E : Env) (its tasks : list Item) :
  forall (f1 f2 idx : nat) (w : World),
    length tasks - idx <= f1 -> length tasks - idx <= f2 ->
    chunk_loop E f1 its tasks idx w = chunk_loop E f2 its tasks idx w.
Proof.
  pose proof chunk_size_pos as Hpos.
  induction f1 as [|f1 IH]; intros f2 idx w H1 H2.
  - assert (Hout : (idx <? length tasks) = false) by (apply Nat.ltb_ge; lia).
    destruct f2; simpl; [reflexivity | now rewrite Hout].
  - destruct f2 as [|f2]; simpl.
    + assert (Hout : (idx <? length tasks) = false)
        by (apply Nat.ltb_ge; lia).
      now rewrite Hout.
    + destruct (idx <? length tasks) eqn:Hidx; [|reflexivity].
      unfold bind.
      destruct (gather E (take chunk_size (drop idx tasks)) w)
        as [results w1].
      destruct (record_results E (take chunk_size (drop idx its)) results 0
                  w1) as [u w2].
      apply IH; lia.
Qed.

Lemma bind_run {A B : Type} (c : M A) (k : A -> M B) (w : World) :
  bind c k w = k (c w).1 (c w).2.
Proof. unfold bind. now destruct (c w). Qed.

(** The [try] block, entered with a total of 0, ends with a total of 0 or
    with the progress figure in step with the cache. *)
Lemma body_synced (E : Env) (force_refresh : bool) (w : World) :
  total (_validation_job w) = 0 ->
  total (_validation_job (validate_all_body E force_refresh w).2) = 0
  \/ progress_synced (validate_all_body E force_refresh w).2.
Proof.
  intros Hreset. unfold validate_all_body. rewrite bind_run.
  destruct (load_channels_keeps_results E force_refresh w) as [_ Hjob].
  destruct (_load_channels E force_refresh w) as [[its|e] w1];
    cbn [fst snd] in *.
  - rewrite !bind_run. cbn [get_job put_job fst snd].
    rewrite length_map.
    set (tasks := List.filter (fun it => nonempty (item_url it)) its).
    set (w2 := mkWorld _ _ _ _ _ _).
    destruct (length tasks =? 0) eqn:Hnone.
    + left. apply Nat.eqb_eq in Hnone. exact Hnone.
    + right. apply Nat.eqb_neq in Hnone. rewrite bind_run.
      apply (chunk_loop_synced E its tasks (List.filter_length_le _ its)
               (length tasks) 0 w2).
      right. lia.
  - left. simpl. now rewrite Hjob.
Qed.

Lemma finish_job_keeps (E : Env) (w : World) :
  _channels_cache (finish_job E w).2 = _channels_cache w
  /\ total (_validation_job (finish_job E w).2) = total (_validation_job w)
  /\ progress (_validation_job (finish_job E w).2)
     = progress (_validation_job w).
Proof. now unfold finish_job, bind, get_job, utcnow, put_job. Qed.

(** After a job that scheduled at least one URL, the progress figure is the
    size of the whole validation cache over the total of this run. *)
Lemma job_progress_synced (E : Env) (force_refresh : bool) (w : World) :
  running (_validation_job w) = false ->
  total (_validation_job (validate_all_channels E force_refresh w).2) <> 0 ->
  progress_synced (validate_all_channels E force_refresh w).2.
Proof.
  intros Hidle.
  unfold validate_all_channels. rewrite bind_run. cbn [get_job fst snd].
  rewrite Hidle, !bind_run. cbn [ret fst snd].
  set (w0 := (start_job E w).2).
  destruct (body_synced E force_refresh w0 eq_refl) as [Hzero | Hsync];
    destruct (finish_job_keeps E (validate_all_body E force_refresh w0).2)
      as (Hcache & Htotal & Hprogress).
  - intros Hpos. exfalso. apply Hpos. now rewrite Htotal.
  - intros _. unfold progress_synced in *.
    now rewrite Hcache, Htotal, Hprogress.
Qed.



(* ===================================================================== *)
(** * Further properties of the code *)
(* ===================================================================== *)

Import Notions.

(** ** Facts about the string primitives *)

Lemma str_app_cons (c : ascii) (a b : string) :
  String c a +:+ b = String c (a +:+ b).
Proof. reflexivity. Qed.

Lemma str_app_nil_r (s : string) : s +:+ EmptyString = s.
Proof.
  induction s as [|c s IH]; [reflexivity|]. now rewrite str_app_cons, IH.
Qed.

Lemma str_app_assoc (a b c : string) : (a +:+ b) +:+ c = a +:+ (b +:+ c).
Proof.
  induction a as [|x a IH]; [reflexivity|]. now rewrite !str_app_cons, IH.
Qed.

Lemma rev_onto_app (s acc : string) : rev_onto s acc = str_rev s +:+ acc.
Proof.
  unfold str_rev. revert acc.
  induction s as [|c s IH]; intros acc; [reflexivity|].
  simpl. rewrite IH, (IH (String c EmptyString)).
  now rewrite str_app_assoc.
Qed.

Lemma str_rev_cons (c : ascii) (s : string) :
  str_rev (String c s) = str_rev s +:+ String c EmptyString.
Proof. unfold str_rev at 1. simpl. apply rev_onto_app. Qed.

Lemma str_rev_app (a b : string) :
  str_rev (a +:+ b) = str_rev b +:+ str_rev a.
Proof.
  induction a as [|c a IH].
  - change (EmptyString +:+ b) with b. now rewrite str_app_nil_r.
  - now rewrite str_app_cons, !str_rev_cons, IH, str_app_assoc.
Qed.

Lemma str_rev_involutive (s : string) : str_rev (str_rev s) = s.
Proof.
  induction s as [|c s IH]; [reflexivity|].
  now rewrite str_rev_cons, str_rev_app, IH.
Qed.

Lemma lstrip_tight (s : string) : tight (lstrip s) = true.
Proof.
  induction s as [|c s IH]; [reflexivity|].
  simpl. destruct (isspace c) eqn:Hc; [exact IH|]. simpl. now rewrite Hc.
Qed.

Lemma lstrip_of_tight (s : string) : tight s = true -> lstrip s = s.
Proof.
  destruct s as [|c s]; [reflexivity|]. simpl.
  intros H. apply negb_true_iff in H. now rewrite H.
Qed.

Lemma lstrip_suffix (s : string) : exists p, s = p +:+ lstrip s.
Proof.
  induction s as [|c s [p Hp]].
  - now exists EmptyString.
  - simpl. destruct (isspace c).
    + exists (String c p). now rewrite str_app_cons, <- Hp.
    + now exists EmptyString.
Qed.

Lemma tight_app_l (a b : string) :
  tight (a +:+ b) = true -> a <> EmptyString -> tight a = true.
Proof. destruct a as [|c a]; [contradiction | now rewrite str_app_cons]. Qed.

(** [strip] leaves no space at either end. *)
Lemma strip_tight (s : string) :
  tight (strip s) = true /\ tight (str_rev (strip s)) = true.
Proof.
  unfold strip. set (a := lstrip s). set (b := lstrip (str_rev a)).
  split.
  - destruct (lstrip_suffix (str_rev a)) as [p Hp]. fold b in Hp.
    assert (Ha : a = str_rev b +:+ str_rev p).
    { rewrite <- (str_rev_involutive a), Hp. apply str_rev_app. }
    destruct (str_rev b) as [|c r] eqn:Hb; [reflexivity|].
    pose proof (lstrip_tight s) as Ht. fold a in Ht. rewrite Ha in Ht.
    exact Ht.
  - rewrite str_rev_involutive. apply lstrip_tight.
Qed.

Lemma strip_of_tight (s : string) :
  tight s = true -> tight (str_rev s) = true -> strip s = s.
Proof.
  intros H1 H2. unfold strip.
  now rewrite (lstrip_of_tight s H1), (lstrip_of_tight _ H2),
    str_rev_involutive.
Qed.

Lemma strip_idempotent (s : string) : strip (strip s) = strip s.
Proof. destruct (strip_tight s). now apply strip_of_tight. Qed.

(** ** Further properties of the manifest parsers *)

Lemma skipped_run_stops (ls : list string) (l : string) :
  ls !! skipped_run ls = Some l -> skipped l = false.
Proof.
  induction ls as [|x ls IH]; simpl; [discriminate|].
  destruct (skipped x) eqn:Hx; simpl.
  - exact IH.
  - now intros [= <-].
Qed.

Lemma next_candidate_stops (lines : list string) (j : nat) (l : string) :
  lines !! next_candidate lines j = Some l -> skipped l = false.
Proof.
  unfold next_candidate. rewrite <- lookup_drop. apply skipped_run_stops.
Qed.

(** Every item carries the stripped text of a line that is neither empty
    nor a [#] line. *)
Lemma parse_loop_urls (lines : list string) :
  forall (fuel i : nat) (acc : list Item) (it : Item),
    In it (parse_loop fuel lines i acc) ->
    In it acc \/
    exists l : string,
      In l lines /\ skipped l = false /\ item_url it = strip l.
Proof.
  induction fuel as [|fuel IH]; intros i acc it Hin; simpl in Hin.
  - now left.
  - destruct (lines !! i) as [ln|] eqn:Hln; [|now left].
    destruct (startswith ln "#EXTINF").
    + destruct (extinf_fields ln) as [attrs display_name].
      destruct (lines !! next_candidate lines (i + 1)) as [l|] eqn:Hl.
      * apply IH in Hin. destruct Hin as [Hacc | Hnew]; [|now right].
        apply in_app_or in Hacc. destruct Hacc as [Hacc | Hlast]; [now left|].
        right. exists l. simpl in Hlast. destruct Hlast as [<- | []].
        repeat split.
        -- apply list_elem_of_In, list_elem_of_lookup. eauto.
        -- now apply next_candidate_stops in Hl.
      * now apply IH in Hin.
    + now apply IH in Hin.
Qed.

Lemma skipped_false (l : string) :
  skipped l = false -> nonempty l = true /\ startswith l "#" = false.
Proof.
  unfold skipped. intros H. apply orb_false_iff in H as [He Hs].
  split; [|exact Hs]. now destruct l.
Qed.

(** X1. No record without a URL.  Every record of [parse_m3u_index] has a
    URL that is a non-empty string, does not start with [#], and has no
    space at either end. *)
Theorem parsed_items_have_urls (text : string) (it : Item) :
  In it (parse_m3u_index text) ->
  nonempty (item_url it) = true
  /\ startswith (item_url it) "#" = false
  /\ strip (item_url it) = item_url it.
Proof.
  intros Hin. unfold parse_m3u_index in Hin.
  apply parse_loop_urls in Hin.
  destruct Hin as [[] | (l & Hl & Hskip & ->)].
  unfold stripped_lines in Hl. apply in_map_iff in Hl as (x & <- & _).
  destruct (skipped_false _ Hskip) as [Hne Hhash].
  pose proof (strip_idempotent x) as Hx. rewrite Hx.
  split; [exact Hne | split; [exact Hhash | exact Hx]].
Qed.

Lemma parsed_items_have_urls_witness :
  nonempty "http://u/live" = true
  /\ startswith "http://u/live" "#" = false
  /\ strip "http://u/live" = "http://u/live".
Proof.
  apply (parsed_items_have_urls Samples.friendly_manifest
           (Samples.plain_item "Friendly" "http://u/live")).
  vm_compute. left. reflexivity.
Defined.

Lemma paired_lines_length (pairs : list (string * string)) :
  length (paired_lines pairs) = 2 * length pairs.
Proof. induction pairs as [|p pairs IH]; simpl; lia. Qed.

Lemma parse_loop_paired (pairs : list (string * string)) :
  Forall (fun p => metadata_line p.1 = true /\ url_line p.2 = true) pairs ->
  forall (pre : list string) (fuel : nat) (acc : list Item),
    length pairs <= fuel ->
    parse_loop fuel (pre ++ paired_lines pairs) (length pre) acc
    = acc ++ map item_of pairs.
Proof.
  induction 1 as [|[m u] pairs [Hm Hu] Hrest IH]; intros pre fuel acc Hfuel.
  - simpl. rewrite !app_nil_r.
    destruct fuel; simpl; [reflexivity|].
    now rewrite (proj2 (lookup_ge_None pre (length pre))) by lia.
  - destruct fuel as [|fuel]; [simpl in Hfuel; lia|].
    simpl in Hm, Hu.
    change (paired_lines ((m, u) :: pairs)) with (m :: u :: paired_lines pairs).
    cbn [parse_loop].
    rewrite list_lookup_middle by reflexivity.
    unfold metadata_line in Hm. rewrite Hm.
    destruct (extinf_fields m) as [attrs display_name] eqn:Hfields.
    assert (Hnext : next_candidate (pre ++ m :: u :: paired_lines pairs)
                      (length pre + 1) = length pre + 1).
    { unfold next_candidate.
      replace (pre ++ m :: u :: paired_lines pairs)
        with ((pre ++ [m]) ++ u :: paired_lines pairs)
        by now rewrite <- app_assoc.
      rewrite drop_app_length' by (rewrite length_app; simpl; lia).
      simpl. unfold url_line in Hu. apply negb_true_iff in Hu.
      rewrite Hu. lia. }
    rewrite Hnext.
    replace (pre ++ m :: u :: paired_lines pairs)
      with ((pre ++ [m]) ++ u :: paired_lines pairs)
      by now rewrite <- app_assoc.
    rewrite (list_lookup_middle (pre ++ [m]) _ u (length pre + 1))
      by (rewrite length_app; simpl; lia).
    replace ((pre ++ [m]) ++ u :: paired_lines pairs)
      with ((pre ++ [m; u]) ++ paired_lines pairs)
      by (rewrite <- !app_assoc; reflexivity).
    replace (length pre + 1 + 1) with (length (pre ++ [m; u]))
      by (rewrite length_app; simpl; lia).
    rewrite IH by (simpl in Hfuel; lia).
    rewrite <- app_assoc. simpl. unfold item_of. simpl.
    now rewrite Hfields.
Qed.



Lemma extinf_line_is_no_url (ln : string) :
  startswith ln "#EXTINF:" = true -> startswith ln "http" = false.
Proof.
  destruct ln as [|c ln]; [discriminate|]. cbn [startswith].
  destruct (Ascii.eqb "#" c) eqn:Hc; [|discriminate].
  apply Ascii.eqb_eq in Hc as <-. reflexivity.
Qed.

Lemma scan_yields (lines : list string) :
  forall st : Legacy.State,
    map Legacy.url (Legacy.scan lines st)
    = List.filter (fun ln => startswith ln "http") lines.
Proof.
  induction lines as [|ln rest IH]; intros st; simpl; [reflexivity|].
  destruct (startswith ln "#EXTINF:") eqn:Hmeta.
  - rewrite (extinf_line_is_no_url ln Hmeta). apply IH.
  - destruct (startswith ln "http"); simpl; [f_equal|]; apply IH.
Qed.

Lemma emit_name_nonempty (st : Legacy.State) (ln : string) :
  nonempty (Legacy.name (Legacy.emit st ln)) = true.
Proof.
  unfold Legacy.emit; simpl.
  destruct (Legacy.st_name st) as [[|c s]|]; reflexivity.
Qed.

Lemma scan_names (lines : list string) :
  forall (st : Legacy.State) (ch : Legacy.Channel),
    In ch (Legacy.scan lines st) -> nonempty (Legacy.name ch) = true.
Proof.
  induction lines as [|ln rest IH]; intros st ch Hin; simpl in Hin; [easy|].
  destruct (startswith ln "#EXTINF:"); [now apply IH in Hin|].
  destruct (startswith ln "http"); [|now apply IH in Hin].
  destruct Hin as [<- | Hin]; [apply emit_name_nonempty | now apply IH in Hin].
Qed.

(** X3. What [parse_m3u] yields.  The older parser yields exactly one channel
    per kept line that starts with [http], in order and with that line as
    URL, whether or not a metadata line came before it; and no channel has
    an empty name. *)
Theorem legacy_one_channel_per_http_line (text : string) :
  map Legacy.url (Legacy.parse_m3u text)
  = List.filter (fun ln => startswith ln "http") (Legacy.kept_lines text)
  /\ Forall (fun ch => nonempty (Legacy.name ch) = true)
            (Legacy.parse_m3u text).
Proof.
  split.
  - apply scan_yields.
  - apply Forall_forall. intros ch Hin.
    apply list_elem_of_In in Hin. now apply scan_names in Hin.
Qed.

(** ** Further properties of the classifier and of the prober *)

Lemma classifier_verdicts
      (decode_ignore : string -> string)
      (headers : gmap string string) (sample : option string) :
  let verdict :=
    _detect_hls_from_headers_and_sample decode_ignore headers sample in
  verdict.1 = true ->
  truthy verdict.2 = true
  /\ (mpegurl_content_type (AsBuilt.content_type headers) = true
      \/ exists b : string,
           sample = Some b /\ nonempty b = true
           /\ has_playlist_marker (decode_ignore b) = true).
Proof.
  unfold _detect_hls_from_headers_and_sample.
  fold (AsBuilt.content_type headers).
  destruct (mpegurl_content_type (AsBuilt.content_type headers)) eqn:Hct.
  - intros _. split; [reflexivity | now left].
  - assert (Hfall : forall ct, (content_type_fallback ct).1 = false).
    { intros ct. unfold content_type_fallback.
      now destruct (contains "video" ct). }
    destruct sample as [b|]; cbn zeta; [|now rewrite Hfall].
    destruct (nonempty b) eqn:Hb; [|now rewrite Hfall].
    destruct (has_playlist_marker (decode_ignore b)) eqn:Hmark.
    + intros Hok. split; [|right; now exists b].
      unfold playlist_verdict in *.
      destruct (codecs_found (decode_ignore b)); [reflexivity|].
      destruct (List.filter ok_codec (_ :: _)); reflexivity.
    + destruct (startswith (str_take 12 b) three_zero_bytes
                && contains "ftyp" (str_take 64 b));
        [discriminate | now rewrite Hfall].
Qed.

(** X4. The classifier needs evidence.  It answers "compatible" only when
    the content type names a playlist or the sample is non-empty and shows a
    playlist marker, and then always with a reason; a [video/...] content
    type alone never makes a stream compatible. *)
Theorem compatible_only_on_evidence
        (decode_ignore : string -> string)
        (headers : gmap string string) (sample : option string) :
  (_detect_hls_from_headers_and_sample decode_ignore headers sample).1
  = true ->
  truthy (_detect_hls_from_headers_and_sample decode_ignore headers sample).2
  = true
  /\ (mpegurl_content_type (AsBuilt.content_type headers) = true
      \/ exists b : string,
           sample = Some b /\ nonempty b = true
           /\ has_playlist_marker (decode_ignore b) = true).
Proof. exact (classifier_verdicts decode_ignore headers sample). Qed.

Lemma compatible_only_on_evidence_witness :
  truthy (_detect_hls_from_headers_and_sample Samples.decode_ascii
            Samples.octet_headers (Some Samples.mixed_playlist)).2 = true
  /\ (mpegurl_content_type (AsBuilt.content_type Samples.octet_headers) = true
      \/ exists b : string,
           Some Samples.mixed_playlist = Some b /\ nonempty b = true
           /\ has_playlist_marker (Samples.decode_ascii b) = true).
Proof.
  apply (compatible_only_on_evidence Samples.decode_ascii
           Samples.octet_headers (Some Samples.mixed_playlist)).
  vm_compute. reflexivity.
Defined.

Lemma str_take_length (n : nat) (s : string) :
  String.length (str_take n s) <= n.
Proof.
  revert s. induction n as [|n IH]; intros [|c s]; simpl; try lia.
  specialize (IH s). lia.
Qed.

Lemma str_take_nonempty (n : nat) (s : string) :
  nonempty (str_take (S n) s) = nonempty s.
Proof. now destruct s. Qed.

(** X5. The sample is small.  Whatever the server sends, the body sample
    [_head_or_get] hands on is never empty and never longer than 4096
    bytes, and a HEAD answered with 200 hands on no sample at all. *)
Theorem sample_is_bounded
        (url : string) (client : Client)
        (status : Z) (headers : gmap string string) (b : string) :
  _head_or_get url client = Ok (status, headers, Some b) ->
  nonempty b = true
  /\ String.length b <= 4096
  /\ (forall r, head client url = Ok r -> status_code r <> 200%Z).
Proof.
  unfold _head_or_get, get_small_chunk.
  assert (Hbig : exists n, 4096 = S n) by (exists 4095; reflexivity).
  destruct Hbig as [n Hn]. generalize dependent 4096. intros big Hn H.
  assert (Hget : forall r,
                 Ok (status_code r, resp_headers r,
                     if nonempty (content r)
                     then Some (str_take big (content r)) else None)
                 = Ok (status, headers, Some b) ->
                 nonempty b = true /\ String.length b <= big).
  { intros r Heq. destruct (nonempty (content r)) eqn:Hc; [|discriminate].
    injection Heq as _ _ <-. split.
    - rewrite Hn, str_take_nonempty. exact Hc.
    - apply str_take_length. }
  destruct (head client url) as [r|e] eqn:Hhead.
  - destruct (status_code r =? 200)%Z eqn:H200; [discriminate|].
    apply Z.eqb_neq in H200.
    destruct (get client url) as [r'|e'] eqn:Hg; [|discriminate].
    destruct (Hget r' H) as [Hne Hlen].
    repeat split; try assumption. now intros r0 [= <-].
  - destruct (get client url) as [r'|e'] eqn:Hg; [|discriminate].
    destruct (Hget r' H) as [Hne Hlen].
    repeat split; try assumption. discriminate.
Qed.

Lemma sample_is_bounded_witness :
  nonempty Samples.hevc_playlist = true
  /\ String.length Samples.hevc_playlist <= 4096
  /\ (forall r, head (Samples.answering 200) "http://a/live" = Ok r ->
      status_code r <> 200%Z).
Proof.
  apply (sample_is_bounded "http://a/live" (Samples.answering 200) 200%Z
           Samples.octet_headers Samples.hevc_playlist).
  vm_compute. reflexivity.
Defined.

(** X6. A HEAD answered with 200 settles the probe.  The entry is marked
    working, no body is sniffed, and [hls_compatible] is decided by the
    content type alone: true exactly when it names a playlist. *)
Theorem head_200_is_judged_by_content_type
        (decode_ignore : string -> string) (entry : Item) (client : Client)
        (now : Z) (r : Response) :
  nonempty (item_url entry) = true ->
  head client (item_url entry) = Ok r ->
  status_code r = 200%Z ->
  working (validate_channel_entry decode_ignore entry client now) = true
  /\ hls_compatible (validate_channel_entry decode_ignore entry client now)
     = mpegurl_content_type (AsBuilt.content_type (resp_headers r)).
Proof.
  intros Hurl Hhead H200.
  unfold validate_channel_entry, _head_or_get.
  rewrite Hurl, Hhead, H200. cbn [negb Z.eqb Pos.eqb].
  cbn -[_detect_hls_from_headers_and_sample].
  unfold _detect_hls_from_headers_and_sample.
  fold (AsBuilt.content_type (resp_headers r)).
  destruct (mpegurl_content_type (AsBuilt.content_type (resp_headers r))).
  - cbn. auto.
  - unfold content_type_fallback.
    destruct (contains "video" (AsBuilt.content_type (resp_headers r)));
      cbn; auto.
Qed.

Lemma head_200_is_judged_by_content_type_witness :
  working (validate_channel_entry Samples.decode_ascii Samples.alpha
             MoreSamples.head_ok 7%Z) = true
  /\ hls_compatible (validate_channel_entry Samples.decode_ascii
                       Samples.alpha MoreSamples.head_ok 7%Z)
     = mpegurl_content_type (AsBuilt.content_type Samples.octet_headers).
Proof.
  apply (head_200_is_judged_by_content_type Samples.decode_ascii
           Samples.alpha MoreSamples.head_ok 7%Z
           (mkResponse 200 Samples.octet_headers EmptyString));
    reflexivity.
Defined.

(** X7. The reason travels in [check_error].  Whenever a probe marks an
    entry [hls_compatible], its [check_error] holds the classifier's reason:
    the field is set although nothing went wrong. *)
Theorem compatible_result_carries_reason
        (decode_ignore : string -> string) (entry : Item) (client : Client)
        (now : Z) :
  hls_compatible (validate_channel_entry decode_ignore entry client now)
  = true ->
  truthy (check_error
            (validate_channel_entry decode_ignore entry client now)) = true.
Proof.
  unfold validate_channel_entry.
  destruct (negb (nonempty (item_url entry))); [discriminate|].
  destruct (_head_or_get (item_url entry) client)
    as [[[status headers] sample]|e]; [|discriminate].
  destruct ((status =? 0)%Z || (400 <=? status)%Z); [discriminate|].
  pose proof (classifier_verdicts decode_ignore headers sample) as Hv.
  destruct (_detect_hls_from_headers_and_sample decode_ignore headers sample)
    as [is_hls reason].
  simpl in Hv. destruct (truthy reason) eqn:Hreason; cbn.
  - intros _. exact Hreason.
  - intros ->. destruct (Hv eq_refl) as [Ht _]. congruence.
Qed.

Lemma compatible_result_carries_reason_witness :
  truthy (check_error
            (validate_channel_entry Samples.decode_ascii Samples.alpha
               MoreSamples.playlist_server 7%Z)) = true.
Proof.
  apply (compatible_result_carries_reason Samples.decode_ascii Samples.alpha
           MoreSamples.playlist_server 7%Z).
  vm_compute. reflexivity.
Defined.

(** ** Further properties of the caches and of the validation job *)

Lemma preserves_bind {A B X : Type} (f : World -> X)
      (c : M A) (k : A -> M B) :
  preserves f c -> (forall a, preserves f (k a)) -> preserves f (bind c k).
Proof.
  intros Hc Hk w. rewrite bind_run. now rewrite Hk, Hc.
Qed.

Lemma preserves_ret {A X : Type} (f : World -> X) (a : A) :
  preserves f (ret a).
Proof. now intros w. Qed.

(** Peel the binds of a coroutine and close the leaves by computation. *)
Ltac preserves_step :=
  repeat first
    [ apply preserves_ret
    | assumption
    | apply preserves_bind; [| intros ?]
    | match goal with
      | |- preserves _ (match ?x with _ => _ end) => destruct x
      | |- preserves _ (if ?b then _ else _) => destruct b
      end
    | solve [intros ?; reflexivity] ].

Lemma record_one_store (E : Env) (ent : Item) (res : Res ValidationResult)
      (w : World) :
  exists v : ValidationResult,
    stored_as res v
    /\ results_of (record_one E ent res w).2
       = <[item_url ent := v]> (results_of w)
    /\ probes (record_one E ent res w).2 = probes w
    /\ items (_channels_cache (record_one E ent res w).2)
       = items (_channels_cache w).
Proof.
  unfold results_of, record_one, bind, store_result, bump_errors,
    bump_validated, update_progress, get_job, get_cache, put_job, put_cache,
    utcnow, ret.
  destruct res as [r|e].
  - exists r. destruct (working r); cbn; auto.
  - exists (failed_result (utcnow_at E (clock_reads w)) e). cbn.
    repeat split; eauto.
Qed.

Lemma record_results_files (E : Env) (slice_items : list Item) :
  distinct_urls slice_items ->
  forall (results : list (Res ValidationResult)) (i : nat) (w : World),
    i + length results <= length slice_items ->
    (forall (k : nat) (res : Res ValidationResult) (ent : Item),
        results !! k = Some res -> slice_items !! (i + k) = Some ent ->
        exists v,
          results_of (record_results E slice_items results i w).2
            !! item_url ent = Some v
          /\ stored_as res v)
    /\ (forall url : string,
           (forall (k : nat) (ent : Item),
               k < length results -> slice_items !! (i + k) = Some ent ->
               item_url ent <> url) ->
           results_of (record_results E slice_items results i w).2 !! url
           = results_of w !! url)
    /\ probes (record_results E slice_items results i w).2 = probes w
    /\ items (_channels_cache (record_results E slice_items results i w).2)
       = items (_channels_cache w).
Proof.
  intros Hdistinct.
  induction results as [|res more IH]; intros i w Hlen.
  - simpl. repeat split; try reflexivity. intros k res ent Hk. discriminate.
  - simpl in Hlen. cbn [record_results].
    destruct (lookup_lt_is_Some_2 slice_items i) as [ent Hent]; [lia|].
    rewrite Hent, bind_run.
    destruct (record_one_store E ent res w) as (v & Hv & Hmap & Hprobes & Hitems).
    set (w1 := (record_one E ent res w).2) in *.
    destruct (IH (i + 1) w1) as (Hfiled & Hframe & Hp & Hi); [lia|].
    split; [|split; [|split]].
    + intros k res' ent' Hres Hent'. destruct k as [|k].
      * simpl in Hres. injection Hres as <-.
        replace (i + 0) with i in Hent' by lia.
        rewrite Hent in Hent'. injection Hent' as <-.
        exists v. split; [|exact Hv].
        rewrite Hframe, Hmap; [apply lookup_insert_eq|].
        intros k ent' Hk Hent' Heq.
        pose proof (Hdistinct _ _ _ _ Hent' Hent Heq). lia.
      * simpl in Hres.
        apply (Hfiled k res' ent' Hres).
        now replace (i + 1 + k) with (i + S k) by lia.
    + intros url Hother.
      rewrite Hframe.
      * rewrite Hmap. apply lookup_insert_ne.
        apply (Hother 0 ent); [simpl; lia|].
        now replace (i + 0) with i by lia.
      * intros k ent' Hk Hent'. apply (Hother (S k) ent'); [simpl; lia|].
        now replace (i + S k) with (i + 1 + k) by lia.
    + now rewrite Hp.
    + now rewrite Hi.
Qed.

Lemma distinct_urls_chunk (its : list Item) (idx n : nat) :
  distinct_urls its -> distinct_urls (take n (drop idx its)).
Proof.
  intros Hd a b ea eb Ha Hb Heq.
  apply lookup_take_Some in Ha as [Ha Han], Hb as [Hb Hbn].
  rewrite lookup_drop in Ha, Hb.
  pose proof (Hd _ _ _ _ Ha Hb Heq). lia.
Qed.

Lemma NoDup_distinct_urls (its : list Item) :
  NoDup (map item_url its) -> distinct_urls its.
Proof.
  intros Hnd a b ea eb Ha Hb Heq.
  apply (NoDup_lookup (map item_url its) a b (item_url ea) Hnd).
  - change (map item_url its) with (item_url <$> its).
    now rewrite list_lookup_fmap, Ha.
  - change (map item_url its) with (item_url <$> its).
    now rewrite list_lookup_fmap, Hb, Heq.
Qed.

(** The chunk loop over a list in which every item is a task: every item
    from [idx] on ends with the outcome of its own probe stored under its
    own URL, and no other entry of the cache changes. *)
Lemma chunk_loop_files (E : Env) (its : list Item) :
  distinct_urls its ->
  forall (fuel idx : nat) (w : World),
    length its - idx <= fuel ->
    (forall (k : nat) (it : Item),
        its !! k = Some it -> idx <= k ->
        exists v,
          results_of (chunk_loop E fuel its its idx w).2 !! item_url it
          = Some v
          /\ stored_as (probe_at E (probes w + (k - idx)) it) v)
    /\ (forall url : string,
           (forall (k : nat) (it : Item),
               its !! k = Some it -> idx <= k -> item_url it <> url) ->
           results_of (chunk_loop E fuel its its idx w).2 !! url
           = results_of w !! url)
    /\ items (_channels_cache (chunk_loop E fuel its its idx w).2)
       = items (_channels_cache w).
Proof.
  intros Hdistinct. pose proof chunk_size_pos as Hpos.
  induction fuel as [|fuel IH]; intros idx w Hfuel.
  - simpl. repeat split; try reflexivity.
    intros k it Hk Hidx. apply lookup_lt_Some in Hk. lia.
  - cbn [chunk_loop]. destruct (idx <? length its) eqn:Hin.
    2:{ apply Nat.ltb_ge in Hin. simpl. repeat split; try reflexivity.
        intros k it Hk Hidx. apply lookup_lt_Some in Hk. lia. }
    apply Nat.ltb_lt in Hin.
    set (chunk := take chunk_size (drop idx its)).
    rewrite !bind_run.
    set (results := (gather E chunk w).1).
    set (w1 := (gather E chunk w).2).
    assert (Hresults : results
                       = imap (fun i e => probe_at E (probes w + i) e) chunk)
      by reflexivity.
    assert (Hw1 : results_of w1 = results_of w
                  /\ probes w1 = probes w + length chunk
                  /\ items (_channels_cache w1) = items (_channels_cache w))
      by (repeat split; reflexivity).
    destruct Hw1 as (Hmap1 & Hprobes1 & Hitems1).
    clearbody results w1.
    assert (Hlen : length results = length chunk)
      by (rewrite Hresults; apply length_imap).
    destruct (record_results_files E chunk
                (distinct_urls_chunk its idx chunk_size Hdistinct)
                results 0 w1) as (Hfiled & Hframe & Hprobes2 & Hitems2);
      [simpl; lia|].
    set (w2 := (record_results E chunk results 0 w1).2) in *.
    destruct (IH (idx + chunk_size) w2) as (Hlater & Hrest & Hitems3);
      [lia|].
    split; [|split].
    + intros k it Hk Hidx.
      destruct (Nat.lt_ge_cases k (idx + chunk_size)) as [Hnear | Hfar].
      * assert (Hchunk : chunk !! (k - idx) = Some it).
        { unfold chunk. rewrite lookup_take_lt by lia.
          rewrite lookup_drop. now replace (idx + (k - idx)) with k by lia. }
        destruct (Hfiled (k - idx) (probe_at E (probes w + (k - idx)) it) it)
          as (v & Hv & Hstored).
        { rewrite Hresults, list_lookup_imap, Hchunk. reflexivity. }
        { exact Hchunk. }
        exists v. split; [|exact Hstored].
        rewrite Hrest; [exact Hv|].
        intros k' it' Hk' Hidx' Heq.
        pose proof (Hdistinct _ _ _ _ Hk' Hk Heq). lia.
      * destruct (Hlater k it Hk Hfar) as (v & Hv & Hstored).
        exists v. split; [exact Hv|].
        assert (Hfull : length chunk = chunk_size).
        { unfold chunk. rewrite length_take, length_drop.
          apply lookup_lt_Some in Hk. lia. }
        replace (probes w + (k - idx))
          with (probes w2 + (k - (idx + chunk_size))); [exact Hstored|].
        rewrite Hprobes2, Hprobes1, Hfull. lia.
    + intros url Hother.
      rewrite Hrest, Hframe, Hmap1; [reflexivity | |].
      * intros k ent Hk Hent. simpl in Hent.
        unfold chunk in Hent. apply lookup_take_Some in Hent as [Hent _].
        rewrite lookup_drop in Hent. apply (Hother _ _ Hent). lia.
      * intros k it Hk Hidx. apply (Hother _ _ Hk). lia.
    + now rewrite Hitems3, Hitems2, Hitems1.
Qed.

Lemma filter_all {A : Type} (p : A -> bool) (l : list A) :
  Forall (fun x => p x = true) l -> List.filter p l = l.
Proof.
  induction 1 as [|x l Hx _ IH]; simpl; [reflexivity|].
  now rewrite Hx, IH.
Qed.

Lemma store_result_keeps_list (url : string) (res : ValidationResult) :
  preserves cached_list (store_result url res).
Proof. now intros w. Qed.

Lemma record_one_keeps_list (E : Env) (ent : Item)
      (res : Res ValidationResult) :
  preserves cached_list (record_one E ent res).
Proof.
  intros w. destruct (record_one_store E ent res w) as (v & _ & _ & _ & H).
  exact H.
Qed.

Lemma record_results_keeps_list (E : Env) (slice_items : list Item) :
  forall (results : list (Res ValidationResult)) (i : nat),
    preserves cached_list (record_results E slice_items results i).
Proof.
  induction results as [|res more IH]; intros i; simpl.
  - apply preserves_ret.
  - destruct (slice_items !! i); [|apply IH].
    apply preserves_bind; [apply record_one_keeps_list | intros _; apply IH].
Qed.

Lemma chunk_loop_keeps_list (E : Env) (its tasks : list Item) :
  forall fuel idx : nat,
    preserves cached_list (chunk_loop E fuel its tasks idx).
Proof.
  induction fuel as [|fuel IH]; intros idx; simpl.
  - apply preserves_ret.
  - destruct (idx <? length tasks); [|apply preserves_ret].
    apply preserves_bind; [now intros w|]. intros results.
    apply preserves_bind; [apply record_results_keeps_list|].
    intros _. apply IH.
Qed.

(** What a load that returns [l] leaves behind: [l] is the cached list, and
    neither the validation cache nor the probe count has changed. *)
Lemma load_channels_returns_cached (E : Env) (force : bool) (w : World)
      (l : list Item) :
  (_load_channels E force w).1 = Ok l ->
  cached_list (_load_channels E force w).2 = Some l
  /\ results_of (_load_channels E force w).2 = results_of w
  /\ probes (_load_channels E force w).2 = probes w.
Proof.
  unfold cached_list, results_of, _load_channels, cached_items, bind,
    get_cache, put_cache, utcnow, _fetch_channel_index_text, ret.
  destruct w as [[its loaded m] j c f p b]; cbn.
  destruct its as [[|it its]|]; destruct loaded as [t|]; cbn;
    repeat match goal with
           | |- context [if ?b then _ else _] => destruct b; cbn
           | |- context [match fetch_index_at E ?n with _ => _ end] =>
               destruct (fetch_index_at E n); cbn
           end;
    intros H; try discriminate; injection H as <-; auto.
Qed.

Lemma start_job_keeps (E : Env) (w : World) :
  _channels_cache (start_job E w).2 = _channels_cache w
  /\ probes (start_job E w).2 = probes w
  /\ _validation_job (start_job E w).2
     = mkJob true (Some (utcnow_at E (clock_reads w))) None 0 0 0 0%Q.
Proof. now unfold start_job, bind, utcnow, put_job. Qed.

Lemma finish_job_keeps_list (E : Env) :
  preserves cached_list (finish_job E).
Proof. now intros w. Qed.

(** The [try] block with a list of distinct, non-empty URLs. *)
Lemma body_files (E : Env) (force_refresh : bool) (w : World)
      (its : list Item) :
  (validate_all_body E force_refresh w).1 = Ok tt ->
  cached_list (validate_all_body E force_refresh w).2 = Some its ->
  Forall (fun it => nonempty (item_url it) = true) its ->
  distinct_urls its ->
  forall (k : nat) (it : Item),
    its !! k = Some it ->
    exists v,
      results_of (validate_all_body E force_refresh w).2 !! item_url it
      = Some v
      /\ stored_as (probe_at E (probes w + k) it) v.
Proof.
  unfold validate_all_body. rewrite bind_run.
  pose proof (load_channels_returns_cached E force_refresh w) as Hload.
  destruct (_load_channels E force_refresh w) as [[l|e] w1];
    cbn [fst snd] in *; [|discriminate].
  destruct (Hload l eq_refl) as (Hlist & Hmap & Hprobes). clear Hload.
  rewrite !bind_run. cbn [get_job put_job fst snd].
  set (w2 := mkWorld _ _ _ _ _ _).
  assert (Hw2 : cached_list w2 = Some l /\ probes w2 = probes w)
    by (split; [exact Hlist | exact Hprobes]).
  destruct Hw2 as [Hlist2 Hprobes2]. clearbody w2.
  destruct (length (map item_url _) =? 0) eqn:Hnone.
  - cbn [ret fst snd]. intros _ Hsame Hurls _ k it Hk.
    rewrite Hlist2 in Hsame. injection Hsame as ->.
    rewrite (filter_all _ its Hurls), length_map in Hnone.
    apply Nat.eqb_eq in Hnone. apply lookup_lt_Some in Hk. lia.
  - rewrite bind_run. cbn [ret fst snd].
    intros _ Hsame Hurls Hdistinct k it Hk.
    rewrite chunk_loop_keeps_list, Hlist2 in Hsame.
    injection Hsame as ->.
    rewrite (filter_all _ its Hurls).
    destruct (chunk_loop_files E its Hdistinct (length its) 0 w2)
      as (Hfiled & _); [lia|].
    destruct (Hfiled k it Hk) as (v & Hv & Hstored); [lia|].
    exists v. split; [exact Hv|].
    now rewrite Hprobes2, Nat.sub_0_r in Hstored.
Qed.

(** X8. The bulk job files every result under its own URL.  After a job
    that was started from idle and ended without error, over a channel list
    whose URLs are non-empty and distinct, the validation cache holds, for
    the [k]-th channel, the outcome of the [k]-th probe of this run, which
    is the probe of that channel. *)
Theorem bulk_job_files_each_result
        (E : Env) (force_refresh : bool) (w : World) (its : list Item)
        (k : nat) (it : Item) :
  running (_validation_job w) = false ->
  (validate_all_channels E force_refresh w).1 = Ok tt ->
  cached_list (validate_all_channels E force_refresh w).2 = Some its ->
  Forall (fun it => nonempty (item_url it) = true) its ->
  NoDup (map item_url its) ->
  its !! k = Some it ->
  exists v,
    results_of (validate_all_channels E force_refresh w).2 !! item_url it
    = Some v
    /\ stored_as (probe_at E (probes w + k) it) v.
Proof.
  intros Hidle. unfold validate_all_channels.
  rewrite bind_run. cbn [get_job fst snd]. rewrite Hidle, !bind_run.
  cbn [ret fst snd].
  destruct (start_job_keeps E w) as (Hcache0 & Hprobes0 & _).
  set (w0 := (start_job E w).2) in *.
  intros Hok Hlist Hurls Hnodup Hk.
  rewrite finish_job_keeps_list in Hlist.
  destruct (body_files E force_refresh w0 its Hok Hlist Hurls
              (NoDup_distinct_urls its Hnodup) k it Hk)
    as (v & Hv & Hstored).
  exists v. split.
  - unfold results_of in *.
    now rewrite (proj1 (finish_job_keeps E _)).
  - now rewrite Hprobes0 in Hstored.
Qed.

Lemma bulk_job_files_each_result_witness :
  exists v,
    results_of
      (validate_all_channels (Samples.world_of Samples.changing_index) false
         Samples.nothing_validated).2 !! "http://b/live" = Some v
    /\ stored_as
         (probe_at (Samples.world_of Samples.changing_index) (0 + 1)
            Samples.beta) v.
Proof.
  apply (bulk_job_files_each_result
           (Samples.world_of Samples.changing_index) false
           Samples.nothing_validated [Samples.alpha; Samples.beta] 1
           Samples.beta).
  - reflexivity.
  - vm_compute. reflexivity.
  - vm_compute. reflexivity.
  - repeat constructor.
  - vm_compute. constructor.
    + intros H%list_elem_of_In. destruct H as [H|[]]. discriminate H.
    + constructor; [|constructor]. intros H%list_elem_of_In. destruct H.
  - reflexivity.
Defined.

Lemma as_result_store (E : Env) (url : string)
      (candidate : Res ValidationResult) (w : World) :
  exists v : ValidationResult,
    stored_as candidate v
    /\ results_of
         (bind (as_result E candidate) (fun res => store_result url res) w).2
       = <[url := v]> (results_of w)
    /\ probes
         (bind (as_result E candidate) (fun res => store_result url res) w).2
       = probes w.
Proof.
  unfold results_of, as_result, bind, store_result, get_cache, put_cache,
    utcnow, ret.
  destruct candidate as [r|e]; cbn.
  - exists r. auto.
  - exists (failed_result (utcnow_at E (clock_reads w)) e). eauto.
Qed.

Lemma attach_results_step (E : Env) (e : Item) (rest : list Item)
      (results : list (Res ValidationResult)) (idx : nat)
      (candidate : Res ValidationResult) (w : World) :
  nonempty (item_url e) = true ->
  results !! idx = Some candidate ->
  attach_results E (e :: rest) results idx w
  = attach_results E rest results (idx + 1)
      (bind (as_result E candidate)
            (fun res => store_result (item_url e) res) w).2.
Proof.
  intros He Hc. cbn [attach_results]. rewrite He, Hc. cbn [negb].
  unfold bind. destruct (as_result E candidate w) as [res w1].
  now destruct (store_result (item_url e) res w1).
Qed.

(** The second loop of page validation when no entry was skipped. *)
Lemma attach_results_files (E : Env)
      (results : list (Res ValidationResult)) :
  forall (rest : list Item) (idx : nat) (w : World),
    Forall (fun e => nonempty (item_url e) = true) rest ->
    distinct_urls rest ->
    idx + length rest <= length results ->
    (forall (k : nat) (ent : Item) (res : Res ValidationResult),
        rest !! k = Some ent -> results !! (idx + k) = Some res ->
        exists v,
          results_of (attach_results E rest results idx w).2 !! item_url ent
          = Some v
          /\ stored_as res v)
    /\ (forall url : string,
           ~ In url (map item_url rest) ->
           results_of (attach_results E rest results idx w).2 !! url
           = results_of w !! url)
    /\ probes (attach_results E rest results idx w).2 = probes w.
Proof.
  induction rest as [|e rest IH]; intros idx w Hurls Hdistinct Hlen.
  - simpl. repeat split; try reflexivity. intros k ent res Hk. discriminate.
  - simpl in Hlen.
    destruct (lookup_lt_is_Some_2 results idx) as [candidate Hc]; [lia|].
    apply Forall_cons in Hurls as [He Hurls].
    rewrite (attach_results_step E e rest results idx candidate w He Hc).
    destruct (as_result_store E (item_url e) candidate w)
      as (v & Hv & Hmap & Hprobes).
    set (w1 := (bind _ _ w).2) in *.
    assert (Hdrest : distinct_urls rest).
    { intros a b ea eb Ha Hb Heq.
      pose proof (Hdistinct (S a) (S b) ea eb Ha Hb Heq). lia. }
    destruct (IH (idx + 1) w1 Hurls Hdrest) as (Hfiled & Hframe & Hp);
      [lia|].
    split; [|split].
    + intros k ent res Hk Hres. destruct k as [|k].
      * simpl in Hk. injection Hk as <-.
        replace (idx + 0) with idx in Hres by lia.
        rewrite Hc in Hres. injection Hres as <-.
        exists v. split; [|exact Hv].
        rewrite Hframe, Hmap; [apply lookup_insert_eq|].
        intros Hin. apply in_map_iff in Hin as (e' & Heq & Hin).
        apply list_elem_of_In, list_elem_of_lookup in Hin as [j Hj].
        pose proof (Hdistinct (S j) 0 e' e Hj eq_refl Heq). lia.
      * simpl in Hk. apply (Hfiled k ent res Hk).
        now replace (idx + 1 + k) with (idx + S k) by lia.
    + intros url Hout. simpl in Hout.
      rewrite Hframe by tauto. rewrite Hmap.
      apply lookup_insert_ne. tauto.
    + now rewrite Hp.
Qed.

(** X9. Page validation without a skip is sound.  When every entry of the
    page has a URL, none has a fresh cached result and the URLs are
    distinct, page validation stores for the [k]-th entry the outcome of
    the [k]-th probe, which is the probe of that entry. *)
Theorem page_validation_files_when_nothing_is_fresh
        (E : Env) (entries : list Item) (w : World) (k : nat) (e : Item) :
  Forall (fun e => to_probe (utcnow_at E (clock_reads w)) (results_of w) e
                   = true) entries ->
  NoDup (map item_url entries) ->
  entries !! k = Some e ->
  exists v,
    results_of (validate_channels_for_list E entries w).2 !! item_url e
    = Some v
    /\ stored_as (probe_at E (probes w + k) e) v.
Proof.
  intros Hall Hnodup Hk.
  unfold validate_channels_for_list.
  rewrite !bind_run. cbn [utcnow get_cache fst snd].
  set (w0 := mkWorld _ _ _ _ _ _).
  change (validated_map (_channels_cache w0)) with (results_of w).
  rewrite (filter_all _ entries Hall).
  destruct entries as [|e0 rest] eqn:Hentries; [discriminate|].
  rewrite <- Hentries in *. rewrite bind_run.
  set (results := (gather E entries w0).1).
  set (w1 := (gather E entries w0).2).
  assert (Hresults : results
                     = imap (fun i x => probe_at E (probes w + i) x) entries)
    by reflexivity.
  assert (Hw1 : results_of w1 = results_of w) by reflexivity.
  clearbody results w1.
  destruct (attach_results_files E results entries 0 w1) as (Hfiled & _).
  - apply Forall_forall. intros x Hx.
    rewrite Forall_forall in Hall. specialize (Hall x Hx).
    unfold to_probe in Hall. now apply andb_true_iff in Hall as [Hne _].
  - now apply NoDup_distinct_urls.
  - rewrite Hresults, length_imap. simpl. lia.
  - apply (Hfiled k e (probe_at E (probes w + k) e) Hk).
    rewrite Hresults, list_lookup_imap. simpl. now rewrite Hk.
Qed.

Lemma page_validation_files_when_nothing_is_fresh_witness :
  exists v,
    results_of
      (validate_channels_for_list (Samples.world_of (fun _ => EmptyString))
         [Samples.alpha; Samples.beta] Samples.nothing_validated).2
      !! "http://b/live" = Some v
    /\ stored_as
         (probe_at (Samples.world_of (fun _ => EmptyString)) (0 + 1)
            Samples.beta) v.
Proof.
  apply (page_validation_files_when_nothing_is_fresh
           (Samples.world_of (fun _ => EmptyString))
           [Samples.alpha; Samples.beta] Samples.nothing_validated 1
           Samples.beta).
  - repeat constructor.
  - vm_compute. constructor.
    + intros H%list_elem_of_In. destruct H as [H|[]]. discriminate H.
    + constructor; [|constructor]. intros H%list_elem_of_In. destruct H.
  - reflexivity.
Defined.

Lemma attach_results_touch (E : Env)
      (results : list (Res ValidationResult)) :
  forall (rest : list Item) (idx : nat) (w : World),
    probes (attach_results E rest results idx w).2 = probes w
    /\ forall url : string,
         ~ In url (map item_url rest) ->
         results_of (attach_results E rest results idx w).2 !! url
         = results_of w !! url.
Proof.
  induction rest as [|e rest IH]; intros idx w; [now split|].
  destruct (nonempty (item_url e)) eqn:He.
  - destruct (results !! idx) as [candidate|] eqn:Hc.
    + rewrite (attach_results_step E e rest results idx candidate w He Hc).
      destruct (as_result_store E (item_url e) candidate w)
        as (v & _ & Hmap & Hprobes).
      destruct (IH (idx + 1)
                  (bind (as_result E candidate)
                        (fun res => store_result (item_url e) res) w).2)
        as [Hp Hf].
      split; [now rewrite Hp|].
      intros url Hout. simpl in Hout. rewrite Hf by tauto.
      rewrite Hmap. apply lookup_insert_ne. tauto.
    + assert (Heq : attach_results E (e :: rest) results idx w
                    = attach_results E rest results idx w)
        by (cbn [attach_results]; now rewrite He, Hc).
      rewrite Heq. destruct (IH idx w) as [Hp Hf]. split; [exact Hp|].
      intros url Hout. apply Hf. simpl in Hout. tauto.
  - assert (Heq : attach_results E (e :: rest) results idx w
                  = attach_results E rest results idx w)
      by (cbn [attach_results]; now rewrite He).
    rewrite Heq. destruct (IH idx w) as [Hp Hf]. split; [exact Hp|].
    intros url Hout. apply Hf. simpl in Hout. tauto.
Qed.

(** X10. What page validation touches.  Page validation runs one probe for
    each entry that has a URL and no fresh cached result, and none for the
    others; it changes the validation cache at the URLs of the page only,
    and not at all when nothing is to be probed. *)
Theorem page_validation_probes_and_frame
        (E : Env) (entries : list Item) (w : World) :
  let now := utcnow_at E (clock_reads w) in
  let w' := (validate_channels_for_list E entries w).2 in
  probes w' = probes w
              + length (List.filter (to_probe now (results_of w)) entries)
  /\ (forall url : string,
         ~ In url (map item_url entries) ->
         results_of w' !! url = results_of w !! url)
  /\ (List.filter (to_probe now (results_of w)) entries = [] ->
      _channels_cache w' = _channels_cache w).
Proof.
  cbv zeta. unfold validate_channels_for_list.
  rewrite !bind_run. cbn [utcnow get_cache fst snd].
  set (w0 := mkWorld _ _ _ _ _ _).
  change (validated_map (_channels_cache w0)) with (results_of w).
  destruct (List.filter _ entries) as [|t tasks] eqn:Htasks.
  - cbn [ret fst snd length]. repeat split; auto.
  - rewrite bind_run.
    destruct (attach_results_touch E (gather E (t :: tasks) w0).1 entries 0
                (gather E (t :: tasks) w0).2) as [Hp Hf].
    split; [|split].
    + rewrite Hp. reflexivity.
    + intros url Hout. now rewrite Hf.
    + discriminate.
Qed.

Lemma page_validation_probes_and_frame_witness :
  _channels_cache
    (validate_channels_for_list (Samples.world_of (fun _ => EmptyString))
       [Samples.alpha] Samples.alpha_fresh).2
  = _channels_cache Samples.alpha_fresh.
Proof.
  apply (proj2 (proj2 (page_validation_probes_and_frame
                         (Samples.world_of (fun _ => EmptyString))
                         [Samples.alpha] Samples.alpha_fresh))).
  vm_compute. reflexivity.
Defined.

Lemma record_results_touch (E : Env) (slice_items : list Item) :
  forall (results : list (Res ValidationResult)) (i : nat) (w : World)
         (url : string),
    ~ In url (map item_url slice_items) ->
    results_of (record_results E slice_items results i w).2 !! url
    = results_of w !! url.
Proof.
  induction results as [|res more IH]; intros i w url Hout; [reflexivity|].
  cbn [record_results].
  destruct (slice_items !! i) as [ent|] eqn:Hent; [|now apply IH].
  rewrite bind_run, IH by exact Hout.
  destruct (record_one_store E ent res w) as (v & _ & Hmap & _).
  rewrite Hmap. apply lookup_insert_ne. intros Heq. apply Hout.
  apply in_map_iff. exists ent. split; [exact Heq|].
  apply list_elem_of_In, list_elem_of_lookup. eauto.
Qed.

Lemma chunk_loop_touch (E : Env) (its tasks : list Item) (url : string) :
  ~ In url (map item_url its) ->
  forall (fuel idx : nat) (w : World),
    results_of (chunk_loop E fuel its tasks idx w).2 !! url
    = results_of w !! url.
Proof.
  intros Hout. induction fuel as [|fuel IH]; intros idx w; [reflexivity|].
  cbn [chunk_loop]. destruct (idx <? length tasks); [|reflexivity].
  rewrite !bind_run, IH, record_results_touch; [reflexivity|].
  intros Hin. apply Hout.
  apply in_map_iff in Hin as (ent & Heq & Hin).
  apply in_map_iff. exists ent. split; [exact Heq|].
  apply list_elem_of_In in Hin. apply list_elem_of_In.
  apply (subseteq_take chunk_size), (subseteq_drop idx) in Hin.
  exact Hin.
Qed.

(** X11. What the bulk job touches.  A bulk job changes the validation cache
    only at URLs of the channel list it ends with; the entry of any other
    URL, such as a channel that left the index, stays exactly as it was. *)
Theorem bulk_job_touches_listed_urls_only
        (E : Env) (force_refresh : bool) (w : World) (url : string) :
  (forall its : list Item,
      cached_list (validate_all_channels E force_refresh w).2 = Some its ->
      ~ In url (map item_url its)) ->
  results_of (validate_all_channels E force_refresh w).2 !! url
  = results_of w !! url.
Proof.
  unfold validate_all_channels. rewrite bind_run. cbn [get_job fst snd].
  destruct (running (_validation_job w)); [reflexivity|].
  rewrite !bind_run. cbn [ret fst snd].
  destruct (start_job_keeps E w) as (Hcache0 & _ & _).
  set (w0 := (start_job E w).2) in *.
  rewrite finish_job_keeps_list.
  unfold results_of at 1. rewrite (proj1 (finish_job_keeps E _)).
  fold (results_of (validate_all_body E force_refresh w0).2).
  replace (results_of w) with (results_of w0)
    by (unfold results_of; now rewrite Hcache0).
  clearbody w0. clear Hcache0.
  unfold validate_all_body. rewrite bind_run.
  pose proof (load_channels_returns_cached E force_refresh w0) as Hload.
  pose proof (load_channels_keeps_results E force_refresh w0) as [Hkeep _].
  destruct (_load_channels E force_refresh w0) as [[l|e] w1];
    cbn [fst snd] in *.
  - destruct (Hload l eq_refl) as (Hlist & Hmap & _). clear Hload.
    rewrite !bind_run. cbn [get_job put_job fst snd].
    set (w2 := mkWorld _ _ _ _ _ _).
    assert (Hw2 : cached_list w2 = Some l /\ results_of w2 = results_of w0)
      by (split; [exact Hlist | exact Hmap]).
    destruct Hw2 as [Hlist2 Hmap2]. clearbody w2.
    destruct (length _ =? 0).
    + cbn [ret fst snd]. intros _. now rewrite Hmap2.
    + rewrite bind_run. cbn [ret fst snd].
      rewrite chunk_loop_keeps_list. intros Hout.
      rewrite chunk_loop_touch; [now rewrite Hmap2|].
      apply Hout. exact Hlist2.
  - cbn [ret fst snd]. intros _. unfold results_of. now rewrite Hkeep.
Qed.

Lemma bulk_job_touches_listed_urls_only_witness :
  let E := Samples.world_of Samples.changing_index in
  let w1 := (validate_all_channels E false Samples.nothing_validated).2 in
  results_of (validate_all_channels E true w1).2 !! "http://a/live"
  = results_of w1 !! "http://a/live".
Proof.
  intros E w1.
  apply (bulk_job_touches_listed_urls_only E true w1 "http://a/live").
  intros its Hits. vm_compute in Hits. injection Hits as <-.
  intros [H|[]]. discriminate H.
Defined.

Lemma record_one_counts (E : Env) (ent : Item) (res : Res ValidationResult)
      (w : World) :
  validated (_validation_job (record_one E ent res w).2)
  + errors (_validation_job (record_one E ent res w).2)
  <= validated (_validation_job w) + errors (_validation_job w) + 1
  /\ total (_validation_job (record_one E ent res w).2)
     = total (_validation_job w)
  /\ running (_validation_job (record_one E ent res w).2)
     = running (_validation_job w)
  /\ started_at (_validation_job (record_one E ent res w).2)
     = started_at (_validation_job w).
Proof.
  unfold record_one, bind, store_result, bump_errors, bump_validated,
    update_progress, get_job, get_cache, put_job, put_cache, utcnow, ret.
  destruct res as [r|e]; [destruct (working r)|]; cbn;
    repeat split; lia.
Qed.

Lemma record_results_counts (E : Env) (slice_items : list Item) :
  forall (results : list (Res ValidationResult)) (i : nat) (w : World),
    validated (_validation_job (record_results E slice_items results i w).2)
    + errors (_validation_job (record_results E slice_items results i w).2)
    <= validated (_validation_job w) + errors (_validation_job w)
       + length results
    /\ total (_validation_job (record_results E slice_items results i w).2)
       = total (_validation_job w)
    /\ running (_validation_job (record_results E slice_items results i w).2)
       = running (_validation_job w)
    /\ started_at
         (_validation_job (record_results E slice_items results i w).2)
       = started_at (_validation_job w)
    /\ probes (record_results E slice_items results i w).2 = probes w.
Proof.
  induction results as [|res more IH]; intros i w.
  - simpl. repeat split; lia.
  - cbn [record_results length].
    destruct (slice_items !! i) as [ent|].
    + rewrite bind_run.
      destruct (record_one_counts E ent res w) as (Hc & Ht & Hr & Hs).
      destruct (record_one_store E ent res w) as (_ & _ & _ & Hp & _).
      destruct (IH (i + 1) (record_one E ent res w).2)
        as (Hc' & Ht' & Hr' & Hs' & Hp').
      repeat split; try congruence; lia.
    + destruct (IH (i + 1) w) as (Hc' & Ht' & Hr' & Hs' & Hp').
      repeat split; try congruence; lia.
Qed.

Lemma chunk_loop_counts (E : Env) (its tasks : list Item) :
  forall (fuel idx : nat) (w : World),
    length tasks - idx <= fuel ->
    validated (_validation_job (chunk_loop E fuel its tasks idx w).2)
    + errors (_validation_job (chunk_loop E fuel its tasks idx w).2)
    <= validated (_validation_job w) + errors (_validation_job w)
       + (length tasks - idx)
    /\ total (_validation_job (chunk_loop E fuel its tasks idx w).2)
       = total (_validation_job w)
    /\ running (_validation_job (chunk_loop E fuel its tasks idx w).2)
       = running (_validation_job w)
    /\ started_at (_validation_job (chunk_loop E fuel its tasks idx w).2)
       = started_at (_validation_job w)
    /\ probes (chunk_loop E fuel its tasks idx w).2
       = probes w + (length tasks - idx).
Proof.
  pose proof chunk_size_pos as Hpos.
  induction fuel as [|fuel IH]; intros idx w Hfuel.
  - simpl. repeat split; lia.
  - cbn [chunk_loop]. destruct (idx <? length tasks) eqn:Hin.
    2:{ apply Nat.ltb_ge in Hin. simpl. repeat split; lia. }
    apply Nat.ltb_lt in Hin. rewrite !bind_run.
    set (chunk := take chunk_size (drop idx tasks)).
    destruct (gather_length E chunk w) as (Hlen & Hcache & Hjob).
    assert (Hprobes : probes (gather E chunk w).2 = probes w + length chunk)
      by reflexivity.
    set (results := (gather E chunk w).1) in *.
    set (w1 := (gather E chunk w).2) in *.
    clearbody results w1.
    destruct (record_results_counts E (take chunk_size (drop idx its))
                results 0 w1) as (Hc & Ht & Hr & Hs & Hp).
    set (w2 := (record_results E _ results 0 w1).2) in *.
    destruct (IH (idx + chunk_size) w2) as (Hc' & Ht' & Hr' & Hs' & Hp');
      [lia|].
    assert (Hchunk : length chunk = Nat.min chunk_size (length tasks - idx))
      by (unfold chunk; now rewrite length_take, length_drop).
    rewrite Hjob in *.
    repeat split; try congruence; lia.
Qed.

Lemma body_counts (E : Env) (force_refresh : bool) (w : World) :
  validated (_validation_job w) = 0 ->
  errors (_validation_job w) = 0 ->
  total (_validation_job w) = 0 ->
  let w' := (validate_all_body E force_refresh w).2 in
  validated (_validation_job w') + errors (_validation_job w')
  <= total (_validation_job w')
  /\ probes w' = probes w + total (_validation_job w')
  /\ running (_validation_job w') = running (_validation_job w)
  /\ started_at (_validation_job w') = started_at (_validation_job w).
Proof.
  intros Hv He Ht. cbv zeta. unfold validate_all_body. rewrite bind_run.
  pose proof (load_channels_returns_cached E force_refresh w) as Hload.
  pose proof (load_channels_keeps_results E force_refresh w) as [_ Hjob].
  assert (Hfail : forall e,
             (_load_channels E force_refresh w).1 = Raise e ->
             probes (_load_channels E force_refresh w).2 = probes w).
  { unfold _load_channels, cached_items, bind, get_cache, put_cache, utcnow,
      _fetch_channel_index_text, ret.
    destruct w as [[its loaded m] j c f p b]; cbn.
    destruct its as [[|it its]|]; destruct loaded as [t|]; cbn;
      repeat match goal with
             | |- context [if ?b then _ else _] => destruct b; cbn
             | |- context [match fetch_index_at E ?n with _ => _ end] =>
                 destruct (fetch_index_at E n); cbn
             end; auto. }
  destruct (_load_channels E force_refresh w) as [[l|e] w1];
    cbn [fst snd] in *.
  - destruct (Hload l eq_refl) as (_ & _ & Hprobes). clear Hload Hfail.
    rewrite !bind_run. cbn [get_job put_job fst snd].
    rewrite length_map.
    set (tasks := List.filter (fun it => nonempty (item_url it)) l).
    set (w2 := mkWorld _ _ _ _ _ _).
    assert (Hw2 : validated (_validation_job w2) = 0
                  /\ errors (_validation_job w2) = 0
                  /\ total (_validation_job w2) = length tasks
                  /\ probes w2 = probes w
                  /\ running (_validation_job w2) = running (_validation_job w)
                  /\ started_at (_validation_job w2)
                     = started_at (_validation_job w))
      by (subst w2; cbn; rewrite Hjob; repeat split; auto).
    destruct Hw2 as (Hv2 & He2 & Ht2 & Hp2 & Hr2 & Hs2). clearbody w2.
    destruct (length tasks =? 0) eqn:Hnone.
    + apply Nat.eqb_eq in Hnone. cbn [ret fst snd].
      repeat split; try assumption; lia.
    + rewrite bind_run. cbn [ret fst snd].
      destruct (chunk_loop_counts E l tasks (length tasks) 0 w2)
        as (Hc & Ht' & Hr' & Hs' & Hp'); [lia|].
      repeat split; try congruence; lia.
  - cbn [ret fst snd]. rewrite Hjob, (Hfail e eq_refl).
    repeat split; lia.
Qed.

(** X12. The job's life cycle and counters.  A job started from idle always
    ends idle, with [started_at] as read at its start and [finished_at]
    stamped, also when the refresh fails; at its end the working and failed
    counts together never exceed the total, and the number of probes run is
    the total: every scheduled URL is probed exactly once. *)
Theorem job_ends_idle_with_sound_counters
        (E : Env) (force_refresh : bool) (w : World) :
  running (_validation_job w) = false ->
  let j := _validation_job (validate_all_channels E force_refresh w).2 in
  running j = false
  /\ started_at j = Some (utcnow_at E (clock_reads w))
  /\ (exists t : Z, finished_at j = Some t)
  /\ validated j + errors j <= total j
  /\ probes (validate_all_channels E force_refresh w).2
     = probes w + total j.
Proof.
  intros Hidle. cbv zeta. unfold validate_all_channels.
  rewrite bind_run. cbn [get_job fst snd]. rewrite Hidle, !bind_run.
  cbn [ret fst snd].
  destruct (start_job_keeps E w) as (_ & Hprobes0 & Hjob0).
  set (w0 := (start_job E w).2) in *.
  destruct (body_counts E force_refresh w0) as (Hc & Hp & Hr & Hs);
    try (rewrite Hjob0; reflexivity).
  set (w1 := (validate_all_body E force_refresh w0).2) in *.
  rewrite Hjob0 in Hr, Hs. cbn in Hr, Hs.
  unfold finish_job, bind, get_job, utcnow, put_job. cbn.
  repeat split; try assumption; eauto; lia.
Qed.

Lemma job_ends_idle_with_sound_counters_witness :
  let E := Samples.world_of Samples.changing_index in
  let j :=
    _validation_job
      (validate_all_channels E false Samples.nothing_validated).2 in
  running j = false
  /\ started_at j = Some (utcnow_at E (clock_reads Samples.nothing_validated))
  /\ (exists t : Z, finished_at j = Some t)
  /\ validated j + errors j <= total j
  /\ probes (validate_all_channels E false Samples.nothing_validated).2
     = probes Samples.nothing_validated + total j.
Proof.
  intros E.
  apply (job_ends_idle_with_sound_counters E false Samples.nothing_validated).
  reflexivity.
Defined.

(** ** Properties of the listing endpoints *)

Import PyMore Endpoints.

Lemma load_channels_keeps_probes (E : Env) (force : bool) (w : World) :
  probes (_load_channels E force w).2 = probes w.
Proof.
  unfold _load_channels, cached_items, bind, get_cache, put_cache, utcnow,
    _fetch_channel_index_text, ret.
  destruct w as [[its loaded m] j c f p b]; cbn.
  destruct its as [[|it its]|]; destruct loaded as [t|]; cbn;
    repeat match goal with
           | |- context [if ?b then _ else _] => destruct b; cbn
           | |- context [match fetch_index_at E ?n with _ => _ end] =>
               destruct (fetch_index_at E n); cbn
           end; auto.
Qed.

Lemma select_items_keeps (E : Env) (cat : Catalog) (q : option string)
      (refresh : bool) (w : World) :
  probes (select_items E cat q refresh w).2 = probes w
  /\ results_of (select_items E cat q refresh w).2 = results_of w
  /\ _validation_job (select_items E cat q refresh w).2 = _validation_job w.
Proof.
  assert (Hindex : forall k : Res (list Item) -> Res (list Item),
             let c := bind (_load_channels E refresh)
                           (fun loaded => ret (k loaded)) in
             probes (c w).2 = probes w
             /\ results_of (c w).2 = results_of w
             /\ _validation_job (c w).2 = _validation_job w).
  { intros k. cbv zeta. rewrite bind_run. cbn [ret fst snd].
    destruct (load_channels_keeps_results E refresh w) as [Hm Hj].
    unfold results_of. rewrite Hm, Hj, load_channels_keeps_probes. auto. }
  unfold select_items.
  set (from_index := bind (_load_channels E refresh) _).
  assert (Hfrom : probes (from_index w).2 = probes w
                  /\ results_of (from_index w).2 = results_of w
                  /\ _validation_job (from_index w).2 = _validation_job w).
  { subst from_index.
    specialize (Hindex (fun loaded =>
      match loaded with
      | Ok its =>
          Ok (if truthy q
              then List.filter (matches_query (lower (or_empty q))) its
              else its)
      | Raise e => Raise e
      end)).
    cbv zeta in Hindex. rewrite bind_run in Hindex |- *.
    destruct (_load_channels E refresh w) as [[its|e] w1]; exact Hindex. }
  destruct (if truthy q then _resolve_playlist_for_query cat q else None)
    as [sp|]; [|exact Hfrom].
  destruct (truthy (pl_url sp)); [|exact Hfrom].
  destruct (fetch_text_of cat (or_empty (pl_url sp))); now cbn.
Qed.

Lemma page_of_length (its : list Item) (page limit : nat) :
  length (page_of its page limit) <= limit.
Proof. unfold page_of. rewrite length_take. lia. Qed.

(** The shape of every answer of [list_channels]. *)
Lemma list_channels_shape (E : Env) (cat : Catalog) (page limit : nat)
      (q : option string) (refresh validate working_only : bool)
      (w : World) :
  let r := list_channels E cat page limit q refresh validate working_only w in
  match (select_items E cat q refresh w).1 with
  | Raise e => r.1 = Raise e
  | Ok its =>
      r.1 = Ok ((if working_only then List.filter is_working else id)
                  (map (to_channel (results_of r.2))
                       (page_of its page limit)))
  end.
Proof.
  cbv zeta. unfold list_channels. rewrite bind_run.
  destruct (select_items E cat q refresh w) as [[its|e] w1];
    cbn [fst snd]; [|reflexivity].
  rewrite !bind_run. cbn [get_cache fst snd].
  set (w2 := ((if validate
               then validate_channels_for_list E (page_of its page limit)
               else ret tt) w1).2).
  destruct working_only; [|reflexivity].
  rewrite bind_run. cbn [ret fst snd]. unfold only_working.
  rewrite !bind_run. cbn [get_cache fst snd].
  destruct (missing_validation_urls _ _) as [|u missing]; [reflexivity|].
  rewrite !bind_run. cbn [get_cache ret fst snd]. reflexivity.
Qed.

Lemma page_validation_covers_attach (E : Env)
      (results : list (Res ValidationResult)) :
  forall (rest : list Item) (idx : nat) (w : World),
    Forall (fun e => nonempty (item_url e) = true) rest ->
    idx + length rest <= length results ->
    Forall (fun e =>
              is_Some (results_of (attach_results E rest results idx w).2
                       !! item_url e)) rest.
Proof.
  induction rest as [|e rest IH]; intros idx w Hall Hlen; [constructor|].
  apply Forall_cons in Hall as [He Hall]. simpl in Hlen.
  destruct (lookup_lt_is_Some_2 results idx) as [candidate Hc]; [lia|].
  rewrite (attach_results_step E e rest results idx candidate w He Hc).
  destruct (as_result_store E (item_url e) candidate w)
    as (v & _ & Hmap & _).
  set (w1 := (bind (as_result E candidate)
                   (fun res => store_result (item_url e) res) w).2) in *.
  constructor.
  - pose proof (keeps_urls_attach E results rest (idx + 1) w1) as Hkeep.
    unfold known_urls in Hkeep. apply elem_of_dom. apply Hkeep.
    apply elem_of_dom. unfold results_of in Hmap. rewrite Hmap.
    rewrite lookup_insert_eq. eauto.
  - apply IH; [exact Hall|lia].
Qed.

(** Entries with a URL and no cached result all have a cached result after
    page validation. *)
Lemma page_validation_covers (E : Env) (entries : list Item) (w : World) :
  Forall (fun e => nonempty (item_url e) = true
                   /\ results_of w !! item_url e = None) entries ->
  Forall (fun e =>
            is_Some (results_of (validate_channels_for_list E entries w).2
                     !! item_url e)) entries.
Proof.
  intros Hall. unfold validate_channels_for_list.
  rewrite !bind_run. cbn [utcnow get_cache fst snd].
  set (w0 := mkWorld _ _ _ _ _ _).
  change (validated_map (_channels_cache w0)) with (results_of w).
  rewrite filter_all.
  2:{ eapply Forall_impl; [exact Hall|]. intros e [Hne Hnone].
      unfold to_probe. now rewrite Hne, Hnone. }
  destruct entries as [|e0 rest] eqn:Hentries; [constructor|].
  rewrite <- Hentries in *. rewrite bind_run.
  apply page_validation_covers_attach.
  - eapply Forall_impl; [exact Hall|]. now intros e [Hne _].
  - cbn [gather fst]. rewrite length_imap. lia.
Qed.

Lemma in_list_In (x : string) (l : list string) :
  in_list x l = true <-> In x l.
Proof.
  unfold in_list. rewrite existsb_exists. split.
  - intros (y & Hy & Heq). apply String.eqb_eq in Heq. now subst.
  - intros H. exists x. split; [exact H|apply String.eqb_refl].
Qed.

Lemma missing_validation_urls_spec
      (m m' : gmap string ValidationResult) (its : list Item) (u : string) :
  In u (missing_validation_urls m (map (to_channel m') its))
  <-> (exists it, In it its /\ item_url it = u)
      /\ nonempty u = true /\ m !! u = None.
Proof.
  unfold missing_validation_urls.
  rewrite <- list_elem_of_In, list_elem_of_omap. split.
  - intros (c & Hc & Hlacks).
    apply list_elem_of_In, in_map_iff in Hc as (it & <- & Hit).
    unfold lacks_validation in Hlacks. cbn [to_channel ch_url] in Hlacks.
    destruct (nonempty (item_url it)) eqn:Hne; [|discriminate].
    destruct (m !! item_url it) eqn:Hm; [discriminate|].
    injection Hlacks as <-. eauto.
  - intros ((it & Hit & <-) & Hne & Hm).
    exists (to_channel m' it). split.
    + apply list_elem_of_In, in_map. exact Hit.
    + unfold lacks_validation. cbn [to_channel ch_url].
      now rewrite Hne, Hm.
Qed.

Lemma only_working_covers (E : Env) (m' : gmap string ValidationResult)
      (page_items : list Item) (w : World) :
  let r := only_working E page_items (map (to_channel m') page_items) w in
  Forall (fun it => nonempty (item_url it) = true ->
                    is_Some (results_of r.2 !! item_url it)) page_items.
Proof.
  cbv zeta. unfold only_working. rewrite !bind_run.
  cbn [get_cache fst snd].
  change (validated_map (_channels_cache w)) with (results_of w).
  pose proof (missing_validation_urls_spec (results_of w) m' page_items)
    as Hspec.
  destruct (missing_validation_urls _ _) as [|u0 missing] eqn:Hmissing.
  - cbn [ret fst snd]. apply Forall_forall. intros it Hit Hne.
    destruct (results_of w !! item_url it) eqn:Hm; [eauto|].
    exfalso. apply (proj2 (Hspec (item_url it))).
    split; [|auto]. exists it. split; [now apply list_elem_of_In|reflexivity].
  - rewrite !bind_run. cbn [get_cache ret fst snd].
    set (to_validate := List.filter _ page_items).
    assert (Hcov : Forall (fun e => nonempty (item_url e) = true
                                    /\ results_of w !! item_url e = None)
                          to_validate).
    { apply Forall_forall. intros e He. subst to_validate.
      apply list_elem_of_In, filter_In in He as [_ He].
      apply in_list_In, Hspec in He. tauto. }
    apply page_validation_covers with (E := E) in Hcov.
    rewrite Forall_forall in Hcov.
    apply Forall_forall. intros it Hit Hne.
    destruct (results_of w !! item_url it) eqn:Hm.
    + pose proof (keeps_urls_page E to_validate w) as Hkeep.
      unfold known_urls in Hkeep. apply elem_of_dom, Hkeep, elem_of_dom.
      unfold results_of in Hm. rewrite Hm. eauto.
    + apply Hcov. subst to_validate.
      apply list_elem_of_In, filter_In. split.
      * now apply list_elem_of_In.
      * apply in_list_In, Hspec. split; [|auto].
        exists it. split; [now apply list_elem_of_In|reflexivity].
Qed.

Lemma page_validation_probe_count (E : Env) (entries : list Item)
      (w : World) :
  probes (validate_channels_for_list E entries w).2
  = probes w
    + length (List.filter (to_probe (utcnow_at E (clock_reads w))
                                    (results_of w)) entries).
Proof.
  unfold validate_channels_for_list.
  rewrite !bind_run. cbn [utcnow get_cache fst snd].
  set (w0 := mkWorld _ _ _ _ _ _).
  change (validated_map (_channels_cache w0)) with (results_of w).
  destruct (List.filter _ entries) as [|t tasks] eqn:Htasks.
  - subst w0. cbn [ret fst snd length probes]. lia.
  - rewrite bind_run.
    destruct (attach_results_touch E (gather E (t :: tasks) w0).1 entries 0
                (gather E (t :: tasks) w0).2) as [Hp _].
    rewrite Hp. reflexivity.
Qed.

Lemma filter_length_bound {A : Type} (p : A -> bool) (l : list A) :
  length (List.filter p l) <= length l.
Proof.
  induction l as [|x l IH]; simpl; [lia|]. destruct (p x); simpl; lia.
Qed.

Lemma page_validation_probe_bound (E : Env) (entries : list Item)
      (w : World) :
  probes w <= probes (validate_channels_for_list E entries w).2
  <= probes w + length entries.
Proof.
  rewrite page_validation_probe_count.
  pose proof (filter_length_bound
                (to_probe (utcnow_at E (clock_reads w)) (results_of w))
                entries).
  lia.
Qed.

(** X13. The answer of [list_channels].  A listing that succeeds returns
    the requested page of the selected items, each with the validation
    result the cache holds for its URL when the request ends; with
    [working_only] only the entries marked working stay.  The answer never
    has more than [limit] entries. *)
Theorem listing_is_the_page_seen_through_the_cache
        (E : Env) (cat : Catalog) (page limit : nat) (q : option string)
        (refresh validate working_only : bool) (w : World)
        (out : list Channel) :
  (list_channels E cat page limit q refresh validate working_only w).1
  = Ok out ->
  exists its : list Item,
    (select_items E cat q refresh w).1 = Ok its
    /\ out
       = (if working_only then List.filter is_working else id)
           (map (to_channel
                   (results_of
                      (list_channels E cat page limit q refresh validate
                                     working_only w).2))
                (page_of its page limit))
    /\ length out <= limit
    /\ Forall (fun c => working_only = true -> ch_working c = Some true)
              out.
Proof.
  intros Hout.
  pose proof (list_channels_shape E cat page limit q refresh validate
                working_only w) as Hshape.
  cbv zeta in Hshape.
  destruct ((select_items E cat q refresh w).1) as [its|e];
    [|rewrite Hshape in Hout; discriminate].
  rewrite Hshape in Hout. injection Hout as <-.
  exists its. split; [reflexivity|]. split; [reflexivity|]. split.
  - pose proof (page_of_length its page limit) as Hlen.
    destruct working_only.
    + etransitivity; [apply filter_length_bound|].
      now rewrite length_map.
    + unfold id. now rewrite length_map.
  - destruct working_only; [|apply Forall_forall; discriminate].
    apply Forall_forall. intros c Hc _.
    apply list_elem_of_In, filter_In in Hc as [_ Hc].
    unfold is_working in Hc.
    destruct (ch_working c) as [[|]|]; congruence.
Qed.

Lemma listing_is_the_page_seen_through_the_cache_witness :
  exists its : list Item,
    (select_items (Samples.world_of (fun _ => EmptyString))
                  MoreSamples.no_catalog None false
                  Samples.loaded_snapshot).1 = Ok its
    /\ [MoreSamples.alpha_listed]
       = List.filter is_working
           (map (to_channel
                   (results_of
                      (list_channels (Samples.world_of (fun _ => EmptyString))
                                     MoreSamples.no_catalog 1 1 None false
                                     false true Samples.loaded_snapshot).2))
                (page_of its 1 1))
    /\ length [MoreSamples.alpha_listed] <= 1
    /\ Forall (fun c => true = true -> ch_working c = Some true)
              [MoreSamples.alpha_listed].
Proof.
  apply (listing_is_the_page_seen_through_the_cache
           (Samples.world_of (fun _ => EmptyString)) MoreSamples.no_catalog
           1 1 None false false true Samples.loaded_snapshot
           [MoreSamples.alpha_listed]).
  vm_compute. reflexivity.
Defined.

(** X14. [working_only] leaves no entry of the page unchecked.  When a
    listing with [working_only] succeeds, every item of the page that has a
    URL has a validation result in the cache, also when page validation ran
    first and filed results under other URLs. *)
Theorem working_only_validates_the_whole_page
        (E : Env) (cat : Catalog) (page limit : nat) (q : option string)
        (refresh validate : bool) (w : World) (its : list Item) :
  (select_items E cat q refresh w).1 = Ok its ->
  Forall (fun it =>
            nonempty (item_url it) = true ->
            is_Some (results_of
                       (list_channels E cat page limit q refresh validate
                                      true w).2 !! item_url it))
         (page_of its page limit).
Proof.
  intros Hsel. unfold list_channels. rewrite bind_run.
  destruct (select_items E cat q refresh w) as [selected w1].
  cbn [fst snd] in Hsel |- *. subst selected.
  rewrite !bind_run. cbn [get_cache fst snd].
  set (w2 := ((if validate
               then validate_channels_for_list E (page_of its page limit)
               else ret tt) w1).2).
  cbn [ret fst snd].
  apply (only_working_covers E (validated_map (_channels_cache w2))
           (page_of its page limit) w2).
Qed.

Lemma working_only_validates_the_whole_page_witness :
  Forall (fun it =>
            nonempty (item_url it) = true ->
            is_Some (results_of
                       (list_channels (Samples.world_of (fun _ => EmptyString))
                                      MoreSamples.no_catalog 1 2 None false
                                      true true Samples.job_under_way).2
                     !! item_url it))
         (page_of [Samples.alpha; Samples.beta] 1 2).
Proof.
  apply (working_only_validates_the_whole_page
           (Samples.world_of (fun _ => EmptyString)) MoreSamples.no_catalog
           1 2 None false true Samples.job_under_way
           [Samples.alpha; Samples.beta]).
  vm_compute. reflexivity.
Defined.

Lemma only_working_probe_bound (E : Env) (page_items : list Item)
      (out : list Channel) (w : World) :
  probes w <= probes (only_working E page_items out w).2
  <= probes w + length page_items.
Proof.
  unfold only_working. rewrite !bind_run. cbn [get_cache fst snd].
  destruct (missing_validation_urls _ _) as [|u missing].
  - cbn [ret fst snd]. lia.
  - rewrite !bind_run. cbn [get_cache ret fst snd].
    set (to_validate := List.filter _ page_items).
    pose proof (page_validation_probe_bound E to_validate w).
    pose proof (filter_length_bound
                  (fun it => in_list (item_url it) (u :: missing))
                  page_items).
    fold to_validate in H0. lia.
Qed.

(** X15. What a listing costs.  A listing runs at most [limit] probes for
    [validate] and at most [limit] more for [working_only]; with both off
    it runs none and leaves every validation result as it was. *)
Theorem listing_probe_budget
        (E : Env) (cat : Catalog) (page limit : nat) (q : option string)
        (refresh validate working_only : bool) (w : World) :
  let w' := (list_channels E cat page limit q refresh validate
                           working_only w).2 in
  probes w <= probes w'
  /\ probes w' <= probes w + (if validate then limit else 0)
                           + (if working_only then limit else 0)
  /\ (validate = false -> working_only = false ->
      results_of w' = results_of w).
Proof.
  cbv zeta. unfold list_channels. rewrite bind_run.
  destruct (select_items_keeps E cat q refresh w) as (Hp & Hm & _).
  destruct (select_items E cat q refresh w) as [[its|e] w1];
    cbn [fst snd] in Hp, Hm |- *.
  2:{ cbn [ret snd]. rewrite Hp, Hm. repeat split; lia. }
  rewrite !bind_run. cbn [get_cache fst snd].
  pose proof (page_of_length its page limit) as Hlen.
  set (page_items := page_of its page limit) in *.
  set (w2 := ((if validate then validate_channels_for_list E page_items
               else ret tt) w1).2).
  assert (Hw2 : probes w1 <= probes w2
                <= probes w1 + (if validate then limit else 0)).
  { subst w2. destruct validate; [|cbn [ret snd]; lia].
    pose proof (page_validation_probe_bound E page_items w1). lia. }
  destruct working_only.
  - rewrite bind_run. cbn [ret fst snd].
    pose proof (only_working_probe_bound E page_items
                  (map (to_channel (validated_map (_channels_cache w2)))
                       page_items) w2) as Hb.
    split; [lia|]. split; [lia|]. discriminate.
  - cbn [ret fst snd]. split; [lia|]. split; [lia|].
    intros -> _. subst w2. cbn [ret snd]. exact Hm.
Qed.

(** X16. A listing that fails.  [list_channels] fails only when the
    selection of the items fails, with the same error; it has then run no
    probe and changed no validation result. *)
Theorem failed_listing_probes_nothing
        (E : Env) (cat : Catalog) (page limit : nat) (q : option string)
        (refresh validate working_only : bool) (w : World) (e : Exc) :
  (list_channels E cat page limit q refresh validate working_only w).1
  = Raise e ->
  (select_items E cat q refresh w).1 = Raise e
  /\ probes (list_channels E cat page limit q refresh validate
                           working_only w).2 = probes w
  /\ results_of (list_channels E cat page limit q refresh validate
                               working_only w).2 = results_of w.
Proof.
  unfold list_channels. rewrite bind_run.
  destruct (select_items_keeps E cat q refresh w) as (Hp & Hm & _).
  destruct (select_items E cat q refresh w) as [[its|e'] w1];
    cbn [fst snd] in Hp, Hm |- *.
  - rewrite !bind_run. cbn [get_cache fst snd].
    destruct working_only; [rewrite bind_run|]; discriminate.
  - cbn [ret fst snd]. intros [= ->]. auto.
Qed.

Lemma failed_listing_probes_nothing_witness :
  (select_items Samples.index_down MoreSamples.no_catalog None true
                Samples.loaded_snapshot).1
  = Raise (Error "503 Service Unavailable")
  /\ probes (list_channels Samples.index_down MoreSamples.no_catalog 1 50
                           None true true true Samples.loaded_snapshot).2
     = probes Samples.loaded_snapshot
  /\ results_of (list_channels Samples.index_down MoreSamples.no_catalog 1 50
                               None true true true
                               Samples.loaded_snapshot).2
     = results_of Samples.loaded_snapshot.
Proof.
  apply (failed_listing_probes_nothing
           Samples.index_down MoreSamples.no_catalog 1 50 None true true
           true Samples.loaded_snapshot (Error "503 Service Unavailable")).
  vm_compute. reflexivity.
Defined.

Lemma annotate_length (sp : Playlist) (its : list Item) :
  length (annotate sp its) = length its.
Proof. unfold annotate. destruct (pl_type sp); now rewrite length_map. Qed.

(** X17. The count and the listing agree.  [channels_count] answers the
    number of items an unrefreshed [list_channels] call with the same
    query pages through, fails when that selection fails, and leaves the
    same state behind. *)
Theorem count_is_the_size_of_the_listed_selection
        (E : Env) (cat : Catalog) (q : option string) (w : World) :
  channels_count E cat q w
  = (match (select_items E cat q false w).1 with
     | Ok its => Ok (length its)
     | Raise e => Raise e
     end,
     (select_items E cat q false w).2).
Proof.
  unfold channels_count, select_items.
  assert (Hindex :
            bind (_load_channels E false)
                 (fun loaded =>
                    match loaded with
                    | Raise e => ret (Raise e)
                    | Ok its =>
                        ret (Ok (length
                                   (if truthy q
                                    then List.filter
                                           (matches_query
                                              (lower (or_empty q))) its
                                    else its)))
                    end) w
            = (match (bind (_load_channels E false)
                           (fun loaded =>
                              match loaded with
                              | Raise e => ret (Raise e)
                              | Ok its =>
                                  ret (Ok (if truthy q
                                           then List.filter
                                                  (matches_query
                                                     (lower (or_empty q)))
                                                  its
                                           else its))
                              end) w).1 with
               | Ok its => Ok (length its)
               | Raise e => Raise e
               end,
               (bind (_load_channels E false)
                     (fun loaded =>
                        match loaded with
                        | Raise e => ret (Raise e)
                        | Ok its =>
                            ret (Ok (if truthy q
                                     then List.filter
                                            (matches_query
                                               (lower (or_empty q))) its
                                     else its))
                        end) w).2)).
  { rewrite !bind_run.
    destruct (_load_channels E false w) as [[its|e] w1]; reflexivity. }
  destruct (if truthy q then _resolve_playlist_for_query cat q else None)
    as [sp|]; [|exact Hindex].
  destruct (truthy (pl_url sp)); [|exact Hindex].
  destruct (fetch_text_of cat (or_empty (pl_url sp))) as [text|e];
    cbn [ret fst snd]; [|reflexivity].
  now rewrite annotate_length.
Qed.

Lemma map_values_length (m : gmap string ValidationResult) :
  length (cached_results m) = size m.
Proof. unfold cached_results. now rewrite length_map, length_map_to_list. Qed.

Lemma load_channels_stamps (E : Env) (force : bool) (w : World)
      (l : list Item) :
  (_load_channels E force w).1 = Ok l ->
  is_Some (last_loaded (_channels_cache (_load_channels E force w).2)).
Proof.
  unfold _load_channels, cached_items, bind, get_cache, put_cache, utcnow,
    _fetch_channel_index_text, ret.
  destruct w as [[its loaded m] j c f p b]; cbn.
  destruct its as [[|it its]|]; destruct loaded as [t|]; cbn;
    repeat match goal with
           | |- context [if ?b then _ else _] => destruct b; cbn
           | |- context [match fetch_index_at E ?n with _ => _ end] =>
               destruct (fetch_index_at E n); cbn
           end;
    intros H; try discriminate; eauto.
Qed.

(** X18. The summary is a read-only view.  [channels_summary] runs no
    probe and changes no validation result; when it succeeds it reports the
    size of the validation cache, a working count that is the number of
    cached results marked working and so never above that size, the length
    of the list the cache then holds, and a load time that is never
    missing. *)
Theorem summary_reads_the_cache
        (E : Env) (w : World) (s : Summary) :
  (channels_summary E w).1 = Ok s ->
  probes (channels_summary E w).2 = probes w
  /\ results_of (channels_summary E w).2 = results_of w
  /\ validated_count s = size (results_of w)
  /\ working_count s
     = length (List.filter working (cached_results (results_of w)))
  /\ working_count s <= validated_count s
  /\ Some (parsed_count s)
     = length <$> cached_list (channels_summary E w).2
  /\ is_Some (summary_last_loaded s).
Proof.
  unfold channels_summary. rewrite bind_run.
  pose proof (load_channels_returns_cached E false w) as Hload.
  pose proof (load_channels_stamps E false w) as Hstamp.
  destruct (_load_channels E false w) as [[its|e] w1];
    cbn [fst snd] in Hload, Hstamp |- *; [|discriminate].
  destruct (Hload its eq_refl) as (Hlist & Hm & Hp).
  specialize (Hstamp its eq_refl).
  rewrite bind_run. cbn [get_cache ret fst snd].
  intros [= <-].
  cbn [validated_count working_count parsed_count summary_last_loaded].
  change (validated_map (_channels_cache w1)) with (results_of w1).
  rewrite Hm, Hp, Hlist.
  repeat split; try reflexivity; try exact Hstamp.
  rewrite <- map_values_length. apply filter_length_bound.
Qed.

Lemma summary_reads_the_cache_witness :
  probes (channels_summary (Samples.world_of (fun _ => EmptyString))
                           Samples.job_under_way).2
  = probes Samples.job_under_way
  /\ results_of (channels_summary (Samples.world_of (fun _ => EmptyString))
                                  Samples.job_under_way).2
     = results_of Samples.job_under_way
  /\ validated_count (mkSummary 2 1 1 (Some 900%Z))
     = size (results_of Samples.job_under_way)
  /\ working_count (mkSummary 2 1 1 (Some 900%Z))
     = length (List.filter working
                           (cached_results (results_of Samples.job_under_way)))
  /\ working_count (mkSummary 2 1 1 (Some 900%Z))
     <= validated_count (mkSummary 2 1 1 (Some 900%Z))
  /\ Some (parsed_count (mkSummary 2 1 1 (Some 900%Z)))
     = length <$> cached_list
                    (channels_summary
                       (Samples.world_of (fun _ => EmptyString))
                       Samples.job_under_way).2
  /\ is_Some (summary_last_loaded (mkSummary 2 1 1 (Some 900%Z))).
Proof.
  apply (summary_reads_the_cache
           (Samples.world_of (fun _ => EmptyString)) Samples.job_under_way
           (mkSummary 2 1 1 (Some 900%Z))).
  vm_compute. reflexivity.
Defined.

(** X19. The debug sample is clamped.  [debug_sample] returns the first
    [min(max(n, 1), 100)] items of the loaded list, or all of them when
    there are fewer: never more than 100 and never none from a list that
    has one.  Its two counts never exceed the total, and the call runs no
    probe and changes no validation result. *)
Theorem debug_sample_is_clamped
        (E : Env) (n : nat) (w : World) (d : DebugSample) :
  (debug_sample E n w).1 = Ok d ->
  ds_sample_count d = Nat.min (Nat.min (Nat.max n 1) 100) (ds_total d)
  /\ length (ds_sample d) = ds_sample_count d
  /\ ds_sample_count d <= 100
  /\ ds_nonnull_language d <= ds_total d
  /\ ds_nonnull_country d <= ds_total d
  /\ probes (debug_sample E n w).2 = probes w
  /\ results_of (debug_sample E n w).2 = results_of w.
Proof.
  unfold debug_sample. rewrite bind_run.
  pose proof (load_channels_returns_cached E false w) as Hload.
  destruct (_load_channels E false w) as [[its|e] w1];
    cbn [fst snd] in Hload |- *; [|discriminate].
  destruct (Hload its eq_refl) as (_ & Hm & Hp).
  cbn [ret fst snd]. intros [= <-].
  cbn [ds_sample_count ds_total ds_sample ds_nonnull_language
       ds_nonnull_country].
  rewrite length_map, length_take.
  pose proof (filter_length_bound (fun it => has_text (item_language it))
                its).
  pose proof (filter_length_bound (fun it => has_text (item_country it))
                its).
  repeat split; auto; lia.
Qed.

Lemma debug_sample_is_clamped_witness :
  ds_sample_count (mkDebugSample 2 1 0 0 [sample_entry Samples.alpha])
  = Nat.min (Nat.min (Nat.max 0 1) 100)
            (ds_total (mkDebugSample 2 1 0 0 [sample_entry Samples.alpha]))
  /\ length (ds_sample (mkDebugSample 2 1 0 0 [sample_entry Samples.alpha]))
     = ds_sample_count (mkDebugSample 2 1 0 0 [sample_entry Samples.alpha])
  /\ ds_sample_count (mkDebugSample 2 1 0 0 [sample_entry Samples.alpha])
     <= 100
  /\ ds_nonnull_language
       (mkDebugSample 2 1 0 0 [sample_entry Samples.alpha])
     <= ds_total (mkDebugSample 2 1 0 0 [sample_entry Samples.alpha])
  /\ ds_nonnull_country
       (mkDebugSample 2 1 0 0 [sample_entry Samples.alpha])
     <= ds_total (mkDebugSample 2 1 0 0 [sample_entry Samples.alpha])
  /\ probes (debug_sample (Samples.world_of (fun _ => EmptyString)) 0
                          Samples.loaded_snapshot).2
     = probes Samples.loaded_snapshot
  /\ results_of (debug_sample (Samples.world_of (fun _ => EmptyString)) 0
                              Samples.loaded_snapshot).2
     = results_of Samples.loaded_snapshot.
Proof.
  apply (debug_sample_is_clamped
           (Samples.world_of (fun _ => EmptyString)) 0
           Samples.loaded_snapshot
           (mkDebugSample 2 1 0 0 [sample_entry Samples.alpha])).
  vm_compute. reflexivity.
Defined.

(** X20. Pages tile the selection.  The pages 1 to [n] of a list, one
    after the other, are its first [n * limit] items in order: no item is
    listed twice or skipped between two pages, and a page that starts
    beyond the end is empty. *)
Theorem pages_tile_the_selection (its : list Item) (limit n : nat) :
  concat (map (fun p => page_of its (S p) limit) (seq 0 n))
  = take (n * limit) its
  /\ (forall page : nat,
         length its <= (page - 1) * limit -> page_of its page limit = []).
Proof.
  split.
  - induction n as [|n IH]; [reflexivity|].
    rewrite seq_S, map_app, concat_app, IH. cbn [map concat Nat.add].
    rewrite app_nil_r. unfold page_of.
    replace (S n - 1) with n by lia.
    rewrite take_take_drop. f_equal. lia.
  - intros page Hpage. unfold page_of.
    rewrite drop_ge by exact Hpage. apply take_nil.
Qed.

(** ** Properties of the playlist resolver *)

Lemma find_language_some (ql : string) (langs : list Language)
      (p : Playlist) :
  find_language ql langs = Some p ->
  exists l, In l langs
            /\ names ql (lang_code l) (lang_name l) = true
            /\ p = mkPlaylist language (lower (or_empty (lang_code l)))
                              (lang_playlist_url l).
Proof.
  induction langs as [|l langs IH]; simpl; [discriminate|].
  destruct (names ql (lang_code l) (lang_name l)) eqn:Hl.
  - intros [= <-]. exists l. auto.
  - intros H. destruct (IH H) as (l' & Hin & Hrest). exists l'. auto.
Qed.

Lemma find_language_none (ql : string) (langs : list Language) :
  find_language ql langs = None
  <-> Forall (fun l => names ql (lang_code l) (lang_name l) = false) langs.
Proof.
  induction langs as [|l langs IH]; simpl.
  - split; [constructor|reflexivity].
  - destruct (names ql (lang_code l) (lang_name l)) eqn:Hl.
    + split; [discriminate|]. intros H. apply Forall_cons in H as [H _].
      congruence.
    + rewrite IH. split.
      * intros H. now constructor.
      * intros H. now apply Forall_cons in H as [_ H].
Qed.

Lemma find_subdivision_some (ql : string) (subs : list Subdivision)
      (p : Playlist) :
  find_subdivision ql subs = Some p ->
  exists s, In s subs
            /\ names ql (sub_code s) (sub_name s) = true
            /\ p = mkPlaylist subdivision (lower (or_empty (sub_code s)))
                              (sub_playlist_url s).
Proof.
  induction subs as [|s subs IH]; simpl; [discriminate|].
  destruct (names ql (sub_code s) (sub_name s)) eqn:Hs.
  - intros [= <-]. exists s. auto.
  - intros H. destruct (IH H) as (s' & Hin & Hrest). exists s'. auto.
Qed.

Lemma find_subdivision_none (ql : string) (subs : list Subdivision) :
  Forall (fun s => names ql (sub_code s) (sub_name s) = false) subs ->
  find_subdivision ql subs = None.
Proof.
  induction 1 as [|s subs Hs _ IH]; simpl; [reflexivity|]. now rewrite Hs.
Qed.

Lemma find_city_some (ql : string) (cs : list City) (p : Playlist) :
  find_city ql cs = Some p ->
  exists c, In c cs
            /\ names ql (city_code c) (city_name c) = true
            /\ p = mkPlaylist city (lower (or_empty (city_code c)))
                              (city_playlist_url c).
Proof.
  induction cs as [|c cs IH]; simpl; [discriminate|].
  destruct (names ql (city_code c) (city_name c)) eqn:Hc.
  - intros [= <-]. exists c. auto.
  - intros H. destruct (IH H) as (c' & Hin & Hrest). exists c'. auto.
Qed.

Lemma find_city_none (ql : string) (cs : list City) :
  Forall (fun c => names ql (city_code c) (city_name c) = false) cs ->
  find_city ql cs = None.
Proof.
  induction 1 as [|c cs Hc _ IH]; simpl; [reflexivity|]. now rewrite Hc.
Qed.

Lemma find_country_some (ql : string) (countries : list Country)
      (p : Playlist) :
  find_country ql countries = Some p ->
  exists c, In c countries
    /\ match pl_type p with
       | language => False
       | country =>
           names ql (country_code c) (country_name c) = true
           /\ p = mkPlaylist country (lower (or_empty (country_code c)))
                             (country_playlist_url c)
       | subdivision =>
           names ql (country_code c) (country_name c) = false
           /\ exists s, In s (subdivisions c)
                /\ names ql (sub_code s) (sub_name s) = true
                /\ p = mkPlaylist subdivision
                                  (lower (or_empty (sub_code s)))
                                  (sub_playlist_url s)
       | city =>
           names ql (country_code c) (country_name c) = false
           /\ find_subdivision ql (subdivisions c) = None
           /\ exists ci, In ci (cities c)
                /\ names ql (city_code ci) (city_name ci) = true
                /\ p = mkPlaylist city (lower (or_empty (city_code ci)))
                                  (city_playlist_url ci)
       end.
Proof.
  induction countries as [|c countries IH]; simpl; [discriminate|].
  destruct (names ql (country_code c) (country_name c)) eqn:Hc.
  - intros [= <-]. exists c. cbn. auto.
  - destruct (find_subdivision ql (subdivisions c)) as [ps|] eqn:Hs.
    + intros [= <-].
      destruct (find_subdivision_some _ _ _ Hs) as (s & Hin & Hn & ->).
      exists c. cbn. split; [auto|]. split; [exact Hc|]. exists s. auto.
    + destruct (find_city ql (cities c)) as [pc|] eqn:Hci.
      * intros [= <-].
        destruct (find_city_some _ _ _ Hci) as (ci & Hin & Hn & ->).
        exists c. cbn. split; [auto|]. split; [exact Hc|].
        split; [exact Hs|]. exists ci. auto.
      * intros H. destruct (IH H) as (c' & Hin & Hrest).
        exists c'. split; [now right|exact Hrest].
Qed.

(** X21. Where a resolved playlist comes from.  A playlist the resolver
    returns is the entry of a language, of a country, of a subdivision
    listed under a country, or of a city listed directly under a country,
    whose code or name is the trimmed, lower-cased query; languages go
    first, and within a country the country itself goes before its
    subdivisions and these before its cities. *)
Theorem resolved_playlist_comes_from_the_taxonomy
        (cat : Catalog) (q : option string) (p : Playlist) :
  _resolve_playlist_for_query cat q = Some p ->
  let ql := lower (strip (or_empty q)) in
  let no_language :=
    Forall (fun l => names ql (lang_code l) (lang_name l) = false)
           (cat_languages cat) in
  truthy q = true
  /\ match pl_type p with
     | language =>
         exists l, In l (cat_languages cat)
           /\ names ql (lang_code l) (lang_name l) = true
           /\ p = mkPlaylist language (lower (or_empty (lang_code l)))
                             (lang_playlist_url l)
     | country =>
         no_language
         /\ exists c, In c (cat_countries cat)
              /\ names ql (country_code c) (country_name c) = true
              /\ p = mkPlaylist country (lower (or_empty (country_code c)))
                                (country_playlist_url c)
     | subdivision =>
         no_language
         /\ exists c s, In c (cat_countries cat) /\ In s (subdivisions c)
              /\ names ql (country_code c) (country_name c) = false
              /\ names ql (sub_code s) (sub_name s) = true
              /\ p = mkPlaylist subdivision (lower (or_empty (sub_code s)))
                                (sub_playlist_url s)
     | city =>
         no_language
         /\ exists c ci, In c (cat_countries cat) /\ In ci (cities c)
              /\ names ql (country_code c) (country_name c) = false
              /\ find_subdivision ql (subdivisions c) = None
              /\ names ql (city_code ci) (city_name ci) = true
              /\ p = mkPlaylist city (lower (or_empty (city_code ci)))
                                (city_playlist_url ci)
     end.
Proof.
  unfold _resolve_playlist_for_query. cbv zeta.
  destruct (truthy q); [|discriminate]. cbn [negb].
  set (ql := lower (strip (or_empty q))).
  destruct (find_language ql (cat_languages cat)) as [pl|] eqn:Hl.
  - intros [= <-]. split; [reflexivity|].
    destruct (find_language_some _ _ _ Hl) as (l & Hin & Hn & Hp).
    subst pl. cbn [pl_type]. exists l. auto.
  - intros Hc. split; [reflexivity|].
    apply find_language_none in Hl.
    destruct (find_country_some _ _ _ Hc) as (c & Hin & Hrest).
    destruct (pl_type p).
    + contradiction.
    + destruct Hrest as (Hn & Hp). split; [exact Hl|]. exists c. auto.
    + destruct Hrest as (Hn & s & Hs & Hsn & Hp). split; [exact Hl|].
      exists c, s. auto.
    + destruct Hrest as (Hn & Hnone & ci & Hci & Hcn & Hp).
      split; [exact Hl|]. exists c, ci. repeat split; auto.
Qed.

Lemma resolved_playlist_comes_from_the_taxonomy_witness :
  truthy (Some " in-ka ") = true
  /\ (Forall (fun l => names (lower (strip (or_empty (Some " in-ka "))))
                             (lang_code l) (lang_name l) = false)
             (cat_languages MoreSamples.small_catalog)
      /\ exists c s,
           In c (cat_countries MoreSamples.small_catalog)
           /\ In s (subdivisions c)
           /\ names (lower (strip (or_empty (Some " in-ka "))))
                    (country_code c) (country_name c) = false
           /\ names (lower (strip (or_empty (Some " in-ka "))))
                    (sub_code s) (sub_name s) = true
           /\ mkPlaylist subdivision "in-ka"
                         (Some "https://lists/subdivisions/in-ka.m3u")
              = mkPlaylist subdivision (lower (or_empty (sub_code s)))
                           (sub_playlist_url s)).
Proof.
  apply (resolved_playlist_comes_from_the_taxonomy
           MoreSamples.small_catalog (Some " in-ka ")
           (mkPlaylist subdivision "in-ka"
                       (Some "https://lists/subdivisions/in-ka.m3u"))).
  vm_compute. reflexivity.
Defined.

Lemma find_country_none (ql : string) (countries : list Country) :
  Forall (fun c =>
            names ql (country_code c) (country_name c) = false
            /\ Forall (fun s => names ql (sub_code s) (sub_name s) = false)
                      (subdivisions c)
            /\ Forall (fun ci => names ql (city_code ci) (city_name ci)
                                 = false)
                      (cities c)) countries ->
  find_country ql countries = None.
Proof.
  induction 1 as [|c countries (Hc & Hs & Hci) _ IH]; simpl; [reflexivity|].
  now rewrite Hc, (find_subdivision_none _ _ Hs), (find_city_none _ _ Hci).
Qed.

(** X22. What the resolver does not search.  When the query names no
    language, no country, no subdivision of a country and no city listed
    directly under a country, nothing is resolved: the cities listed under
    a subdivision are never looked at. *)
Theorem cities_under_subdivisions_are_not_searched
        (cat : Catalog) (q : option string) :
  let ql := lower (strip (or_empty q)) in
  Forall (fun l => names ql (lang_code l) (lang_name l) = false)
         (cat_languages cat) ->
  Forall (fun c =>
            names ql (country_code c) (country_name c) = false
            /\ Forall (fun s => names ql (sub_code s) (sub_name s) = false)
                      (subdivisions c)
            /\ Forall (fun ci => names ql (city_code ci) (city_name ci)
                                 = false)
                      (cities c)) (cat_countries cat) ->
  _resolve_playlist_for_query cat q = None.
Proof.
  cbv zeta. intros Hl Hc. unfold _resolve_playlist_for_query.
  destruct (truthy q); [|reflexivity]. cbn [negb].
  rewrite (proj2 (find_language_none _ _) Hl).
  now apply find_country_none.
Qed.

Lemma cities_under_subdivisions_are_not_searched_witness :
  In MoreSamples.bengaluru
     (concat (map sub_cities
                  (concat (map subdivisions
                               (cat_countries MoreSamples.small_catalog)))))
  /\ names (lower (strip (or_empty (Some "Bengaluru"))))
           (city_code MoreSamples.bengaluru)
           (city_name MoreSamples.bengaluru) = true
  /\ _resolve_playlist_for_query MoreSamples.small_catalog
                                 (Some "Bengaluru") = None.
Proof.
  split; [now left|]. split; [vm_compute; reflexivity|].
  apply (cities_under_subdivisions_are_not_searched
           MoreSamples.small_catalog (Some "Bengaluru")).
  - repeat constructor.
  - repeat constructor.
Defined.

(** X23. A blank query.  A query made of white space only is not empty, so
    it is resolved, as the empty string: it selects the first language
    entry that lacks a code or a name, when there is one. *)
Theorem blank_query_resolves_to_an_unnamed_language
        (cat : Catalog) (q : string) (l : Language) :
  nonempty q = true ->
  strip q = EmptyString ->
  In l (cat_languages cat) ->
  truthy (lang_code l) = false \/ truthy (lang_name l) = false ->
  exists p, _resolve_playlist_for_query cat (Some q) = Some p
            /\ pl_type p = language.
Proof.
  intros Hq Hblank Hin Hl. unfold _resolve_playlist_for_query.
  assert (Hor : or_empty (Some q) = q) by (now destruct q).
  assert (Ht : truthy (Some q) = true) by (now destruct q).
  rewrite Ht, Hor, Hblank. cbn [negb lower].
  destruct (find_language EmptyString (cat_languages cat)) as [p|] eqn:Hf.
  - destruct (find_language_some _ _ _ Hf) as (l' & _ & _ & ->). eauto.
  - exfalso. apply find_language_none in Hf.
    rewrite Forall_forall in Hf.
    specialize (Hf l (proj2 (list_elem_of_In _ _) Hin)).
    unfold names in Hf. apply orb_false_iff in Hf as [Hc Hn].
    destruct Hl as [Hl|Hl].
    + destruct (lang_code l) as [[|? ?]|]; discriminate.
    + destruct (lang_name l) as [[|? ?]|]; discriminate.
Qed.

Lemma blank_query_resolves_to_an_unnamed_language_witness :
  exists p,
    _resolve_playlist_for_query
      (mkCatalog [MoreSamples.hindi;
                  mkLanguage (Some "Undetermined") None
                             (Some "https://lists/languages/undefined.m3u")
                             None]
                 [] (fun _ => Ok EmptyString))
      (Some " ")
    = Some p
    /\ pl_type p = language.
Proof.
  apply (blank_query_resolves_to_an_unnamed_language
           (mkCatalog [MoreSamples.hindi;
                       mkLanguage (Some "Undetermined") None
                                  (Some "https://lists/languages/undefined.m3u")
                                  None]
                      [] (fun _ => Ok EmptyString))
           " "
           (mkLanguage (Some "Undetermined") None
                       (Some "https://lists/languages/undefined.m3u") None)).
  - reflexivity.
  - reflexivity.
  - right. left. reflexivity.
  - left. reflexivity.
Defined.

Lemma all_chars_keep (p : ascii -> bool) (s : string) :
  all_chars p (keep_chars p s) = true.
Proof.
  induction s as [|c s IH]; simpl; [reflexivity|].
  destruct (p c) eqn:Hc; simpl; [now rewrite Hc|exact IH].
Qed.

Lemma all_chars_take (p : ascii -> bool) (n : nat) (s : string) :
  all_chars p s = true -> all_chars p (str_take n s) = true.
Proof.
  revert s. induction n as [|n IH]; intros [|c s]; simpl; auto.
  intros H. apply andb_true_iff in H as [Hc Hs].
  now rewrite Hc, (IH s Hs).
Qed.

Lemma country_prefix_letters (code : string) :
  all_chars is_az (country_prefix code) = true.
Proof. unfold country_prefix. apply all_chars_keep. Qed.

Lemma annotate_filled_in (sp : Playlist) (its : list Item) :
  lower (pl_code sp) = pl_code sp ->
  Forall2 (filled_in sp) its (annotate sp its).
Proof.
  intros Hlow. unfold annotate, filled_in. rewrite Hlow.
  destruct (pl_type sp);
    (induction its as [|it its IH]; simpl; constructor; [|exact IH]);
    try reflexivity;
    (exists (country_prefix (pl_code sp));
     split; [apply country_prefix_letters|reflexivity]).
Qed.

Lemma lower_char_idempotent (c : ascii) :
  lower_char (lower_char c) = lower_char c.
Proof. destruct c as [[] [] [] [] [] [] [] []]; vm_compute; reflexivity. Qed.

Lemma lower_idempotent (s : string) : lower (lower s) = lower s.
Proof.
  induction s as [|c s IH]; simpl; [reflexivity|].
  now rewrite lower_char_idempotent, IH.
Qed.

Lemma resolved_code_is_lowered (cat : Catalog) (q : option string)
      (p : Playlist) :
  _resolve_playlist_for_query cat q = Some p ->
  lower (pl_code p) = pl_code p.
Proof.
  unfold _resolve_playlist_for_query.
  destruct (truthy q); [|discriminate]. cbn [negb].
  set (ql := lower (strip (or_empty q))).
  destruct (find_language ql (cat_languages cat)) as [pl|] eqn:Hl.
  - intros [= <-].
    destruct (find_language_some _ _ _ Hl) as (l & _ & _ & ->).
    apply lower_idempotent.
  - intros Hc. destruct (find_country_some _ _ _ Hc) as (c & _ & Hrest).
    destruct (pl_type p).
    + contradiction.
    + destruct Hrest as (_ & ->). apply lower_idempotent.
    + destruct Hrest as (_ & s & _ & _ & ->). apply lower_idempotent.
    + destruct Hrest as (_ & _ & ci & _ & _ & ->). apply lower_idempotent.
Qed.



(** ** Properties of the endpoints of [Backend/app.py] *)

Import LegacyApi.

(** X25. Which country playlist is asked for.  Whatever the path segment
    and whatever the country lookup answers, [channels_by_country] asks
    only for a file of the countries folder of the playlist site whose name
    is at most two letters a to z. *)
Theorem country_playlist_is_confined
        (countries_lookup : string -> option string)
        (country url : string) :
  country_playlist_url countries_lookup country = Ok url ->
  exists iso : string,
    url = M3U_BASE +:+ "/countries/" +:+ iso +:+ ".m3u"
    /\ String.length iso <= 2
    /\ all_chars is_az iso = true.
Proof.
  unfold country_playlist_url.
  destruct (resolve_country_to_iso2 countries_lookup country)
    as [resolved|e]; [|discriminate].
  intros Hurl.
  assert (Hok : forall a b : string, @Ok string a = Ok b -> b = a)
    by congruence.
  apply Hok in Hurl.
  eexists. split; [exact Hurl|]. split.
  - apply str_take_length.
  - apply all_chars_take, all_chars_keep.
Qed.

Lemma country_playlist_is_confined_witness :
  exists iso : string,
    "https://iptv-org.github.io/iptv/countries/.m3u"
    = M3U_BASE +:+ "/countries/" +:+ iso +:+ ".m3u"
    /\ String.length iso <= 2
    /\ all_chars is_az iso = true.
Proof.
  apply (country_playlist_is_confined
           (fun _ => None) "../../etc"
           "https://iptv-org.github.io/iptv/countries/.m3u").
  vm_compute. reflexivity.
Defined.

(** X26. Which language playlist is asked for.  Whatever the path segment
    and whatever the language lookups answer, [channels_by_language] asks
    only for a file of the languages folder of the playlist site whose name
    is at most five letters a to z. *)
Theorem language_playlist_is_confined
        (langcodes_alpha3 language_by_title : string -> option string)
        (lang : string) :
  exists code : string,
    language_playlist_url langcodes_alpha3 language_by_title lang
    = M3U_BASE +:+ "/languages/" +:+ code +:+ ".m3u"
    /\ String.length code <= 5
    /\ all_chars is_az code = true.
Proof.
  unfold language_playlist_url. eexists. split; [reflexivity|]. split.
  - apply str_take_length.
  - apply all_chars_take, all_chars_keep.
Qed.

Lemma lstrip_empty_iff (s : string) :
  lstrip s = EmptyString <-> all_chars isspace s = true.
Proof.
  induction s as [|c s IH]; simpl; [tauto|].
  destruct (isspace c); simpl; [exact IH|]. split; discriminate.
Qed.

Lemma first_word_none_iff (s : string) :
  first_word s = None <-> all_chars isspace s = true.
Proof.
  rewrite <- lstrip_empty_iff. unfold first_word.
  destruct (lstrip s); split; congruence.
Qed.

(** X27. When the country resolver raises.  [resolve_country_to_iso2]
    raises exactly when the input is not empty, is not two letters, is
    unknown to the lookup and what is left of it after the clean-up is not
    empty but holds no word; the error is then the [IndexError] of indexing
    an empty list, and [channels_by_country] passes it on instead of
    answering. *)
Theorem country_resolver_raises_on_blank_remainder
        (countries_lookup : string -> option string)
        (http_get : string -> Res string) (user : string) :
  let key := strip user in
  let blank_remainder :=
    nonempty user = true
    /\ (String.length key =? 2) && str_isalpha key = false
    /\ countries_lookup (sanitize key) = None
    /\ nonempty (sanitize key) = true
    /\ all_chars isspace (sanitize key) = true in
  ((exists e, resolve_country_to_iso2 countries_lookup user = Raise e)
   <-> blank_remainder)
  /\ (blank_remainder ->
      resolve_country_to_iso2 countries_lookup user
      = Raise (Error "list index out of range")
      /\ channels_by_country countries_lookup http_get user
         = Raise (Error "list index out of range")).
Proof.
  cbv zeta.
  assert (Hraise :
            nonempty user = true
            /\ (String.length (strip user) =? 2) && str_isalpha (strip user)
               = false
            /\ countries_lookup (sanitize (strip user)) = None
            /\ nonempty (sanitize (strip user)) = true
            /\ all_chars isspace (sanitize (strip user)) = true ->
            resolve_country_to_iso2 countries_lookup user
            = Raise (Error "list index out of range")).
  { intros (Hu & Hk & Hlook & Hne & Hblank).
    unfold resolve_country_to_iso2, first_word_or_empty.
    rewrite Hu, Hk, Hlook, Hne. cbn [negb].
    now rewrite (proj2 (first_word_none_iff _) Hblank). }
  split; [split|].
  - intros [e He]. unfold resolve_country_to_iso2, first_word_or_empty in He.
    destruct (nonempty user); [|discriminate]. cbn [negb] in He.
    destruct ((String.length (strip user) =? 2) && str_isalpha (strip user));
      [discriminate|].
    destruct (countries_lookup (sanitize (strip user))); [discriminate|].
    destruct (nonempty (sanitize (strip user))).
    + destruct (first_word (sanitize (strip user))) as [first|] eqn:Hf.
      * destruct (nonempty first); [|discriminate].
        destruct (countries_lookup first); discriminate.
      * apply first_word_none_iff in Hf. auto.
    + discriminate.
  - intros H. rewrite (Hraise H). eauto.
  - intros H. split; [exact (Hraise H)|].
    unfold channels_by_country, country_playlist_url.
    now rewrite (Hraise H).
Qed.

Lemma country_resolver_raises_on_blank_remainder_witness :
  resolve_country_to_iso2 (fun _ => None) "1 2"
  = Raise (Error "list index out of range")
  /\ channels_by_country (fun _ => None) (fun _ => Ok EmptyString) "1 2"
     = Raise (Error "list index out of range").
Proof.
  apply (proj2 (country_resolver_raises_on_blank_remainder
                  (fun _ => None) (fun _ => Ok EmptyString) "1 2")).
  vm_compute. auto.
Defined.

(** X28. The outcomes of the language endpoint.  [channels_by_language]
    fails only when the download fails, and then with status 502 and the
    text of the cause; otherwise it lists the channels parsed from the
    download, counts them, and adds a message exactly when there is
    none. *)
Theorem language_endpoint_outcomes
        (langcodes_alpha3 language_by_title : string -> option string)
        (http_get : string -> Res string) (lang : string) :
  let url := language_playlist_url langcodes_alpha3 language_by_title lang in
  match channels_by_language langcodes_alpha3 language_by_title http_get
                             lang with
  | Raise e =>
      exists cause,
        http_get url = Raise cause
        /\ e = HTTPException 502
                 ("Failed to fetch playlist: " +:+ exc_str cause)
  | Ok l =>
      exists text,
        http_get url = Ok text
        /\ channels l = Legacy.parse_m3u text
        /\ count l = length (channels l)
        /\ (message l = None <-> channels l <> [])
  end.
Proof.
  cbv zeta. unfold channels_by_language, fetch_m3u.
  destruct (http_get _) as [text|cause]; [|eauto].
  exists text. split; [reflexivity|]. unfold listing_of.
  destruct (Legacy.parse_m3u text) as [|c cs]; cbn.
  - repeat split; try reflexivity; [discriminate|congruence].
  - repeat split; try reflexivity; discriminate.
Qed.
